(** * sea-here: the data-access and caching layer

    A shallow embedding of the cache engine (data/cache.ts), the backoff
    utility (utils/backoff.ts), the bundled-dataset lookup (data/preload.ts)
    and the species repository (data/repository.ts), and the properties of
    them that the specification states.

    Conventions of the embedding.
    - A JavaScript value is a [val]; the numbers among the data are integers
      ([Z]), which covers timestamps, TTLs, HTTP statuses and delays. The
      two limits a caller passes in, [maxEntries] and [maxRetries], are
      [number]s: any finite value, [NaN] or an infinity.
    - A string is a [string] whose characters are read as code units in the
      range 0..255.
    - An asynchronous function is a state-and-exception computation
      [M S A := S -> result A * S]; [await] is sequencing, a rejected promise
      is [Err], [try]/[catch] is [try_catch].
    - The database maps string keys to cache entries, as the type
      arguments of the idb-keyval calls say; a failing store call leaves it
      unchanged.
    - [console.error]/[console.warn] calls have no effect on any result and
      are left out. *)

From Stdlib Require Import ZArith QArith Qround Lqa String Ascii List Lia Bool.
From stdpp Require Import base gmap list strings pretty sorting.

Open Scope Z_scope.
Set Warnings "-register-all".

(* ===================================================================== *)
(** ** JavaScript values and errors *)
(* ===================================================================== *)

Inductive val : Type :=
| VUndef
| VNull
| VBool (b : bool)
| VNum (n : Z)
| VStr (s : string)
| VArr (items : list val)
| VObj (fields : list (string * val))
| VFun (name : string) (arity : Z).

(** A thrown value: an instance of [Error] (with its name and message) or
    any other value. *)
Inductive exn : Type :=
| JsError (name message : string)
| Thrown (v : val).

Inductive result (A : Type) : Type :=
| Ok (a : A)
| Err (e : exn).
Arguments Ok {A} a.
Arguments Err {A} e.

(** Truthiness, as tested by [if (x)], [!x] and [x && y]. *)
Definition truthy (v : val) : bool :=
  match v with
  | VUndef | VNull => false
  | VBool b => b
  | VNum n => negb (n =? 0)
  | VStr s => negb (String.eqb s EmptyString)
  | VArr _ | VObj _ | VFun _ _ => true
  end.

Definition isArray (v : val) : bool :=
  match v with VArr _ => true | _ => false end.

(** [String(v)]. Integers print in decimal (magnitudes below 1e21); a
    function prints as the built-in functions do. *)
Fixpoint ToString (v : val) : string :=
  match v with
  | VUndef => "undefined"
  | VNull => "null"
  | VBool true => "true"
  | VBool false => "false"
  | VNum n => pretty n
  | VStr s => s
  | VArr items =>
      (fix join (l : list val) : string :=
         match l with
         | [] => EmptyString
         | x :: rest =>
             let sx := match x with VUndef | VNull => EmptyString | _ => ToString x end in
             match rest with
             | [] => sx
             | _ :: _ => sx +:+ "," +:+ join rest
             end
         end) items
  | VObj _ => "[object Object]"
  | VFun name _ => "function " +:+ name +:+ "() { [native code] }"
  end.

(** Property read [v.name], for the names the code reads. The first
    binding of a name in [fields] is its value. Of those names a function
    has [name] and [length]. Reading a property of a primitive gives
    [undefined]; the arguments typed [Species] in the source are objects. *)
Fixpoint lookup_field (name : string) (fields : list (string * val)) : val :=
  match fields with
  | [] => VUndef
  | (k, v) :: rest => if String.eqb k name then v else lookup_field name rest
  end.

Definition prop (v : val) (name : string) : val :=
  match v with
  | VObj fields => lookup_field name fields
  | VFun f arity =>
      if String.eqb name "name" then VStr f
      else if String.eqb name "length" then VNum arity
      else VUndef
  | _ => VUndef
  end.

(** The SameValueZero comparison of [Set.prototype.has]: primitives compare
    by value, two separately built objects or arrays are never the same, a
    built-in function is the same as itself. *)
Definition sameValueZero (a b : val) : bool :=
  match a, b with
  | VUndef, VUndef => true
  | VNull, VNull => true
  | VBool x, VBool y => Bool.eqb x y
  | VNum x, VNum y => x =? y
  | VStr x, VStr y => String.eqb x y
  | VFun x _, VFun y _ => String.eqb x y
  | _, _ => false
  end.

(* ===================================================================== *)
(** ** Numbers passed in as limits *)
(* ===================================================================== *)

(** A JavaScript number: a finite value, taken exactly, [NaN], [Infinity]
    or [-Infinity]. *)
Inductive number : Type :=
| Finite (q : Q)
| NaN
| Infinity
| NegInfinity.

Definition ofZ (z : Z) : number := Finite (inject_Z z).

(** [a <= b] *)
Definition num_leb (a b : number) : bool :=
  match a, b with
  | NaN, _ | _, NaN => false
  | NegInfinity, _ | _, Infinity => true
  | Infinity, _ | _, NegInfinity => false
  | Finite x, Finite y => Qle_bool x y
  end.

(** [a > b] *)
Definition num_gtb (a b : number) : bool :=
  match a, b with
  | NaN, _ | _, NaN => false
  | NegInfinity, _ | _, Infinity => false
  | Infinity, _ | _, NegInfinity => true
  | Finite x, Finite y => negb (Qle_bool x y)
  end.

(** [a === b] *)
Definition num_eqb (a b : number) : bool :=
  match a, b with
  | Finite x, Finite y => Qeq_bool x y
  | Infinity, Infinity | NegInfinity, NegInfinity => true
  | _, _ => false
  end.

(** [a - b] *)
Definition num_sub (a b : number) : number :=
  match a, b with
  | NaN, _ | _, NaN => NaN
  | Finite x, Finite y => Finite (Qminus x y)
  | Infinity, Infinity | NegInfinity, NegInfinity => NaN
  | Infinity, _ | _, NegInfinity => Infinity
  | NegInfinity, _ | _, Infinity => NegInfinity
  end.

(** Rounding towards zero, as array indices are taken. *)
Definition truncate (q : Q) : Z :=
  if Qle_bool (inject_Z 0) q then Qfloor q else Qceiling q.

(** [items.slice(0, end)] keeps the first [sliceEnd (length items) end]
    elements: [end] is rounded towards zero ([NaN] counts as 0), a negative
    [end] counts from the end of the array. *)
Definition sliceEnd (len : nat) (end_ : number) : nat :=
  match end_ with
  | NaN | NegInfinity => 0%nat
  | Infinity => len
  | Finite q =>
      let relativeEnd := truncate q in
      if relativeEnd <? 0 then Z.to_nat (Z.max (Z.of_nat len + relativeEnd) 0)
      else Z.to_nat (Z.min relativeEnd (Z.of_nat len))
  end.

Definition slice0 {A} (end_ : number) (items : list A) : list A :=
  firstn (sliceEnd (length items) end_) items.

(* ===================================================================== *)
(** ** Strings *)
(* ===================================================================== *)

(** WhiteSpace and LineTerminator code units below 256: TAB, LF, VT, FF, CR,
    SPACE and NO-BREAK SPACE. *)
Definition isWhiteSpace (c : ascii) : bool :=
  let n := nat_of_ascii c in
  ((9 <=? n)%nat && (n <=? 13)%nat) || (n =? 32)%nat || (n =? 160)%nat.

Fixpoint trimStart (s : string) : string :=
  match s with
  | EmptyString => EmptyString
  | String c rest => if isWhiteSpace c then trimStart rest else s
  end.

Fixpoint trimEnd (s : string) : string :=
  match s with
  | EmptyString => EmptyString
  | String c rest =>
      match trimEnd rest with
      | EmptyString => if isWhiteSpace c then EmptyString else String c EmptyString
      | t => String c t
      end
  end.

Definition trim (s : string) : string := trimEnd (trimStart s).

(** Upper-case code units below 256 are A-Z, and 0xC0-0xDE except 0xD7. *)
Definition lowerChar (c : ascii) : ascii :=
  let n := nat_of_ascii c in
  if ((65 <=? n)%nat && (n <=? 90)%nat)
     || ((192 <=? n)%nat && (n <=? 222)%nat && negb (n =? 215)%nat)
  then ascii_of_nat (n + 32) else c.

Fixpoint toLowerCase (s : string) : string :=
  match s with
  | EmptyString => EmptyString
  | String c rest => String (lowerChar c) (toLowerCase rest)
  end.

(** [s.includes(t)] *)
Fixpoint includes (s t : string) : bool :=
  String.prefix t s ||
  match s with
  | EmptyString => false
  | String _ rest => includes rest t
  end.

Definition hexDigit (n : nat) : ascii :=
  ascii_of_nat (if (n <? 10)%nat then 48 + n else 55 + n).

Definition percent (byte : nat) : string :=
  String "%" (String (hexDigit (byte / 16)) (String (hexDigit (byte mod 16)) EmptyString)).

Definition isUnreserved (c : ascii) : bool :=
  let n := nat_of_ascii c in
  ((65 <=? n)%nat && (n <=? 90)%nat) || ((97 <=? n)%nat && (n <=? 122)%nat)
  || ((48 <=? n)%nat && (n <=? 57)%nat)
  || existsb (Nat.eqb n) [45; 95; 46; 33; 126; 42; 39; 40; 41]%nat.

(** [encodeURIComponent]: unreserved characters stay, the others are
    written as the percent-escaped bytes of their UTF-8 encoding. *)
Fixpoint encodeURIComponent (s : string) : string :=
  match s with
  | EmptyString => EmptyString
  | String c rest =>
      let n := nat_of_ascii c in
      (if isUnreserved c then String c EmptyString
       else if (n <? 128)%nat then percent n
       else percent (192 + n / 64) +:+ percent (128 + n mod 64))
      +:+ encodeURIComponent rest
  end.

(* ===================================================================== *)
(** ** Asynchronous computations *)
(* ===================================================================== *)

Definition M (S A : Type) : Type := S -> result A * S.

Definition ret {S A} (a : A) : M S A := fun s => (Ok a, s).

Definition throw {S A} (e : exn) : M S A := fun s => (Err e, s).

Definition bind {S A B} (m : M S A) (k : A -> M S B) : M S B :=
  fun s =>
    match m s with
    | (Ok a, s') => k a s'
    | (Err e, s') => (Err e, s')
    end.

Definition try_catch {S A} (body : M S A) (handler : exn -> M S A) : M S A :=
  fun s =>
    match body s with
    | (Ok a, s') => (Ok a, s')
    | (Err e, s') => handler e s'
    end.

Notation "'let*' x ':=' m 'in' k" := (bind m (fun x => k))
  (at level 10, x name, m at level 100, k at level 200).

(** A [for (const x of xs) { body x }] loop. *)
Fixpoint forOf {S A} (xs : list A) (body : A -> M S unit) : M S unit :=
  match xs with
  | [] => ret tt
  | x :: rest => let* _ := body x in forOf rest body
  end.

(* ===================================================================== *)
(** ** The platform: clock, persistent store, network, timers *)
(* ===================================================================== *)

(** cache.ts, [interface CacheEntry] *)
Record CacheEntry : Type := mkEntry {
  value : val;
  expiresAt : Z;
  lastAccess : Z
}.

(** What the repository reads of a [Response]: [status], [ok],
    [headers.get('ETag')] and the outcome of [json()]. *)
Record Response : Type := mkResponse {
  status : Z;
  ok : bool;
  etagHeader : option string;
  json : result val
}.

(** A [fetch(url, { headers })] call: the URL and the [If-None-Match]
    header, when one is set. *)
Record Request : Type := mkRequest {
  url : string;
  ifNoneMatch : option val
}.

(** What the outside world decides: the n-th reading of [Date.now()],
    whether the n-th idb-keyval call fails, the outcome of the n-th
    [fetch], and the order in which the n-th idb-keyval call lists keys:
    by ascending rank, keys of equal rank by their code units. (IndexedDB
    lists keys in ascending order, which is the order for a constant rank;
    a store kept in a [Map] lists them in insertion order.) *)
Record env : Type := mkEnv {
  clock : nat -> Z;
  idb_fault : nat -> option exn;
  network : nat -> Request -> result Response;
  key_rank : nat -> string -> Z
}.

(** The state the program runs in: the idb-keyval database, how many
    clock readings, store calls and fetches were made so far, and the
    delays passed to [setTimeout], in order. *)
Record world : Type := mkWorld {
  store : gmap string CacheEntry;
  clock_reads : nat;
  idb_calls : nat;
  fetch_calls : nat;
  timers : list Z
}.

Definition with_store (st : gmap string CacheEntry) (w : world) : world :=
  mkWorld st (clock_reads w) (idb_calls w) (fetch_calls w) (timers w).

(** The state of a computation that can wait on a timer. *)
Class Timer (S : Type) : Type := setTimeout : Z -> S -> S.

#[global] Instance world_Timer : Timer world :=
  fun delay w => mkWorld (store w) (clock_reads w) (idb_calls w) (fetch_calls w)
                         (timers w ++ [delay]).

(** [await new Promise(resolve => setTimeout(resolve, delay))] *)
Definition sleep {S} `{Timer S} (delay : Z) : M S unit :=
  fun s => (Ok tt, setTimeout delay s).

(** [a] is listed before [b], or is [b]. *)
Definition keyBefore (rank : string -> Z) (a b : string) : bool :=
  (rank a <? rank b) || ((rank a =? rank b) && String.leb a b).

Fixpoint insertKey (rank : string -> Z) (k : string) (listed : list string) : list string :=
  match listed with
  | [] => [k]
  | k' :: rest =>
      if keyBefore rank k k' then k :: listed else k' :: insertKey rank k rest
  end.

(** The keys of a database, listed by rank. *)
Definition listKeys (rank : string -> Z) (st : gmap string CacheEntry) : list string :=
  foldr (insertKey rank) [] (map_to_list st).*1.

Section Platform.

Variable E : env.

(** [Date.now()] *)
Definition dateNow : M world Z :=
  fun w => (Ok (clock E (clock_reads w)),
            mkWorld (store w) (S (clock_reads w)) (idb_calls w) (fetch_calls w) (timers w)).

(** One idb-keyval call: it fails when the environment says so, and
    otherwise acts on the database. *)
Definition idb {A} (action : gmap string CacheEntry -> A * gmap string CacheEntry)
  : M world A :=
  fun w =>
    let w' := mkWorld (store w) (clock_reads w) (S (idb_calls w)) (fetch_calls w) (timers w) in
    match idb_fault E (idb_calls w) with
    | Some e => (Err e, w')
    | None => let (a, st) := action (store w) in (Ok a, with_store st w')
    end.

Definition idbGet (key : string) : M world (option CacheEntry) :=
  idb (fun st => (st !! key, st)).

Definition idbSet (key : string) (entry : CacheEntry) : M world unit :=
  idb (fun st => (tt, <[key := entry]> st)).

Definition idbDel (key : string) : M world unit :=
  idb (fun st => (tt, delete key st)).

(** [keys()] lists the keys of the database, in the order the environment
    gives them at this call. *)
Definition idbKeys : M world (list string) :=
  fun w => idb (fun st => (listKeys (key_rank E (idb_calls w)) st, st)) w.

(** [fetch(url, { headers })] *)
Definition fetch (req : Request) : M world Response :=
  fun w => (network E (fetch_calls w) req,
            mkWorld (store w) (clock_reads w) (idb_calls w) (S (fetch_calls w)) (timers w)).

End Platform.

(* ===================================================================== *)
(** ** data/cache.ts *)
(* ===================================================================== *)

Definition CACHE_PREFIX : string := "sea-here-cache:".

Definition getCacheKey (key : string) : string := CACHE_PREFIX +:+ key.

Definition isCacheKey (key : string) : bool := String.prefix CACHE_PREFIX key.

Record Stats : Type := mkStats {
  totalEntries : nat;
  expiredEntries : nat;
  validEntries : nat
}.

(** An element of the [entries] array of [evictLRUIfNeeded]. *)
Record Candidate : Type := mkCandidate {
  key : string;
  c_lastAccess : Z;
  c_expiresAt : Z
}.

(** [entries.sort((a, b) => a.lastAccess - b.lastAccess)]: a stable sort,
    ascending in [lastAccess]. An element moves behind another one only
    when the comparator is positive. *)
Fixpoint insertByLastAccess (c : Candidate) (sorted : list Candidate) : list Candidate :=
  match sorted with
  | [] => [c]
  | d :: rest =>
      if c_lastAccess c - c_lastAccess d >? 0 then d :: insertByLastAccess c rest
      else c :: sorted
  end.

Definition sortByLastAccess (entries : list Candidate) : list Candidate :=
  foldr insertByLastAccess [] entries.

Section Cache.

Variable E : env.

Definition get (key : string) : M world val :=
  try_catch
    (let cacheKey := getCacheKey key in
     let* entry := idbGet E cacheKey in
     match entry with
     | None => ret VUndef
     | Some entry =>
         let* now := dateNow E in
         if now >? expiresAt entry then
           let* _ := idbDel E cacheKey in
           ret VUndef
         else
           let entry := mkEntry (value entry) (expiresAt entry) now in
           let* _ := idbSet E cacheKey entry in
           ret (value entry)
     end)
    (fun error => ret VUndef).

Definition set (key : string) (value : val) (ttlMs : Z) : M world unit :=
  try_catch
    (let* now := dateNow E in
     let cacheKey := getCacheKey key in
     let entry := mkEntry value (now + ttlMs) now in
     idbSet E cacheKey entry)
    (fun error => throw error).

(** The first loop of [evictLRUIfNeeded]: collect the live entries, delete
    the expired ones. *)
Fixpoint collectEntries (cacheKeys : list string) (entries : list Candidate)
  : M world (list Candidate) :=
  match cacheKeys with
  | [] => ret entries
  | cacheKey :: rest =>
      let* entry := idbGet E cacheKey in
      match entry with
      | Some entry =>
          let* now := dateNow E in
          if now <=? expiresAt entry then
            collectEntries rest
              (entries ++ [mkCandidate cacheKey (lastAccess entry) (expiresAt entry)])
          else
            let* _ := idbDel E cacheKey in
            collectEntries rest entries
      | None => collectEntries rest entries
      end
  end.

Definition evictLRUIfNeeded (maxEntries : number) : M world unit :=
  try_catch
    (let* allKeys := idbKeys E in
     let cacheKeys := List.filter isCacheKey allKeys in
     if num_leb (ofZ (Z.of_nat (length cacheKeys))) maxEntries then ret tt
     else
       let* entries := collectEntries cacheKeys [] in
       let entries := sortByLastAccess entries in
       let entriesToEvict := num_sub (ofZ (Z.of_nat (length entries))) maxEntries in
       if num_gtb entriesToEvict (ofZ 0) then
         let keysToEvict := map key (slice0 entriesToEvict entries) in
         forOf keysToEvict (fun keyToEvict => idbDel E keyToEvict)
       else ret tt)
    (fun error => throw error).

Definition clear : M world unit :=
  try_catch
    (let* allKeys := idbKeys E in
     let cacheKeys := List.filter isCacheKey allKeys in
     forOf cacheKeys (fun cacheKey => idbDel E cacheKey))
    (fun error => throw error).

(** The loop of [getStats], with its two counters. *)
Fixpoint countEntries (now : Z) (cacheKeys : list string) (expired valid : nat)
  : M world (nat * nat) :=
  match cacheKeys with
  | [] => ret (expired, valid)
  | cacheKey :: rest =>
      let* entry := idbGet E cacheKey in
      match entry with
      | Some entry =>
          if now >? expiresAt entry then countEntries now rest (S expired) valid
          else countEntries now rest expired (S valid)
      | None => countEntries now rest expired valid
      end
  end.

Definition getStats : M world Stats :=
  try_catch
    (let* allKeys := idbKeys E in
     let cacheKeys := List.filter isCacheKey allKeys in
     let* now := dateNow E in
     let* counts := countEntries now cacheKeys 0%nat 0%nat in
     ret (mkStats (length cacheKeys) (fst counts) (snd counts)))
    (fun error => ret (mkStats 0 0 0)).

End Cache.

(* ===================================================================== *)
(** ** utils/backoff.ts *)
(* ===================================================================== *)

Record BackoffOptions : Type := mkOptions {
  maxRetries : option number;
  baseDelayMs : option Z;
  maxDelayMs : option Z
}.

(** [{}], the default value of the [options] argument. *)
Definition noOptions : BackoffOptions := mkOptions None None None.

(** [error instanceof Error ? error : new Error(String(error))] *)
Definition toError (error : exn) : exn :=
  match error with
  | JsError _ _ => error
  | Thrown v => JsError "Error" (ToString v)
  end.

Section Backoff.

Context {S A : Type} `{Timer S}.

Variable operation : M S A.
Variable maxRetries' : number.
Variables baseDelayMs' maxDelayMs' : Z.

(** The [for] loop of [withBackoff] from a given value of [attempt], and
    the [throw lastError] behind it. [fuel] bounds the iterations left. *)
Fixpoint backoffLoop (fuel : nat) (attempt : Z) (lastError : exn) : M S A :=
  match fuel with
  | O => throw lastError
  | Datatypes.S fuel' =>
      if num_leb (ofZ attempt) maxRetries' then
        try_catch operation
          (fun error =>
             let lastError := toError error in
             if num_eqb (ofZ attempt) maxRetries' then throw lastError
             else
               let delay := Z.min (baseDelayMs' * 2 ^ attempt) maxDelayMs' in
               let* _ := sleep delay in
               backoffLoop fuel' (attempt + 1) lastError)
      else throw lastError
  end.

End Backoff.

(** The number of times the loop condition [attempt <= maxRetries] is
    tested, when that is bounded: once more than the number of values of
    [attempt] that pass it. With [maxRetries = Infinity] every value
    passes. *)
Definition loopTests (maxRetries : number) : option nat :=
  match maxRetries with
  | Finite q => Some (Datatypes.S (Z.to_nat (Qfloor q + 1)))
  | NaN | NegInfinity => Some 1%nat
  | Infinity => None
  end.

(** The loop of [withBackoff] is bounded unless [maxRetries] is
    [Infinity]; then the source retries for as long as the operation
    fails, and a run that never ends is no value of [M S A]. *)
Definition bounded (options : BackoffOptions) : Prop :=
  is_Some (loopTests (default (ofZ 2) (maxRetries options))).

(** [withBackoff], for options that bound its loop. [lastError] is declared
    without a value: until an attempt fails it is [undefined]. *)
Definition withBackoff {S A} `{Timer S} (operation : M S A) (options : BackoffOptions)
    (_ : bounded options) : M S A :=
  let maxRetries := default (ofZ 2) (maxRetries options) in
  let baseDelayMs := default 100 (baseDelayMs options) in
  let maxDelayMs := default 2000 (maxDelayMs options) in
  backoffLoop operation maxRetries baseDelayMs maxDelayMs
    (default 0%nat (loopTests maxRetries)) 0 (Thrown VUndef).

(** The default options bound the loop. *)
Definition bounded_noOptions : bounded noOptions :=
  ex_intro _ 4%nat eq_refl.

(* ===================================================================== *)
(** ** data/preload.ts and data/repository.ts *)
(* ===================================================================== *)

Definition CACHE_KEYS_species (id : string) : string := "species:" +:+ id.
Definition CACHE_KEYS_population (id : string) : string := "population:" +:+ id.
Definition CACHE_KEYS_etag (url : string) : string := "etag:" +:+ url.
Definition CACHE_KEYS_searchResults (query : string) : string := "search:" +:+ query.

Definition CACHE_TTL_species : Z := 24 * 60 * 60 * 1000.
Definition CACHE_TTL_population : Z := 6 * 60 * 60 * 1000.
Definition CACHE_TTL_etag : Z := 24 * 60 * 60 * 1000.
Definition CACHE_TTL_search : Z := 30 * 60 * 1000.

(** [x?.trim()]: [undefined] for [null] and [undefined], the trimmed string
    for a string; any other value has no callable [trim]. *)
Definition optionalTrim {S} (x : val) : M S val :=
  match x with
  | VUndef | VNull => ret VUndef
  | VStr s => ret (VStr (trim s))
  | _ => throw (JsError "TypeError" "trim is not a function")
  end.

(** [items.join(separator)] *)
Fixpoint join (separator : string) (items : list val) : string :=
  match items with
  | [] => EmptyString
  | x :: rest =>
      let sx := match x with VUndef | VNull => EmptyString | _ => ToString x end in
      match rest with
      | [] => sx
      | _ :: _ => sx +:+ separator +:+ join separator rest
      end
  end.

(** [mergeSearchResults]: [localIds.has(species.id)] is membership of the
    identifier among the identifiers of [local]. *)
Definition mergeSearchResults (local remote : list val) : list val :=
  let merged := local in
  let localIds := map (fun s => prop s "id") local in
  foldl (fun merged species =>
           if negb (existsb (sameValueZero (prop species "id")) localIds)
           then merged ++ [species] else merged)
        merged remote.

(** *** Plain objects used as lookup tables

    [coreSpeciesById] of preload.ts starts as [{}] and is filled by
    [acc[species.id] = species]; it is read by [coreSpeciesById[id]]. Such
    an object has its own properties and a prototype whose properties it
    inherits: [Object.prototype], until an assignment to [__proto__]
    replaces it. *)

(** The functions [Object.prototype] holds. Its one other property is the
    accessor [__proto__]. *)
Definition objectPrototypeMembers : list (string * val) :=
  [("constructor", VFun "Object" 1);
   ("__defineGetter__", VFun "__defineGetter__" 2);
   ("__defineSetter__", VFun "__defineSetter__" 2);
   ("hasOwnProperty", VFun "hasOwnProperty" 1);
   ("__lookupGetter__", VFun "__lookupGetter__" 1);
   ("__lookupSetter__", VFun "__lookupSetter__" 1);
   ("isPrototypeOf", VFun "isPrototypeOf" 1);
   ("propertyIsEnumerable", VFun "propertyIsEnumerable" 1);
   ("toString", VFun "toString" 0);
   ("valueOf", VFun "valueOf" 0);
   ("toLocaleString", VFun "toLocaleString" 0)].

(** [Object.prototype], as a value. *)
Definition objectPrototype : val := VObj objectPrototypeMembers.

(** [prototype = None] stands for [Object.prototype]; [Some fields] for an
    object with these fields of its own, which inherits from
    [Object.prototype] in turn. *)
Record PlainObject : Type := mkObject {
  own : gmap string val;
  prototype : option (list (string * val))
}.

(** [{}] *)
Definition emptyObject : PlainObject := mkObject ∅ None.

(** The own property [name] of an object with the given fields, if it has
    one. *)
Fixpoint own_field (name : string) (fields : list (string * val)) : option val :=
  match fields with
  | [] => None
  | (k, v) :: rest => if String.eqb k name then Some v else own_field name rest
  end.

(** An assignment to [o.__proto__] reaches the accessor of
    [Object.prototype] unless [o] or its prototype has an own property of
    that name. *)
Definition reachesProtoAccessor (o : PlainObject) : bool :=
  match own o !! "__proto__", prototype o with
  | Some _, _ => false
  | None, None => true
  | None, Some fields =>
      match own_field "__proto__" fields with Some _ => false | None => true end
  end.

(** [o[key] = v]. Through the [__proto__] accessor an object [v] becomes
    the prototype of [o] and a primitive [v] is ignored; any other
    assignment defines or overwrites an own property. The [reduce] files a
    value under the key [String(v.id)]: what it files under [__proto__]
    has that string as its [id] and so is an object with fields
    ([assign_proto_record] below), never [null], an array or a function,
    which the accessor would take as a prototype as well. *)
Definition assign (o : PlainObject) (key : string) (v : val) : PlainObject :=
  if String.eqb key "__proto__" && reachesProtoAccessor o then
    match v with
    | VObj fields => mkObject (own o) (Some fields)
    | _ => o
    end
  else mkObject (<[key := v]> (own o)) (prototype o).

(** [o[name]]: the own property, else the property of the nearest object
    of the prototype chain that has it, else [undefined]. The accessor
    [__proto__] gives the prototype of [o]. *)
Definition readProperty (o : PlainObject) (name : string) : val :=
  match own o !! name with
  | Some v => v
  | None =>
      match prototype o with
      | None =>
          if String.eqb name "__proto__" then objectPrototype
          else lookup_field name objectPrototypeMembers
      | Some fields =>
          match own_field name fields with
          | Some v => v
          | None =>
              if String.eqb name "__proto__" then VObj fields
              else lookup_field name objectPrototypeMembers
          end
      end
  end.

Section Repository.

Variable E : env.

(** [isSpecies] of domain/types.ts, and the validated content of
    core-species.json. *)
Variable isSpecies : val -> bool.
Variable coreSpecies : list val.

(** preload.ts, [coreSpeciesById] and [getCoreSpeciesById] *)
Definition coreSpeciesById : PlainObject :=
  foldl (fun acc species => assign acc (ToString (prop species "id")) species)
        emptyObject coreSpecies.

Definition getCoreSpeciesById (id : val) : val :=
  readProperty coreSpeciesById (ToString id).

Definition fetchWithETag (url : string) : M world Response :=
  let etagKey := CACHE_KEYS_etag url in
  let* cachedETag := get E etagKey in
  let headers := if truthy cachedETag then Some cachedETag else None in
  withBackoff
    (let* response := fetch E (mkRequest url headers) in
     let* _ := match etagHeader response with
               | Some etag =>
                   if truthy (VStr etag) then set E etagKey (VStr etag) CACHE_TTL_etag
                   else ret tt
               | None => ret tt
               end in
     ret response)
    noOptions bounded_noOptions.

Definition fuzzySearchPreload (query : string) : list val :=
  if negb (truthy (VStr (trim query))) then []
  else
    let searchTerm := trim (toLowerCase query) in
    List.filter
      (fun species =>
         let searchableText :=
           toLowerCase
             (join " " [prop species "name";
                        prop (prop species "bullets") "habitat";
                        prop (prop species "bullets") "diet";
                        prop (prop species "bullets") "personality"]) in
         includes searchableText searchTerm)
      coreSpecies.

(** [await response.json()] *)
Definition readJson (response : Response) : M world val :=
  fun w => (json response, w).

(** In the three accessors the inner [try] block either returns from the
    function ([Some v]) or falls through to the code behind it ([None]). *)

Definition getSpecies (id : val) : M world val :=
  let* trimmed := optionalTrim id in
  if negb (truthy trimmed) then ret VUndef
  else
    let cacheKey := CACHE_KEYS_species (ToString id) in
    try_catch
      (let* cached := get E cacheKey in
       if truthy cached && isSpecies cached then ret cached
       else
         let* returned :=
           try_catch
             (let* response :=
                fetchWithETag ("/api/species/" +:+ encodeURIComponent (ToString id)) in
              let* notModified :=
                if status response =? 304 then
                  let* cachedData := get E cacheKey in
                  if truthy cachedData && isSpecies cachedData
                  then ret (Some cachedData) else ret None
                else ret None in
              match notModified with
              | Some cachedData => ret (Some cachedData)
              | None =>
                  if ok response then
                    let* data := readJson response in
                    if isSpecies data then
                      let* _ := set E cacheKey data CACHE_TTL_species in
                      ret (Some data)
                    else ret None
                  else ret None
              end)
             (fun error => ret None) in
         match returned with
         | Some species => ret species
         | None =>
             let preloadSpecies := getCoreSpeciesById id in
             if truthy preloadSpecies then
               let* _ := set E cacheKey preloadSpecies CACHE_TTL_species in
               ret preloadSpecies
             else ret VUndef
         end)
      (fun error => ret (getCoreSpeciesById id)).

Definition search (query : val) : M world val :=
  let* trimmed := optionalTrim query in
  if negb (truthy trimmed) then ret (VArr [])
  else
    let cacheKey := CACHE_KEYS_searchResults (ToString query) in
    try_catch
      (let* cached := get E cacheKey in
       if truthy cached && isArray cached then ret cached
       else
         let localResults := fuzzySearchPreload (ToString query) in
         let* returned :=
           try_catch
             (let* response :=
                fetchWithETag ("/api/search?q=" +:+ encodeURIComponent (ToString query)) in
              let* notModified :=
                if status response =? 304 then
                  let* cachedResults := get E cacheKey in
                  if truthy cachedResults && isArray cachedResults
                  then ret (Some cachedResults) else ret None
                else ret None in
              match notModified with
              | Some cachedResults => ret (Some cachedResults)
              | None =>
                  if ok response then
                    let* remoteData := readJson response in
                    match remoteData with
                    | VArr remote =>
                        if forallb isSpecies remote then
                          let merged := VArr (mergeSearchResults localResults remote) in
                          let* _ := set E cacheKey merged CACHE_TTL_search in
                          ret (Some merged)
                        else ret None
                    | _ => ret None
                    end
                  else ret None
              end)
             (fun error => ret None) in
         match returned with
         | Some results => ret results
         | None =>
             let* _ := set E cacheKey (VArr localResults) CACHE_TTL_search in
             ret (VArr localResults)
         end)
      (fun error => ret (VArr (fuzzySearchPreload (ToString query)))).

Definition getPopulation (id : val) : M world val :=
  let* trimmed := optionalTrim id in
  if negb (truthy trimmed) then ret (VArr [])
  else
    let cacheKey := CACHE_KEYS_population (ToString id) in
    try_catch
      (let* cached := get E cacheKey in
       if truthy cached && isArray cached then ret cached
       else
         let* returned :=
           try_catch
             (let* response :=
                fetchWithETag ("/api/population/" +:+ encodeURIComponent (ToString id)) in
              let* notModified :=
                if status response =? 304 then
                  let* cachedData := get E cacheKey in
                  if truthy cachedData && isArray cachedData
                  then ret (Some cachedData) else ret None
                else ret None in
              match notModified with
              | Some cachedData => ret (Some cachedData)
              | None =>
                  if ok response then
                    let* data := readJson response in
                    if isArray data then
                      let* _ := set E cacheKey data CACHE_TTL_population in
                      ret (Some data)
                    else ret None
                  else ret None
              end)
             (fun error => ret None) in
         match returned with
         | Some points => ret points
         | None => ret (VArr [])
         end)
      (fun error => ret (VArr [])).

Definition clearCache : M world unit := clear E.

Definition getCacheStats : M world Stats := getStats E.

End Repository.


(* ===================================================================== *)
(** ** Notions used in the statements *)
(* ===================================================================== *)

(** The store calls made by a run from [w] to [w'] are those numbered from
    [idb_calls w] up to, and without, [idb_calls w']. *)
Definition made_call (w w' : world) (n : nat) : Prop :=
  (idb_calls w <= n < idb_calls w')%nat.

Ltac run :=
  cbv beta delta [get set try_catch bind ret throw idbGet idbSet idbDel idbKeys idb dateNow
                  with_store] iota;
  cbn [store clock_reads idb_calls fetch_calls timers fst snd].

(** A computation surfaces store failures: whenever one of the store calls
    it makes fails, it fails with that error. *)
Definition surfaces (E : env) {A} (m : M world A) : Prop :=
  forall w,
    (idb_calls w <= idb_calls (snd (m w)))%nat /\
    forall n e, made_call w (snd (m w)) n -> idb_fault E n = Some e -> fst (m w) = Err e.

(** A computation changes the database at the key [k] at most. *)
Definition touches_only (k : string) {A} (m : M world A) : Prop :=
  forall w k', k' <> k -> store (snd (m w)) !! k' = store w !! k'.

(** The persistent store never fails. *)
Definition healthy (E : env) : Prop := forall n, idb_fault E n = None.

(** The namespaced keys of a database. *)
Definition cacheKeysOf (st : gmap string CacheEntry) : list string :=
  List.filter isCacheKey (map_to_list st).*1.

(** The namespaced keys in the order [keys()] lists them when it is called
    in the world [w]. *)
Definition listedCacheKeys (E : env) (w : world) : list string :=
  List.filter isCacheKey (listKeys (key_rank E (idb_calls w)) (store w)).

Definition expiredIn (st : gmap string CacheEntry) (now : Z) (k : string) : bool :=
  match st !! k with
  | Some entry => now >? expiresAt entry
  | None => false
  end.

Definition liveIn (st : gmap string CacheEntry) (now : Z) (k : string) : bool :=
  match st !! k with
  | Some entry => negb (now >? expiresAt entry)
  | None => false
  end.

(** What [getStats] reports of a database read at time [now]. *)
Definition statsOf (st : gmap string CacheEntry) (now : Z) : Stats :=
  mkStats (length (cacheKeysOf st))
          (length (List.filter (expiredIn st now) (cacheKeysOf st)))
          (length (List.filter (liveIn st now) (cacheKeysOf st))).

(** *** What [evictLRUIfNeeded] leaves of a database read at time [now] *)

(** The candidates the first loop collects from the keys [ks]. *)
Definition candidatesOf (st : gmap string CacheEntry) (now : Z) (ks : list string)
  : list Candidate :=
  omap (fun k =>
          match st !! k with
          | Some entry =>
              if now <=? expiresAt entry
              then Some (mkCandidate k (lastAccess entry) (expiresAt entry))
              else None
          | None => None
          end) ks.

Definition expiredKeys (st : gmap string CacheEntry) (now : Z) : list string :=
  List.filter (expiredIn st now) (cacheKeysOf st).

Definition liveKeys (st : gmap string CacheEntry) (now : Z) : list string :=
  List.filter (liveIn st now) (cacheKeysOf st).

(** The number [x] is the integer [m]: [x === m]. *)
Definition isInteger (x : number) (m : Z) : Prop := num_eqb x (ofZ m) = true.

(** How many of [live] sorted candidates the pass evicts:
    [entries.length - maxEntries] of them when that is positive, rounded
    down as [slice] does, and no more than there are. *)
Definition evictCount (live : nat) (maxEntries : number) : nat :=
  let entriesToEvict := num_sub (ofZ (Z.of_nat live)) maxEntries in
  if num_gtb entriesToEvict (ofZ 0) then sliceEnd live entriesToEvict else 0%nat.

(** The keys of the [n] candidates accessed longest ago. *)
Definition oldestKeys (n : nat) (live : list Candidate) : list string :=
  map key (take n (sortByLastAccess live)).

(** The keys of the oldest live entries beyond [maxEntries], of the keys
    [ks] in the order listed. *)
Definition evictedKeys (st : gmap string CacheEntry) (now : Z) (maxEntries : number)
  (ks : list string) : list string :=
  let live := candidatesOf st now ks in
  oldestKeys (evictCount (length live) maxEntries) live.

(** *** What [evictLRUIfNeeded] leaves of a database, entry by entry

    The pass reads the clock once for each namespaced entry, in the order
    [keys()] lists the keys, starting with the next reading. [examined]
    pairs each namespaced key with the time its entry is examined at. *)
Definition examined (E : env) (w : world) : list (string * Z) :=
  zip (listedCacheKeys E w)
      (map (clock E) (seq (clock_reads w) (length (listedCacheKeys E w)))).

(** The entry of the key has expired at the time it is examined. *)
Definition expiredWhen (st : gmap string CacheEntry) (examination : string * Z) : bool :=
  expiredIn st (snd examination) (fst examination).

(** The candidate the first loop collects for a key that is live at the
    time it is examined. *)
Definition candidateWhen (st : gmap string CacheEntry) (examination : string * Z)
  : option Candidate :=
  match st !! fst examination with
  | Some entry =>
      if snd examination <=? expiresAt entry
      then Some (mkCandidate (fst examination) (lastAccess entry) (expiresAt entry))
      else None
  | None => None
  end.

Definition expiredSeen (E : env) (w : world) : list string :=
  (List.filter (expiredWhen (store w)) (examined E w)).*1.

Definition liveSeen (E : env) (w : world) : list Candidate :=
  omap (candidateWhen (store w)) (examined E w).

Definition evictedSeen (E : env) (w : world) (maxEntries : number) : list string :=
  oldestKeys (evictCount (length (liveSeen E w)) maxEntries) (liveSeen E w).

(** Candidates in ascending order of last access. *)
Definition byLastAccess (a b : Candidate) : Prop := c_lastAccess a <= c_lastAccess b.

(** *** Strings and search results *)

(** The empty string and the strings of white space only. *)
Fixpoint allWhiteSpace (s : string) : bool :=
  match s with
  | EmptyString => true
  | String c rest => isWhiteSpace c && allWhiteSpace rest
  end.

(** The identifier of [species] is that of one of the [local] records. *)
Definition idPresent (local : list val) (species : val) : bool :=
  existsb (sameValueZero (prop species "id")) (map (fun s => prop s "id") local).

(** *** Observing [withBackoff]

    To count invocations and waits, an operation is run next to a log: each
    invocation appends its outcome, each timer wait appends its delay. *)

Inductive event (A : Type) : Type :=
| Invoked (outcome : result A)
| Waited (delay : Z).
Arguments Invoked {A} outcome.
Arguments Waited {A} delay.

Definition logged {S A} (operation : M S A) : M (S * list (event A)) A :=
  fun sl =>
    let (r, s') := operation (fst sl) in
    (r, (s', snd sl ++ [Invoked r])).

#[global] Instance logged_Timer {S A} `{Timer S} : Timer (S * list (event A)) :=
  fun delay sl => (setTimeout delay (fst sl), snd sl ++ [Waited delay]).

(** The log of a run that starts at [attempt], fails with [failures] in
    turn, waiting after each of them, and ends with the invocation whose
    outcome is [final]. *)
Fixpoint retryLog {A} (baseDelayMs maxDelayMs attempt : Z) (failures : list exn)
  (final : result A) : list (event A) :=
  match failures with
  | [] => [Invoked final]
  | e :: rest =>
      Invoked (Err e)
      :: Waited (Z.min (baseDelayMs * 2 ^ attempt) maxDelayMs)
      :: retryLog baseDelayMs maxDelayMs (attempt + 1) rest final
  end.


(** An operation that fails on its first two invocations and then succeeds;
    its state counts the invocations. *)
Definition failsTwice : M (nat * world) val :=
  fun s =>
    (match fst s with
     | 0%nat => Err (JsError "Error" "fail 1")
     | 1%nat => Err (Thrown (VNum 42))
     | _ => Ok (VStr "success")
     end,
     (S (fst s), snd s)).

#[global] Instance counted_Timer : Timer (nat * world) :=
  fun delay s => (fst s, setTimeout delay (snd s)).

(** *** Sample environments and worlds, for the examples *)

Definition storeError : exn := JsError "Error" "IndexedDB error".
Definition fetchError : exn := JsError "TypeError" "Failed to fetch".

(** The clock advances by one millisecond per reading, the store works,
    the network is unreachable. *)
Definition offlineEnv : env :=
  mkEnv (fun n => 1000 + Z.of_nat n) (fun _ => None) (fun _ _ => Err fetchError)
        (fun _ _ => 0).

(** As [offlineEnv], with a store whose every call fails. *)
Definition brokenStoreEnv : env :=
  mkEnv (fun n => 1000 + Z.of_nat n) (fun _ => Some storeError) (fun _ _ => Err fetchError)
        (fun _ _ => 0).

Definition emptyWorld : world := mkWorld ∅ 0 0 0 [].

(** A world whose one cache entry expired at time 1050, read at time 1100. *)
Definition staleEntry : CacheEntry := mkEntry (VStr "test-value") 1050 1000.
Definition staleWorld : world :=
  mkWorld {[ getCacheKey "cleanup-test" := staleEntry ]} 100 1 0 [].

(** A limit between two integers, and a retry count between two
    integers. *)
Definition twoAndAHalf : number := Finite (5 # 2).
Definition oneHalf : number := Finite (1 # 2).

(** The clock stands still at 2000 and the store works. *)
Definition frozenEnv : env :=
  mkEnv (fun _ => 2000) (fun _ => None) (fun _ _ => Err fetchError)
        (fun _ _ => 0).

(** Five namespaced entries, one of them expired, and one foreign key. *)
Definition lruWorld : world :=
  mkWorld (list_to_map
             [(getCacheKey "key1", mkEntry (VStr "value1") 60000 1010);
              (getCacheKey "key2", mkEntry (VStr "value2") 60000 1020);
              (getCacheKey "key3", mkEntry (VStr "value3") 60000 1030);
              (getCacheKey "key4", mkEntry (VStr "value4") 60000 1005);
              (getCacheKey "old", mkEntry (VStr "gone") 1500 1040);
              ("other-data", mkEntry (VNum 7) 0 0)])
          0 0 0 [].

(** The clock reads 1498 first and advances by one millisecond per
    reading; the store works. *)
Definition tickingEnv : env :=
  mkEnv (fun n => 1498 + Z.of_nat n) (fun _ => None) (fun _ _ => Err fetchError)
        (fun _ _ => 0).

(** Four namespaced entries; the one under [key4] expires at 1500. *)
Definition agingWorld : world :=
  mkWorld (list_to_map
             [(getCacheKey "key1", mkEntry (VStr "value1") 60000 1010);
              (getCacheKey "key2", mkEntry (VStr "value2") 60000 1020);
              (getCacheKey "key3", mkEntry (VStr "value3") 60000 1030);
              (getCacheKey "key4", mkEntry (VStr "value4") 1500 1005)])
          0 0 0 [].

(** As [tickingEnv], with a store that lists the key of [key4] before
    the others, as one that keeps insertion order does when [key4] was
    written first. *)
Definition key4FirstEnv : env :=
  mkEnv (fun n => 1498 + Z.of_nat n) (fun _ => None) (fun _ _ => Err fetchError)
        (fun _ k => if String.eqb k (getCacheKey "key4") then -1 else 0).

(** As [agingWorld], with the entry under [key4] the one accessed last. *)
Definition racingWorld : world :=
  mkWorld (list_to_map
             [(getCacheKey "key1", mkEntry (VStr "value1") 60000 1010);
              (getCacheKey "key2", mkEntry (VStr "value2") 60000 1020);
              (getCacheKey "key3", mkEntry (VStr "value3") 60000 1030);
              (getCacheKey "key4", mkEntry (VStr "value4") 1500 1040)])
          0 0 0 [].

(** Records and responses for the repository examples. [hasStringId] stands
    in for the shape check. *)
Definition hasStringId (v : val) : bool :=
  match prop v "id" with VStr _ => true | _ => false end.

Definition seaOtter : val :=
  VObj [("id", VStr "sea-otter"); ("name", VStr "Sea Otter"); ("endangerment", VStr "EN");
        ("bullets", VObj [("habitat", VStr "Kelp forests and coastal waters");
                          ("diet", VStr "Sea urchins, crabs, mollusks");
                          ("personality", VStr "Playful and social")]);
        ("photoURLs", VArr [VStr "/images/sea-otter.jpg"])].

Definition remoteOtter : val :=
  VObj [("id", VStr "sea-otter"); ("name", VStr "Sea Otter (remote)")].

Definition remoteSpecies : val :=
  VObj [("id", VStr "remote-species"); ("name", VStr "Remote Species")].

(** Every fetch answers 200 with the given body and no ETag. *)
Definition answering (body : val) : env :=
  mkEnv (fun n => 1000 + Z.of_nat n) (fun _ => None)
        (fun _ _ => Ok (mkResponse 200 true None (Ok body)))
        (fun _ _ => 0).

(* ===================================================================== *)
(** ** The rest of data/cache.ts, utils/backoff.ts and data/preload.ts *)
(* ===================================================================== *)

Fixpoint dropChars (n : nat) (s : string) : string :=
  match n, s with
  | O, _ => s
  | S n', String _ rest => dropChars n' rest
  | S _, EmptyString => EmptyString
  end.

(** [s.replace(pattern, replacement)] for a string pattern and a
    replacement without [$]: the first occurrence is replaced. *)
Fixpoint replaceFirst (pattern replacement s : string) : string :=
  if String.prefix pattern s then replacement +:+ dropChars (String.length pattern) s
  else
    match s with
    | EmptyString => EmptyString
    | String c rest => String c (replaceFirst pattern replacement rest)
    end.

(** cache.ts, [getOriginalKey] *)
Definition getOriginalKey (cacheKey : string) : string :=
  replaceFirst CACHE_PREFIX EmptyString cacheKey.

(** backoff.ts, [createBackoff] *)
Definition createBackoff {S A} `{Timer S} (options : BackoffOptions)
    (Hbounded : bounded options) : M S A -> M S A :=
  fun operation => withBackoff operation options Hbounded.

(** Property read that fails on [null] and [undefined], as in JavaScript
    (the wording of the message is the engine's). *)
Definition member (v : val) (name : string) : result val :=
  match v with
  | VUndef | VNull =>
      Err (JsError "TypeError" ("Cannot read properties of " +:+ ToString v))
  | _ => Ok (prop v name)
  end.

(** [v.length] of a value that is neither [null] nor [undefined]: the
    length of an array or a string, the field of an object. *)
Definition lengthOf (v : val) : val :=
  match v with
  | VArr items => VNum (Z.of_nat (length items))
  | VStr s => VNum (Z.of_nat (String.length s))
  | _ => prop v "length"
  end.

(** [a === n] for a number [n]. *)
Definition strictEqualsNumber (a : val) (n : Z) : bool :=
  match a with
  | VNum m => m =? n
  | _ => false
  end.

Definition quoted (s : string) : string :=
  String (ascii_of_nat 34) s +:+ String (ascii_of_nat 34) EmptyString.

(** The callback of [data.forEach] in [validateCoreSpecies]: [None] when
    the record passes, the error it throws otherwise. *)
Definition checkCoreSpecies (species : val) (index : nat) : option exn :=
  match member species "id" with
  | Err e => Some e
  | Ok id =>
      let name := prop species "name" in
      let bullets := prop species "bullets" in
      let photoURLs := prop species "photoURLs" in
      if negb (truthy id) || negb (truthy name)
         || negb (truthy (prop species "endangerment"))
         || negb (truthy bullets) || negb (truthy photoURLs)
      then Some (JsError "Error"
                   ("Species at index " +:+ pretty (Z.of_nat index)
                    +:+ " is missing required fields"))
      else if negb (truthy (prop bullets "habitat")) || negb (truthy (prop bullets "diet"))
              || negb (truthy (prop bullets "personality"))
      then Some (JsError "Error"
                   ("Species " +:+ quoted (ToString name)
                    +:+ " is missing required bullet points"))
      else if strictEqualsNumber (lengthOf photoURLs) 0
      then Some (JsError "Error"
                   ("Species " +:+ quoted (ToString name) +:+ " has no photo URLs"))
      else None
  end.

(** [data.forEach(callback)] from a given index: the first error stops it. *)
Fixpoint checkAll (items : list val) (index : nat) : option exn :=
  match items with
  | [] => None
  | species :: rest =>
      match checkCoreSpecies species index with
      | Some e => Some e
      | None => checkAll rest (S index)
      end
  end.

Section Preload.

(** [isSpeciesArray] of domain/types.ts. *)
Variable isSpeciesArray : val -> bool.

(** preload.ts, [validateCoreSpecies] *)
Definition validateCoreSpecies (data : val) : result (list val) :=
  if negb (isSpeciesArray data) then
    Err (JsError "Error" "Invalid core species data: does not match Species[] schema")
  else
    match member data "length" with
    | Err e => Err e
    | Ok _ =>
        if negb (strictEqualsNumber (lengthOf data) 7) then
          Err (JsError "Error"
                 ("Expected exactly 7 core species, got " +:+ ToString (lengthOf data)))
        else
          match data with
          | VArr items =>
              match checkAll items 0 with
              | Some e => Err e
              | None => Ok items
              end
          | _ => Err (JsError "TypeError" "data.forEach is not a function")
          end
    end.

End Preload.

Definition CORE_SPECIES_COUNT : Z := 7.

(* ===================================================================== *)
(** ** state/ui.ts *)
(* ===================================================================== *)

(** The state of the store is an object: its fields, in order. *)
Definition UIState : Type := list (string * val).

Definition initialState : UIState :=
  [("ttsEnabled", VBool false); ("tutorialComplete", VBool false)].

(** The state the store is created with:
    [{ ...initialState, toggleTTS, setTutorialComplete, reset }]. *)
Definition createdState : UIState :=
  initialState ++
  [("toggleTTS", VFun "toggleTTS" 0);
   ("setTutorialComplete", VFun "setTutorialComplete" 1);
   ("reset", VFun "reset" 0)].

(** [{ ...state, [name]: v }]: the field of that name gets the value, or
    is added behind the others. *)
Fixpoint setField (name : string) (v : val) (state : UIState) : UIState :=
  match state with
  | [] => [(name, v)]
  | (k, old) :: rest =>
      if String.eqb k name then (k, v) :: rest else (k, old) :: setField name v rest
  end.

(** [set(partial)] of the store: the fields of [partial] are merged into
    the state. *)
Definition merge (state partial : UIState) : UIState :=
  foldl (fun state field => setField (fst field) (snd field) state) state partial.

(** The three actions of the store, with their arguments. *)
Inductive UIAction : Type :=
| toggleTTS
| setTutorialComplete (complete : val)
| reset.

Definition dispatch (state : UIState) (action : UIAction) : UIState :=
  match action with
  | toggleTTS =>
      merge state [("ttsEnabled", VBool (negb (truthy (lookup_field "ttsEnabled" state))))]
  | setTutorialComplete complete => merge state [("tutorialComplete", complete)]
  | reset => merge state initialState
  end.

(** The state with the given flags and the three actions. *)
Definition stateWith (tts : bool) (tutorial : val) : UIState :=
  [("ttsEnabled", VBool tts); ("tutorialComplete", tutorial);
   ("toggleTTS", VFun "toggleTTS" 0);
   ("setTutorialComplete", VFun "setTutorialComplete" 1);
   ("reset", VFun "reset" 0)].

(** [partialize]: what the persist middleware writes of a state. *)
Definition partialize (state : UIState) : UIState :=
  [("ttsEnabled", lookup_field "ttsEnabled" state);
   ("tutorialComplete", lookup_field "tutorialComplete" state)].

(* ===================================================================== *)
(** ** More notions used in the statements *)
(* ===================================================================== *)

(** A computation only deletes, and only namespaced keys: foreign keys keep
    their entries and no entry appears or changes. Its result, when it
    returns normally, satisfies [P]. *)
Definition prunes {A} (P : A -> Prop) (m : M world A) : Prop :=
  forall w,
    (forall k, isCacheKey k = false -> store (snd (m w)) !! k = store w !! k) /\
    (forall k entry, store (snd (m w)) !! k = Some entry -> store w !! k = Some entry) /\
    (forall a, fst (m w) = Ok a -> P a).

(** A computation leaves the database as it is. *)
Definition reads_only {A} (m : M world A) : Prop :=
  forall w, store (snd (m w)) = store w.

Definition namespaced (c : Candidate) : Prop := isCacheKey (key c) = true.

(** The sum of the waits recorded in a log. *)
Fixpoint totalWait {A} (log : list (event A)) : Z :=
  match log with
  | [] => 0
  | Waited delay :: rest => delay + totalWait rest
  | Invoked _ :: rest => totalWait rest
  end.

Fixpoint invocations {A} (log : list (event A)) : nat :=
  match log with
  | [] => 0
  | Invoked _ :: rest => S (invocations rest)
  | Waited _ :: rest => invocations rest
  end.


(** Every value a computation returns normally satisfies [P]. *)
Definition returns {S A} (P : A -> Prop) (m : M S A) : Prop :=
  forall s a s', m s = (Ok a, s') -> P a.

(** What [getSpecies(id)] may return: nothing, the bundled record of [id],
    or a value that passed the shape check. *)
Definition validatedSpecies (isSpecies : val -> bool) (coreSpecies : list val)
  (id : string) (v : val) : Prop :=
  v = VUndef \/ v = getCoreSpeciesById coreSpecies (VStr id) \/ isSpecies v = true.

Definition isList (v : val) : Prop := exists items, v = VArr items.

(** A world whose cache holds the sea otter under [species:sea-otter]. *)
Definition otterCachedWorld : world :=
  mkWorld {[ getCacheKey (CACHE_KEYS_species "sea-otter") := mkEntry seaOtter 90000 1000 ]}
          0 0 0 [].

(** The network is unreachable and the store works or fails as [faults]
    says. *)
Definition unreachable (faults : nat -> option exn) : env :=
  mkEnv (fun n => 1000 + Z.of_nat n) faults (fun _ _ => Err fetchError) (fun _ _ => 0).

Definition networkDown (E : env) : Prop := forall n req, exists e, network E n req = Err e.

(** The text [fuzzySearchPreload] matches a record against, before it is
    lower-cased. *)
Definition searchableText (species : val) : string :=
  join " " [prop species "name";
            prop (prop species "bullets") "habitat";
            prop (prop species "bullets") "diet";
            prop (prop species "bullets") "personality"].

(** The property key under which [coreSpeciesById] files a record. *)
Definition idKey (species : val) : string := ToString (prop species "id").

(** One step of the [reduce] that builds [coreSpeciesById]. *)
Definition fileRecord (acc : PlainObject) (species : val) : PlainObject :=
  assign acc (idKey species) species.

(** The names under which every plain object inherits a property. *)
Definition objectPrototypeNames : list string :=
  "__proto__" :: map fst objectPrototypeMembers.

(** [v] is a record of the dataset with the identifier [id]. *)
Definition recordOf (coreSpecies : list val) (id : string) (v : val) : Prop :=
  v ∈ coreSpecies /\ idKey v = id.

(** [coreSpeciesById] inherits nothing under the name [id]: [id] names no
    property of [Object.prototype], and no record is filed under
    [__proto__], which would replace the prototype. *)
Definition namesNoInherited (coreSpecies : list val) (id : string) : Prop :=
  (id ∉ objectPrototypeNames) /\ ("__proto__" ∉ map idKey coreSpecies).

(** A record filed under [__proto__] has no own property of that name. *)
Definition noOwnProto (species : val) : Prop :=
  forall fields, species = VObj fields -> own_field "__proto__" fields = None.

(** A record with the identifier [__proto__] that also has an own property
    of that name, as [JSON.parse] creates it. *)
Definition protoRecord : val :=
  VObj [("id", VStr "__proto__"); ("__proto__", VStr "shadow")].

(** What [validateCoreSpecies] has checked of a record it accepts. *)
Definition hasRequiredFields (species : val) : Prop :=
  truthy (prop species "id") = true /\
  truthy (prop species "name") = true /\
  truthy (prop species "endangerment") = true /\
  truthy (prop species "bullets") = true /\
  truthy (prop species "photoURLs") = true /\
  truthy (prop (prop species "bullets") "habitat") = true /\
  truthy (prop (prop species "bullets") "diet") = true /\
  truthy (prop (prop species "bullets") "personality") = true /\
  lengthOf (prop species "photoURLs") <> VNum 0.

(** The number of [toggleTTS] actions since the last [reset]. *)
Definition togglesSinceReset (actions : list UIAction) : nat :=
  foldl (fun n action =>
           match action with
           | toggleTTS => S n
           | reset => 0%nat
           | setTutorialComplete _ => n
           end) 0%nat actions.

(** The argument of the last [setTutorialComplete] since the last [reset],
    [false] when there was none. *)
Definition lastTutorialFlag (actions : list UIAction) : val :=
  foldl (fun flag action =>
           match action with
           | toggleTTS => flag
           | reset => VBool false
           | setTutorialComplete complete => complete
           end) (VBool false) actions.

(** A stand-in for [isSpeciesArray]: an array whose elements have a string
    identifier. *)
Definition arrayOfIds (v : val) : bool :=
  match v with
  | VArr items => forallb hasStringId items
  | _ => false
  end.

(* ===================================================================== *)
(** ** Store failures in [get] and [set] *)
(* ===================================================================== *)

Lemma get_total E k w : exists v w', get E k w = (Ok v, w').
Proof.
  run. destruct (idb_fault E (idb_calls w)); [eauto|].
  destruct (store w !! getCacheKey k) as [entry|]; [|eauto]. run.
  destruct (clock E (clock_reads w) >? expiresAt entry); run;
    destruct (idb_fault E (S (idb_calls w))); eauto.
Qed.

Lemma get_absorbs E k w n e :
  made_call w (snd (get E k w)) n -> idb_fault E n = Some e ->
  fst (get E k w) = Ok VUndef.
Proof.
  unfold made_call. run.
  destruct (idb_fault E (idb_calls w)) eqn:F0; [reflexivity|].
  destruct (store w !! getCacheKey k) as [entry|]; run.
  - destruct (clock E (clock_reads w) >? expiresAt entry); run;
      destruct (idb_fault E (S (idb_calls w))) eqn:F1; run; try reflexivity;
      intros Hn Hf; assert (n = idb_calls w \/ n = S (idb_calls w)) as [->| ->] by lia;
      congruence.
  - intros Hn Hf. assert (n = idb_calls w) as -> by lia. congruence.
Qed.

Lemma set_calls_once E k v ttl w :
  idb_calls (snd (set E k v ttl w)) = S (idb_calls w).
Proof. run. destruct (idb_fault E (idb_calls w)); reflexivity. Qed.

Lemma set_propagates E k v ttl w n e :
  made_call w (snd (set E k v ttl w)) n -> idb_fault E n = Some e ->
  fst (set E k v ttl w) = Err e.
Proof.
  unfold made_call. rewrite set_calls_once. intros Hn Hf.
  assert (n = idb_calls w) as -> by lia.
  run. rewrite Hf. reflexivity.
Qed.

(** Claim C4. Whatever the store does, [get] returns normally; a store call
    of [get] that fails makes it return [undefined]; a store call of [set]
    that fails makes [set] fail with that same error. *)
Theorem get_absorbs_set_propagates E k v ttl w :
  (exists r w', get E k w = (Ok r, w')) /\
  (forall n e, made_call w (snd (get E k w)) n -> idb_fault E n = Some e ->
               fst (get E k w) = Ok VUndef) /\
  (forall n e, made_call w (snd (set E k v ttl w)) n -> idb_fault E n = Some e ->
               fst (set E k v ttl w) = Err e).
Proof.
  split; [apply get_total|].
  split; intros n e; [apply get_absorbs | apply set_propagates].
Qed.

Lemma get_absorbs_set_propagates_witness :
  fst (get brokenStoreEnv "k" emptyWorld) = Ok VUndef /\
  fst (set brokenStoreEnv "k" (VStr "v") 1000 emptyWorld) = Err storeError.
Proof.
  destruct (get_absorbs_set_propagates brokenStoreEnv "k" (VStr "v") 1000 emptyWorld)
    as (_ & Hget & Hset).
  split.
  - apply (Hget 0%nat storeError); [unfold made_call; simpl; lia | reflexivity].
  - apply (Hset 0%nat storeError); [unfold made_call; simpl; lia | reflexivity].
Defined.

(* ===================================================================== *)
(** ** [get] and [set] on a store that works *)
(* ===================================================================== *)

Lemma prefix_append p s : String.prefix p (p +:+ s) = true.
Proof.
  induction p as [|c p IH]; simpl.
  - destruct s; reflexivity.
  - destruct (ascii_dec c c); [exact IH | contradiction].
Qed.

Lemma isCacheKey_getCacheKey k : isCacheKey (getCacheKey k) = true.
Proof. apply prefix_append. Qed.

Lemma set_healthy E k v ttl w :
  healthy E ->
  set E k v ttl w =
    (Ok tt,
     mkWorld (<[getCacheKey k :=
                  mkEntry v (clock E (clock_reads w) + ttl) (clock E (clock_reads w))]>
                (store w))
             (S (clock_reads w)) (S (idb_calls w)) (fetch_calls w) (timers w)).
Proof. intros H. run. rewrite H. reflexivity. Qed.

Lemma get_miss E k w :
  store w !! getCacheKey k = None ->
  fst (get E k w) = Ok VUndef /\ store (snd (get E k w)) = store w
  /\ clock_reads (snd (get E k w)) = clock_reads w
  /\ fetch_calls (snd (get E k w)) = fetch_calls w.
Proof.
  intros Hk. run. destruct (idb_fault E (idb_calls w)); [auto|].
  rewrite Hk. auto.
Qed.

Lemma get_live E k w entry :
  healthy E ->
  store w !! getCacheKey k = Some entry ->
  clock E (clock_reads w) <= expiresAt entry ->
  get E k w =
    (Ok (value entry),
     mkWorld (<[getCacheKey k :=
                  mkEntry (value entry) (expiresAt entry) (clock E (clock_reads w))]>
                (store w))
             (S (clock_reads w)) (S (S (idb_calls w))) (fetch_calls w) (timers w)).
Proof.
  intros H Hk Hnow. run. rewrite H, Hk. run.
  destruct (Z.gtb_spec (clock E (clock_reads w)) (expiresAt entry)); [lia|].
  run. rewrite H. reflexivity.
Qed.

Lemma get_expired E k w entry :
  healthy E ->
  store w !! getCacheKey k = Some entry ->
  expiresAt entry < clock E (clock_reads w) ->
  get E k w =
    (Ok VUndef,
     mkWorld (delete (getCacheKey k) (store w))
             (S (clock_reads w)) (S (S (idb_calls w))) (fetch_calls w) (timers w)).
Proof.
  intros H Hk Hnow. run. rewrite H, Hk. run.
  destruct (Z.gtb_spec (clock E (clock_reads w)) (expiresAt entry)); [|lia].
  run. rewrite H. reflexivity.
Qed.

Lemma set_get_within E k v ttl w :
  healthy E ->
  clock E (S (clock_reads w)) - clock E (clock_reads w) <= ttl ->
  fst (get E k (snd (set E k v ttl w))) = Ok v.
Proof.
  intros H Hnow. rewrite set_healthy by assumption. cbn [snd].
  rewrite (get_live E k _ (mkEntry v (clock E (clock_reads w) + ttl) (clock E (clock_reads w))));
    [reflexivity | assumption | cbn [store]; apply lookup_insert_eq |].
  cbn [clock_reads expiresAt]. lia.
Qed.

(** Claim C2. On a store that works, [set(k, v, ttl)] succeeds and a [get(k)]
    right behind it returns [v], when the time between the clock reading of
    [set] and that of [get] is less than [ttl]. (The proof does not use
    that [ttl] is positive.) *)
Theorem set_get_roundtrip E k v ttl w :
  healthy E ->
  0 < ttl ->
  clock E (S (clock_reads w)) - clock E (clock_reads w) < ttl ->
  fst (set E k v ttl w) = Ok tt /\
  fst (get E k (snd (set E k v ttl w))) = Ok v.
Proof.
  intros H _ Hnow. split.
  - rewrite set_healthy by assumption. reflexivity.
  - apply set_get_within; [assumption | lia].
Qed.

Lemma set_get_roundtrip_witness :
  fst (set offlineEnv "test-key" (VObj [("data", VStr "test-value"); ("number", VNum 42)])
           60000 emptyWorld) = Ok tt /\
  fst (get offlineEnv "test-key"
           (snd (set offlineEnv "test-key"
                     (VObj [("data", VStr "test-value"); ("number", VNum 42)])
                     60000 emptyWorld)))
  = Ok (VObj [("data", VStr "test-value"); ("number", VNum 42)]).
Proof.
  apply set_get_roundtrip; [intros n; reflexivity | lia | simpl; lia].
Defined.

(* ===================================================================== *)
(** ** Expired entries and [getStats] *)
(* ===================================================================== *)

Lemma countEntries_healthy E now st ks :
  healthy E ->
  forall expired valid w,
    store w = st ->
    countEntries E now ks expired valid w =
      (Ok ((expired + length (List.filter (expiredIn st now) ks))%nat,
           (valid + length (List.filter (liveIn st now) ks))%nat),
       mkWorld st (clock_reads w) (idb_calls w + length ks) (fetch_calls w) (timers w)).
Proof.
  intros H. induction ks as [|k ks IH]; intros expired valid w Hst; simpl.
  - unfold ret. rewrite !Nat.add_0_r. destruct w; simpl in *; subst; reflexivity.
  - run. rewrite H. unfold expiredIn at 1, liveIn at 1. rewrite Hst.
    destruct (st !! k) as [entry|]; simpl.
    + destruct (now >? expiresAt entry); simpl; rewrite IH by reflexivity; simpl;
        repeat f_equal; lia.
    + rewrite IH by reflexivity; simpl; repeat f_equal; lia.
Qed.

Lemma filter_Permutation {A} (f : A -> bool) (l l' : list A) :
  l ≡ₚ l' -> List.filter f l ≡ₚ List.filter f l'.
Proof.
  induction 1 as [|x l l' _ IH|x y l|l l' l'' _ IH1 _ IH2]; simpl.
  - reflexivity.
  - destruct (f x); [constructor|]; exact IH.
  - destruct (f x), (f y); try reflexivity. apply perm_swap.
  - etransitivity; eassumption.
Qed.

(** In whatever order they are listed, the keys are the keys of the
    database. *)
Lemma insertKey_Permutation rank k listed : insertKey rank k listed ≡ₚ k :: listed.
Proof.
  induction listed as [|k' listed IH]; simpl; [reflexivity|].
  destruct (keyBefore rank k k'); [reflexivity|].
  rewrite IH. apply perm_swap.
Qed.

Lemma listKeys_Permutation rank st : listKeys rank st ≡ₚ (map_to_list st).*1.
Proof.
  unfold listKeys. induction ((map_to_list st).*1) as [|k ks IH]; simpl; [reflexivity|].
  rewrite insertKey_Permutation, IH. reflexivity.
Qed.

Lemma listedCacheKeys_Permutation E w : listedCacheKeys E w ≡ₚ cacheKeysOf (store w).
Proof. apply filter_Permutation, listKeys_Permutation. Qed.

Lemma listedCacheKeys_length E w :
  length (listedCacheKeys E w) = length (cacheKeysOf (store w)).
Proof. apply Permutation_length, listedCacheKeys_Permutation. Qed.

Lemma filter_listed_length E w (f : string -> bool) :
  length (List.filter f (listedCacheKeys E w))
  = length (List.filter f (cacheKeysOf (store w))).
Proof. apply Permutation_length, filter_Permutation, listedCacheKeys_Permutation. Qed.

Lemma idbKeys_healthy E w :
  healthy E ->
  idbKeys E w = (Ok (listKeys (key_rank E (idb_calls w)) (store w)),
                 mkWorld (store w) (clock_reads w) (S (idb_calls w)) (fetch_calls w) (timers w)).
Proof. intros H. run. rewrite H. reflexivity. Qed.

Lemma getStats_healthy E w :
  healthy E ->
  fst (getStats E w) = Ok (statsOf (store w) (clock E (clock_reads w))).
Proof.
  intros H. unfold getStats, try_catch, bind at 1. rewrite idbKeys_healthy by assumption.
  fold (listedCacheKeys E w). unfold bind, dateNow, ret. cbn [store clock_reads].
  rewrite (countEntries_healthy E _ (store w)) by (assumption || reflexivity).
  cbn [fst snd]. unfold statsOf.
  rewrite listedCacheKeys_length, !filter_listed_length. reflexivity.
Qed.

Lemma cacheKeysOf_delete st k entry :
  st !! k = Some entry ->
  isCacheKey k = true ->
  k :: cacheKeysOf (delete k st) ≡ₚ cacheKeysOf st.
Proof.
  intros Hk Hc. unfold cacheKeysOf.
  pose proof (map_to_list_delete st k entry Hk) as Hp.
  apply (fmap_Permutation fst), (filter_Permutation isCacheKey) in Hp.
  simpl in Hp. rewrite Hc in Hp. exact Hp.
Qed.

Lemma cacheKeysOf_NoDup st : NoDup (cacheKeysOf st).
Proof.
  unfold cacheKeysOf. apply NoDup_ListNoDup, List.NoDup_filter, NoDup_ListNoDup.
  apply NoDup_fst_map_to_list.
Qed.

(** Claim C3. On a store that works, [get] of a key whose entry expired
    before the time [get] reads returns [undefined] and deletes the entry;
    [getStats] then reports the database without it: the key is not among
    the keys it counts and the total is one less than before. *)
Theorem get_purges_expired E k w entry :
  healthy E ->
  store w !! getCacheKey k = Some entry ->
  expiresAt entry < clock E (clock_reads w) ->
  let w' := snd (get E k w) in
  fst (get E k w) = Ok VUndef /\
  store w' = delete (getCacheKey k) (store w) /\
  store w' !! getCacheKey k = None /\
  fst (getStats E w') = Ok (statsOf (store w') (clock E (clock_reads w'))) /\
  ~ In (getCacheKey k) (cacheKeysOf (store w')) /\
  S (totalEntries (statsOf (store w') (clock E (clock_reads w')))) =
    length (cacheKeysOf (store w)).
Proof.
  intros H Hk Hexp w'. subst w'.
  rewrite (get_expired E k w entry) by assumption. cbn [fst snd store clock_reads].
  pose proof (cacheKeysOf_delete (store w) (getCacheKey k) entry Hk
                (isCacheKey_getCacheKey k)) as Hp.
  repeat split.
  - apply lookup_delete_eq.
  - apply getStats_healthy. assumption.
  - intros Hin. pose proof (cacheKeysOf_NoDup (store w)) as Hnd.
    rewrite <- Hp in Hnd. apply NoDup_cons in Hnd as [Hnotin _].
    apply Hnotin, list_elem_of_In, Hin.
  - cbn [totalEntries statsOf]. rewrite <- Hp. reflexivity.
Qed.

Lemma get_purges_expired_witness :
  fst (get offlineEnv "cleanup-test" staleWorld) = Ok VUndef /\
  store (snd (get offlineEnv "cleanup-test" staleWorld)) !! getCacheKey "cleanup-test" = None /\
  totalEntries (statsOf (store (snd (get offlineEnv "cleanup-test" staleWorld))) 1101) = 0%nat.
Proof.
  destruct (get_purges_expired offlineEnv "cleanup-test" staleWorld staleEntry)
    as (Hr & _ & Hnone & _ & _ & Htotal).
  - intros n. reflexivity.
  - reflexivity.
  - simpl. lia.
  - split; [exact Hr|]. split; [exact Hnone|]. vm_compute in Htotal |- *. lia.
Defined.

(* ===================================================================== *)
(** ** Store failures in [evictLRUIfNeeded] and [clear] *)
(* ===================================================================== *)

Section Surfaces.

Variable E : env.

Lemma surfaces_ret {A} (a : A) : surfaces E (ret a).
Proof. intros w. unfold made_call. simpl. split; [lia|]. intros; lia. Qed.

Lemma surfaces_dateNow : surfaces E (dateNow E).
Proof. intros w. unfold made_call. simpl. split; [lia|]. intros; lia. Qed.

Lemma surfaces_idb {A} (action : gmap string CacheEntry -> A * gmap string CacheEntry) :
  surfaces E (idb E action).
Proof.
  intros w. unfold made_call, idb.
  destruct (idb_fault E (idb_calls w)) eqn:F.
  - simpl. split; [lia|]. intros n e' Hn Hf.
    assert (n = idb_calls w) as -> by lia. congruence.
  - destruct (action (store w)). simpl. split; [lia|]. intros n e' Hn Hf.
    assert (n = idb_calls w) as -> by lia. congruence.
Qed.

Lemma surfaces_idbKeys : surfaces E (idbKeys E).
Proof.
  intros w. exact (surfaces_idb (fun st => (listKeys (key_rank E (idb_calls w)) st, st)) w).
Qed.

Lemma surfaces_bind {A B} (m : M world A) (k : A -> M world B) :
  surfaces E m -> (forall a, surfaces E (k a)) -> surfaces E (bind m k).
Proof.
  intros Hm Hk w. unfold bind. destruct (Hm w) as [Hle Hf].
  destruct (m w) as [[a|e] w1] eqn:Hmw; cbn [fst snd] in *.
  - destruct (Hk a w1) as [Hle' Hf'].
    split; [lia|]. intros n e' Hn Hfault.
    destruct (Nat.lt_ge_cases n (idb_calls w1)) as [Hlt|Hge].
    + assert (made_call w w1 n) as Hmade by (unfold made_call in *; lia).
      specialize (Hf n e' Hmade Hfault). discriminate.
    + apply (Hf' n e'); [unfold made_call in *; lia | assumption].
  - split; [lia|]. intros n e' Hn Hfault.
    specialize (Hf n e' Hn Hfault). congruence.
Qed.

Lemma surfaces_rethrow {A} (m : M world A) :
  surfaces E m -> surfaces E (try_catch m (fun error => throw error)).
Proof.
  intros Hm w. unfold try_catch, throw. specialize (Hm w).
  destruct (m w) as [[a|e] w1]; exact Hm.
Qed.

Lemma surfaces_forOf {A} (xs : list A) (body : A -> M world unit) :
  (forall x, surfaces E (body x)) -> surfaces E (forOf xs body).
Proof.
  intros Hbody. induction xs as [|x xs IH]; simpl.
  - apply surfaces_ret.
  - apply surfaces_bind; [apply Hbody | intros _; exact IH].
Qed.

Lemma surfaces_collectEntries cacheKeys :
  forall entries, surfaces E (collectEntries E cacheKeys entries).
Proof.
  induction cacheKeys as [|k ks IH]; intros entries; simpl.
  - apply surfaces_ret.
  - apply surfaces_bind; [apply surfaces_idb|]. intros [entry|]; [|apply IH].
    apply surfaces_bind; [apply surfaces_dateNow|]. intros now.
    destruct (now <=? expiresAt entry); [apply IH|].
    apply surfaces_bind; [apply surfaces_idb | intros _; apply IH].
Qed.

Lemma surfaces_evictLRUIfNeeded maxEntries : surfaces E (evictLRUIfNeeded E maxEntries).
Proof.
  apply surfaces_rethrow, surfaces_bind; [apply surfaces_idbKeys|]. intros allKeys.
  cbv zeta.
  destruct (num_leb _ maxEntries); [apply surfaces_ret|].
  apply surfaces_bind; [apply surfaces_collectEntries|]. intros entries.
  destruct (num_gtb _ _); [|apply surfaces_ret].
  apply surfaces_forOf. intros k. apply surfaces_idb.
Qed.

Lemma surfaces_clear : surfaces E (clear E).
Proof.
  apply surfaces_rethrow, surfaces_bind; [apply surfaces_idbKeys|]. intros allKeys.
  apply surfaces_forOf. intros k. apply surfaces_idb.
Qed.

End Surfaces.

(** Claim C10. A store call that fails during [evictLRUIfNeeded] or during
    [clear] makes the operation fail with that same error. *)
Theorem eviction_and_clear_surface_failures E maxEntries w :
  (forall n e, made_call w (snd (evictLRUIfNeeded E maxEntries w)) n ->
               idb_fault E n = Some e ->
               fst (evictLRUIfNeeded E maxEntries w) = Err e) /\
  (forall n e, made_call w (snd (clear E w)) n ->
               idb_fault E n = Some e ->
               fst (clear E w) = Err e).
Proof.
  split.
  - apply (surfaces_evictLRUIfNeeded E maxEntries w).
  - apply (surfaces_clear E w).
Qed.

Lemma eviction_and_clear_surface_failures_witness :
  fst (evictLRUIfNeeded brokenStoreEnv (ofZ 3) emptyWorld) = Err storeError /\
  fst (clear brokenStoreEnv emptyWorld) = Err storeError.
Proof.
  destruct (eviction_and_clear_surface_failures brokenStoreEnv (ofZ 3) emptyWorld) as [He Hc].
  split.
  - apply (He 0%nat storeError); [unfold made_call; simpl; lia | reflexivity].
  - apply (Hc 0%nat storeError); [unfold made_call; simpl; lia | reflexivity].
Defined.

(* ===================================================================== *)
(** ** Numbers *)
(* ===================================================================== *)

Lemma num_leb_ofZ a b : num_leb (ofZ a) (ofZ b) = (a <=? b).
Proof. unfold num_leb, ofZ, Qle_bool. simpl. rewrite !Z.mul_1_r. reflexivity. Qed.

Lemma num_gtb_ofZ a b : num_gtb (ofZ a) (ofZ b) = (a >? b).
Proof.
  unfold num_gtb, ofZ, Qle_bool. simpl. rewrite !Z.mul_1_r.
  rewrite Z.gtb_ltb, Z.ltb_antisym. reflexivity.
Qed.

Lemma num_eqb_ofZ a b : num_eqb (ofZ a) (ofZ b) = (a =? b).
Proof. unfold num_eqb, ofZ, Qeq_bool. simpl. rewrite !Z.mul_1_r. reflexivity. Qed.


Lemma isInteger_Finite x m : isInteger x m -> exists q, x = Finite q /\ Qeq q (inject_Z m).
Proof.
  unfold isInteger, ofZ. destruct x as [q| | |]; try discriminate.
  intros Hq. exists q. split; [reflexivity | apply Qeq_bool_eq, Hq].
Qed.

Lemma isInteger_leb x m a : isInteger x m -> num_leb (ofZ a) x = (a <=? m).
Proof.
  intros Hx. destruct (isInteger_Finite x m Hx) as (q & -> & Hq).
  rewrite <- num_leb_ofZ. unfold num_leb, ofZ. rewrite Hq. reflexivity.
Qed.

Lemma isInteger_eqb x m a : isInteger x m -> num_eqb (ofZ a) x = (a =? m).
Proof.
  intros Hx. destruct (isInteger_Finite x m Hx) as (q & -> & Hq).
  rewrite <- num_eqb_ofZ. unfold num_eqb, ofZ. rewrite Hq. reflexivity.
Qed.

Lemma isInteger_loopTests x m :
  isInteger x m -> loopTests x = Some (S (Z.to_nat (m + 1))).
Proof.
  intros Hx. destruct (isInteger_Finite x m Hx) as (q & -> & Hq).
  unfold loopTests. rewrite Hq, Qfloor_Z. reflexivity.
Qed.

(** A value of [attempt] that passes the loop test is at most the integer
    part of a finite limit. *)
Lemma num_leb_Finite a q : num_leb (ofZ a) (Finite q) = true -> a <= Qfloor q.
Proof.
  unfold num_leb, ofZ. intros Hle. apply Qle_bool_imp_le, Qfloor_resp_le in Hle.
  rewrite Qfloor_Z in Hle. exact Hle.
Qed.

Lemma sliceEnd_le len x : (sliceEnd len x <= len)%nat.
Proof.
  unfold sliceEnd. destruct x as [q| | |]; try lia.
  cbv zeta. destruct (truncate q <? 0) eqn:Hneg; [apply Z.ltb_lt in Hneg|]; lia.
Qed.

Lemma evictCount_le live maxEntries : (evictCount live maxEntries <= live)%nat.
Proof.
  unfold evictCount. cbv zeta. destruct (num_gtb _ _); [apply sliceEnd_le | lia].
Qed.

Lemma inject_Z_minus a b : Qeq (Qminus (inject_Z a) (inject_Z b)) (inject_Z (a - b)).
Proof.
  unfold Qminus. rewrite <- inject_Z_opp, <- inject_Z_plus. reflexivity.
Qed.




(** With a limit of at least one, not every candidate is evicted. *)
Lemma evictCount_lt live maxEntries :
  num_leb (ofZ 1) maxEntries = true ->
  (0 < live)%nat ->
  (evictCount live maxEntries < live)%nat.
Proof.
  intros Hone Hlive. unfold evictCount. cbv zeta.
  destruct maxEntries as [q| | |]; try discriminate; cbn [num_sub ofZ num_gtb]; [|exact Hlive].
  destruct (Qle_bool (Qminus (inject_Z (Z.of_nat live)) q) (inject_Z 0)) eqn:Hpos;
    cbn [negb]; [exact Hlive|].
  unfold sliceEnd. cbv zeta.
  assert (Qle (inject_Z 0) (Qminus (inject_Z (Z.of_nat live)) q)) as Hnonneg.
  { apply Qlt_le_weak, Qnot_le_lt. intros Hle. apply Qle_bool_iff in Hle. congruence. }
  unfold truncate. rewrite (proj2 (Qle_bool_iff _ _) Hnonneg).
  assert (Qfloor (Qminus (inject_Z (Z.of_nat live)) q) <= Z.of_nat live - 1) as Hfloor.
  { rewrite <- (Qfloor_Z (Z.of_nat live - 1)). apply Qfloor_resp_le.
    rewrite <- inject_Z_minus. unfold num_leb, ofZ in Hone. apply Qle_bool_imp_le in Hone.
    unfold Qminus. apply Qplus_le_r, Qopp_le_compat. exact Hone. }
  assert (0 <= Qfloor (Qminus (inject_Z (Z.of_nat live)) q)) as Hfloor0.
  { rewrite <- (Qfloor_Z 0). apply Qfloor_resp_le. exact Hnonneg. }
  destruct (Z.ltb_spec (Qfloor (Qminus (inject_Z (Z.of_nat live)) q)) 0); lia.
Qed.

Lemma Qfloor_plus_Z n x : Qfloor (Qplus (inject_Z n) x) = n + Qfloor x.
Proof.
  destruct x as [a d]. unfold Qfloor, Qplus, inject_Z. cbn [Qnum Qden].
  rewrite Z.mul_1_r, Pos.mul_1_l. apply Z.div_add_l. discriminate.
Qed.

(** Within the limit, nothing is evicted. *)
Lemma evictCount_within live maxEntries :
  num_leb (ofZ (Z.of_nat live)) maxEntries = true ->
  evictCount live maxEntries = 0%nat.
Proof.
  intros Hle. unfold evictCount. cbv zeta.
  destruct maxEntries as [q| | |]; try discriminate; [|reflexivity].
  unfold num_leb, ofZ in Hle. apply Qle_bool_imp_le in Hle.
  unfold num_sub, num_gtb, ofZ.
  assert (Qle_bool (Qminus (inject_Z (Z.of_nat live)) q) (inject_Z 0) = true) as ->;
    [|reflexivity].
  apply Qle_bool_iff. change (inject_Z 0) with 0%Q. lra.
Qed.

(** What stays of [live] candidates when the finite limit [q] is not
    negative and below [live]: the limit rounded up. *)
Lemma evictCount_ceiling live q :
  Qle_bool (inject_Z 0) q = true ->
  num_leb (ofZ (Z.of_nat live)) (Finite q) = false ->
  Z.of_nat live - Z.of_nat (evictCount live (Finite q)) = Qceiling q.
Proof.
  intros Hq Hover. unfold num_leb, ofZ in Hover.
  apply Qle_bool_imp_le in Hq.
  assert (Qlt q (inject_Z (Z.of_nat live))) as Hlt.
  { apply Qnot_le_lt. intros Hle. apply Qle_bool_iff in Hle. congruence. }
  clear Hover.
  unfold evictCount, num_sub, num_gtb, ofZ, sliceEnd, truncate. cbv zeta.
  assert (Qle_bool (Qminus (inject_Z (Z.of_nat live)) q) (inject_Z 0) = false) as ->.
  { destruct (Qle_bool (Qminus (inject_Z (Z.of_nat live)) q) (inject_Z 0)) eqn:Hle;
      [|reflexivity].
    apply Qle_bool_imp_le in Hle. exfalso. change (inject_Z 0) with 0%Q in *. lra. }
  assert (Qle_bool (inject_Z 0) (Qminus (inject_Z (Z.of_nat live)) q) = true) as ->.
  { apply Qle_bool_iff. change (inject_Z 0) with 0%Q in *. lra. }
  cbn [negb]. unfold Qminus. rewrite Qfloor_plus_Z.
  rewrite <- (Z.opp_involutive (Qfloor (- q))). change (- Qfloor (- q)) with (Qceiling q).
  assert (0 <= Qceiling q) as Hc.
  { rewrite <- (Qceiling_Z 0). apply Qceiling_resp_le. exact Hq. }
  assert (Qceiling q <= Z.of_nat live) as Hc'.
  { rewrite <- (Qceiling_Z (Z.of_nat live)). apply Qceiling_resp_le, Qlt_le_weak, Hlt. }
  destruct (Z.ltb_spec (Z.of_nat live + - Qceiling q) 0); lia.
Qed.

(* ===================================================================== *)
(** ** [withBackoff] *)
(* ===================================================================== *)


Section BackoffLog.

Context {S A : Type} `{Timer S}.
Variable operation : M S A.
Variable maxRetries : number.
Variables baseDelayMs maxDelayMs : Z.

Lemma logged_run s log :
  logged operation (s, log) =
    (fst (operation s), (snd (operation s), log ++ [Invoked (fst (operation s))])).
Proof. unfold logged. cbn [fst snd]. destruct (operation s); reflexivity. Qed.

(** The log of the loop when [maxRetries] is the integer [retries]. *)
Lemma backoffLoop_log retries fuel :
  isInteger maxRetries retries ->
  forall attempt lastError s log,
    0 <= attempt <= retries ->
    (Z.to_nat (retries - attempt) < fuel)%nat ->
    exists failures final,
      snd (snd (backoffLoop (logged operation) maxRetries baseDelayMs maxDelayMs
                            fuel attempt lastError (s, log)))
      = log ++ retryLog baseDelayMs maxDelayMs attempt failures final /\
      attempt + Z.of_nat (length failures) <= retries /\
      match final with
      | Ok v =>
          fst (backoffLoop (logged operation) maxRetries baseDelayMs maxDelayMs
                           fuel attempt lastError (s, log)) = Ok v
      | Err e =>
          attempt + Z.of_nat (length failures) = retries /\
          fst (backoffLoop (logged operation) maxRetries baseDelayMs maxDelayMs
                           fuel attempt lastError (s, log)) = Err (toError e)
      end.
Proof.
  intros Hint.
  induction fuel as [|fuel IH]; intros attempt lastError s log Hattempt Hfuel; [lia|].
  cbn [backoffLoop].
  rewrite (isInteger_leb _ _ attempt Hint), (isInteger_eqb _ _ attempt Hint).
  destruct (Z.leb_spec attempt retries) as [_|]; [|lia].
  unfold try_catch. rewrite logged_run.
  destruct (operation s) as [[v|e] s']; cbn [fst snd].
  - exists [], (Ok v). cbn [fst snd retryLog length]. split; [reflexivity|]. split; [lia|reflexivity].
  - destruct (Z.eqb_spec attempt retries) as [Heq|Hne].
    + exists [], (Err e). cbn [fst snd retryLog length throw].
      split; [reflexivity|]. split; [lia|]. split; [lia|reflexivity].
    + unfold bind, sleep.
      change (setTimeout (Z.min (baseDelayMs * 2 ^ attempt) maxDelayMs)
                         (s', log ++ [Invoked (Err e)]))
        with (setTimeout (Z.min (baseDelayMs * 2 ^ attempt) maxDelayMs) s',
              (log ++ [@Invoked A (Err e)])
                ++ [Waited (Z.min (baseDelayMs * 2 ^ attempt) maxDelayMs)]).
      destruct (IH (attempt + 1) (toError e) (setTimeout (Z.min (baseDelayMs * 2 ^ attempt) maxDelayMs) s')
                   ((log ++ [Invoked (Err e)]) ++ [Waited (Z.min (baseDelayMs * 2 ^ attempt) maxDelayMs)]))
        as (failures & final & Hlog & Hlen & Hres); [lia | lia |].
      exists (e :: failures), final.
      split; [|split].
      * rewrite Hlog. cbn [retryLog]. rewrite <- !app_assoc. reflexivity.
      * cbn [length]. lia.
      * destruct final; [exact Hres|]. destruct Hres as [Hlen' Hres].
        split; [cbn [length]; lia | exact Hres].
Qed.


(** When [maxRetries] bounds the loop, the loop ends before the fuel
    [loopTests] gives runs out: any larger fuel gives the same run. *)
Lemma backoffLoop_fuel tests fuel1 :
  loopTests maxRetries = Some tests ->
  forall fuel2 attempt lastError s,
    0 <= attempt ->
    (tests <= fuel1 + Z.to_nat attempt)%nat ->
    (tests <= fuel2 + Z.to_nat attempt)%nat ->
    backoffLoop operation maxRetries baseDelayMs maxDelayMs fuel1 attempt lastError s
    = backoffLoop operation maxRetries baseDelayMs maxDelayMs fuel2 attempt lastError s.
Proof.
  intros Htests.
  assert (forall attempt, 0 <= attempt -> (tests <= Z.to_nat attempt)%nat ->
                          num_leb (ofZ attempt) maxRetries = false) as Hpast.
  { intros attempt H0 Hle. destruct (num_leb (ofZ attempt) maxRetries) eqn:Htest; [|reflexivity].
    exfalso. destruct maxRetries as [q| | |]; try discriminate.
    apply num_leb_Finite in Htest. cbn [loopTests] in Htests. injection Htests as <-. lia. }
  induction fuel1 as [|fuel1 IH]; intros fuel2 attempt lastError s H0 H1 H2.
  - destruct fuel2 as [|fuel2]; [reflexivity|]. cbn [backoffLoop].
    rewrite Hpast by (assumption || lia). reflexivity.
  - destruct fuel2 as [|fuel2]; cbn [backoffLoop].
    + rewrite Hpast by (assumption || lia). reflexivity.
    + destruct (num_leb (ofZ attempt) maxRetries); [|reflexivity].
      unfold try_catch. destruct (operation s) as [[v|e] s']; [reflexivity|].
      destruct (num_eqb (ofZ attempt) maxRetries); [reflexivity|].
      unfold bind, sleep. apply IH; lia.
Qed.

End BackoffLog.

Lemma invocations_app {A} (log log' : list (event A)) :
  invocations (log ++ log') = (invocations log + invocations log')%nat.
Proof.
  induction log as [|[outcome|delay] log IH]; cbn [app invocations]; [reflexivity| |exact IH].
  rewrite IH. reflexivity.
Qed.

(** With [maxRetries = Infinity] every value of [attempt] passes the test
    of the loop and none equals the limit: the loop goes on for as long as
    the operation fails, and in [backoffLoop] it is only the fuel that ends
    it. An operation that never succeeds is invoked once for each unit of
    fuel, however much there is: the source never returns. *)
Lemma backoffLoop_Infinity_retries {S A} `{Timer S} (operation : M S A)
    baseDelayMs maxDelayMs :
  (forall s, exists e s', operation s = (Err e, s')) ->
  forall fuel attempt lastError s log,
    invocations (snd (snd (backoffLoop (logged operation) Infinity baseDelayMs maxDelayMs
                                       fuel attempt lastError (s, log))))
    = (invocations log + fuel)%nat.
Proof.
  intros Hfails. induction fuel as [|fuel IH]; intros attempt lastError s log;
    cbn [backoffLoop].
  - cbn [throw snd]. lia.
  - cbn [num_leb ofZ num_eqb]. unfold try_catch. rewrite logged_run.
    destruct (Hfails s) as (e & s' & Hrun). rewrite Hrun. cbn [fst snd].
    unfold bind, sleep.
    change (setTimeout (Z.min (baseDelayMs * 2 ^ attempt) maxDelayMs)
                       (s', log ++ [Invoked (Err e)]))
      with (setTimeout (Z.min (baseDelayMs * 2 ^ attempt) maxDelayMs) s',
            (log ++ [@Invoked A (Err e)])
              ++ [Waited (Z.min (baseDelayMs * 2 ^ attempt) maxDelayMs)]).
    rewrite IH, !invocations_app. cbn [invocations]. lia.
Qed.


(** It also fails for a [maxRetries] that is no integer. With
    [maxRetries = 0.5] the first attempt is the only one, [0 === 0.5] is
    false, and the loop waits once more before it gives up: there is a
    wait after the final failed attempt. *)
Example withBackoff_fractional_maxRetries :
  withBackoff (logged failsTwice) (mkOptions (Some oneHalf) None None)
              (ex_intro _ 2%nat eq_refl) ((0%nat, emptyWorld), [])
  = (Err (JsError "Error" "fail 1"),
     ((1%nat, mkWorld ∅ 0 0 0 [100]),
      [Invoked (Err (JsError "Error" "fail 1")); Waited 100])).
Proof. reflexivity. Qed.

(** With [maxRetries = NaN] no test of the loop passes: as for a negative
    limit, [undefined] is thrown. *)
Example withBackoff_NaN_maxRetries :
  withBackoff (logged failsTwice) (mkOptions (Some NaN) None None)
              (ex_intro _ 1%nat eq_refl) ((0%nat, emptyWorld), [])
  = (Err (Thrown VUndef), ((0%nat, emptyWorld), [])).
Proof. reflexivity. Qed.



(** An operation that fails twice and then succeeds, under [maxRetries = 2]:
    three invocations, waits of 100 and 200 ms between them, and the value
    of the third. *)
Example failsTwice_three_invocations :
  withBackoff (logged failsTwice) (mkOptions (Some (ofZ 2)) None None)
              (ex_intro _ 4%nat eq_refl) ((0%nat, emptyWorld), [])
  = (Ok (VStr "success"),
     ((3%nat, mkWorld ∅ 0 0 0 [100; 200]),
      [Invoked (Err (JsError "Error" "fail 1")); Waited 100;
       Invoked (Err (Thrown (VNum 42))); Waited 200;
       Invoked (Ok (VStr "success"))])).
Proof. reflexivity. Qed.

(** With [maxRetries = 1] the second failure is the last: it is thrown as
    an [Error] whose message is [String(42)], with no wait behind it. *)
Example failsTwice_gives_up :
  withBackoff (logged failsTwice) (mkOptions (Some (ofZ 1)) (Some 1000) (Some 500))
              (ex_intro _ 3%nat eq_refl) ((0%nat, emptyWorld), [])
  = (Err (JsError "Error" "42"),
     ((2%nat, mkWorld ∅ 0 0 0 [500]),
      [Invoked (Err (JsError "Error" "fail 1")); Waited 500;
       Invoked (Err (Thrown (VNum 42)))])).
Proof. reflexivity. Qed.

(* ===================================================================== *)
(** ** [evictLRUIfNeeded] on a store that works *)
(* ===================================================================== *)

Lemma foldr_delete_commute (m : gmap string CacheEntry) k ks :
  foldr delete (delete k m) ks = delete k (foldr delete m ks).
Proof.
  induction ks as [|k' ks IH]; simpl; [reflexivity|].
  rewrite IH. apply delete_delete.
Qed.

Lemma lookup_foldr_delete (m : gmap string CacheEntry) ks k :
  foldr delete m ks !! k = if decide (k ∈ ks) then None else m !! k.
Proof.
  induction ks as [|k' ks IH]; simpl.
  - destruct (decide (k ∈ [])) as [Hin|]; [inversion Hin | reflexivity].
  - destruct (decide (k = k')) as [->|Hne].
    + rewrite lookup_delete_eq. rewrite decide_True by left. reflexivity.
    + rewrite lookup_delete_ne by congruence. rewrite IH.
      destruct (decide (k ∈ ks)) as [Hin|Hnin].
      * rewrite decide_True by (right; exact Hin). reflexivity.
      * rewrite decide_False; [reflexivity|].
        intros Hin. apply elem_of_cons in Hin as [?|?]; contradiction.
Qed.

Lemma forOf_idbDel_healthy E ks :
  healthy E ->
  forall w, exists w',
    forOf ks (fun k => idbDel E k) w = (Ok tt, w') /\
    store w' = foldr delete (store w) ks.
Proof.
  intros H. induction ks as [|k ks IH]; intros w; simpl.
  - eexists. split; reflexivity.
  - run. rewrite H.
    destruct (IH (mkWorld (delete k (store w)) (clock_reads w) (S (idb_calls w))
                          (fetch_calls w) (timers w))) as (w' & Hrun & Hst).
    exists w'. split; [exact Hrun|]. rewrite Hst. cbn [store].
    apply foldr_delete_commute.
Qed.

Lemma elem_of_filter {A} (f : A -> bool) (l : list A) x :
  x ∈ List.filter f l <-> x ∈ l /\ f x = true.
Proof. rewrite !list_elem_of_In. apply filter_In. Qed.

Lemma elem_of_cacheKeysOf st k :
  k ∈ cacheKeysOf st <-> isCacheKey k = true /\ is_Some (st !! k).
Proof.
  unfold cacheKeysOf. rewrite elem_of_filter, list_elem_of_fmap. split.
  - intros [([k' e] & -> & Hin) Hc]. apply elem_of_map_to_list in Hin.
    split; [exact Hc | eauto].
  - intros [Hc [e He]]. split; [|exact Hc].
    exists (k, e). split; [reflexivity | apply elem_of_map_to_list, He].
Qed.

Lemma elem_of_expiredKeys st now k :
  k ∈ expiredKeys st now <->
  isCacheKey k = true /\ exists entry, st !! k = Some entry /\ expiresAt entry < now.
Proof.
  unfold expiredKeys. rewrite elem_of_filter, elem_of_cacheKeysOf. unfold expiredIn.
  split.
  - intros [[Hc [e He]] Hexp]. rewrite He in Hexp.
    split; [exact Hc|]. exists e. split; [exact He | lia].
  - intros [Hc (e & He & Hexp)]. rewrite He. split; [eauto | lia].
Qed.

Lemma elem_of_liveKeys st now k :
  k ∈ liveKeys st now <->
  isCacheKey k = true /\ exists entry, st !! k = Some entry /\ now <= expiresAt entry.
Proof.
  unfold liveKeys. rewrite elem_of_filter, elem_of_cacheKeysOf. unfold liveIn.
  split.
  - intros [[Hc [e He]] Hlive]. rewrite He in Hlive.
    split; [exact Hc|]. exists e. split; [exact He | lia].
  - intros [Hc (e & He & Hlive)]. rewrite He. split; [eauto | lia].
Qed.

Lemma candidatesOf_keys st now ks :
  map key (candidatesOf st now ks) = List.filter (liveIn st now) ks.
Proof.
  induction ks as [|k ks IH]; [reflexivity|].
  cbn [candidatesOf omap list_omap List.filter]. unfold liveIn at 1.
  destruct (st !! k) as [entry|]; [|exact IH].
  destruct (Z.leb_spec now (expiresAt entry)), (Z.gtb_spec now (expiresAt entry));
    try lia; simpl; [f_equal|]; exact IH.
Qed.

Lemma candidatesOf_lastAccess st now ks c :
  c ∈ candidatesOf st now ks ->
  exists entry, st !! key c = Some entry /\ c_lastAccess c = lastAccess entry.
Proof.
  unfold candidatesOf. rewrite list_elem_of_omap. intros (k & _ & Hc).
  destruct (st !! k) as [entry|] eqn:He; [|discriminate].
  destruct (now <=? expiresAt entry); [|discriminate].
  injection Hc as <-. simpl. eauto.
Qed.

Lemma insertByLastAccess_Permutation c l : insertByLastAccess c l ≡ₚ c :: l.
Proof.
  induction l as [|d l IH]; simpl; [reflexivity|].
  destruct (_ >? 0); [|reflexivity].
  rewrite IH. apply perm_swap.
Qed.

Lemma sortByLastAccess_Permutation l : sortByLastAccess l ≡ₚ l.
Proof.
  induction l as [|c l IH]; simpl; [reflexivity|].
  rewrite insertByLastAccess_Permutation, IH. reflexivity.
Qed.

Lemma insertByLastAccess_sorted c l :
  StronglySorted byLastAccess l -> StronglySorted byLastAccess (insertByLastAccess c l).
Proof.
  induction 1 as [|d l Hsorted IH Hd]; simpl.
  - repeat constructor.
  - destruct (Z.gtb_spec (c_lastAccess c - c_lastAccess d) 0) as [Hgt|Hle].
    + constructor; [exact IH|].
      rewrite insertByLastAccess_Permutation. constructor; [|exact Hd].
      unfold byLastAccess. lia.
    + constructor; [constructor; assumption|].
      constructor; [unfold byLastAccess; lia|].
      eapply Forall_impl; [exact Hd|]. unfold byLastAccess. intros; simpl in *; lia.
Qed.

Lemma sortByLastAccess_sorted l : StronglySorted byLastAccess (sortByLastAccess l).
Proof.
  induction l as [|c l IH]; simpl; [constructor | apply insertByLastAccess_sorted, IH].
Qed.

(** An entry that is no newer than any entry behind it stays in front: of
    entries with equal last access, the one listed first goes first. *)
Lemma sortByLastAccess_head a l :
  Forall (fun c => c_lastAccess a <= c_lastAccess c) l ->
  sortByLastAccess (a :: l) = a :: sortByLastAccess l.
Proof.
  intros Hall. change (sortByLastAccess (a :: l))
    with (insertByLastAccess a (sortByLastAccess l)).
  rewrite <- (sortByLastAccess_Permutation l) in Hall.
  destruct (sortByLastAccess l) as [|d rest]; [reflexivity|].
  simpl. apply Forall_cons in Hall as [Hd _].
  destruct (Z.gtb_spec (c_lastAccess a - c_lastAccess d) 0); [lia | reflexivity].
Qed.

(** *** The oldest candidates *)

Lemma oldestKeys_subseteq n live : oldestKeys n live ⊆ map key live.
Proof.
  unfold oldestKeys. intros k Hk.
  apply list_elem_of_fmap in Hk as (c & -> & Hc).
  apply list_elem_of_fmap. exists c. split; [reflexivity|].
  apply (subseteq_take n) in Hc.
  rewrite sortByLastAccess_Permutation in Hc. exact Hc.
Qed.

Lemma oldestKeys_NoDup n live : NoDup (map key live) -> NoDup (oldestKeys n live).
Proof.
  intros Hnd. unfold oldestKeys.
  eapply sublist_NoDup; [|apply fmap_sublist, sublist_take].
  rewrite sortByLastAccess_Permutation. exact Hnd.
Qed.

Lemma oldestKeys_length n live :
  (n <= length live)%nat -> length (oldestKeys n live) = n.
Proof.
  intros Hn. unfold oldestKeys.
  rewrite length_map, length_take, (Permutation_length (sortByLastAccess_Permutation _)).
  lia.
Qed.

(** No candidate that stays was accessed before one that goes. *)
Lemma oldestKeys_oldest n live k c' :
  k ∈ oldestKeys n live ->
  c' ∈ live ->
  key c' ∉ oldestKeys n live ->
  exists c, c ∈ live /\ key c = k /\ c_lastAccess c <= c_lastAccess c'.
Proof.
  unfold oldestKeys. intros Hk Hc' Hnot.
  apply list_elem_of_fmap in Hk as (c & -> & Hc).
  rewrite <- (sortByLastAccess_Permutation live) in Hc'.
  rewrite <- (take_drop n (sortByLastAccess live)) in Hc'.
  apply elem_of_app in Hc' as [Hc'|Hc'].
  { exfalso. apply Hnot. apply list_elem_of_fmap. eauto. }
  pose proof (sortByLastAccess_sorted live) as Hsorted.
  rewrite <- (take_drop n (sortByLastAccess live)) in Hsorted.
  pose proof (StronglySorted_app_1_elem_of _ _ _ c c' Hsorted Hc Hc') as Hle.
  exists c. split; [|split; [reflexivity | exact Hle]].
  apply (subseteq_take n) in Hc. rewrite sortByLastAccess_Permutation in Hc. exact Hc.
Qed.

(** *** The first loop, entry by entry *)

Lemma collectEntries_run E st :
  healthy E ->
  forall ks entries w,
    NoDup ks ->
    (forall k, k ∈ ks -> store w !! k = st !! k /\ is_Some (st !! k)) ->
    exists w',
      collectEntries E ks entries w
      = (Ok (entries ++ omap (candidateWhen st)
                             (zip ks (map (clock E) (seq (clock_reads w) (length ks))))),
         w') /\
      store w'
      = foldr delete (store w)
              (List.filter (expiredWhen st)
                           (zip ks (map (clock E) (seq (clock_reads w) (length ks))))).*1.
Proof.
  intros H. induction ks as [|k ks IH]; intros entries w Hnd Hagree.
  - simpl. rewrite app_nil_r. eexists. split; reflexivity.
  - apply NoDup_cons in Hnd as [Hk Hnd].
    destruct (Hagree k ltac:(left)) as [Hsame [entry Hentry]].
    cbn [collectEntries]. run. rewrite H, Hsame, Hentry. run.
    cbn [length seq map zip zip_with omap list_omap List.filter].
    unfold candidateWhen at 1, expiredWhen at 1, expiredIn. cbn [fst snd].
    rewrite Hentry.
    destruct (Z.leb_spec (clock E (clock_reads w)) (expiresAt entry)) as [Hlive|Hexp].
    + destruct (Z.gtb_spec (clock E (clock_reads w)) (expiresAt entry)); [lia|].
      edestruct (IH (entries ++ [mkCandidate k (lastAccess entry) (expiresAt entry)])
                   (mkWorld (store w) (S (clock_reads w)) (S (idb_calls w))
                            (fetch_calls w) (timers w)))
        as (w' & Hrun & Hst); [exact Hnd | |].
      * intros k' Hk'. cbn [store]. apply Hagree. right. exact Hk'.
      * exists w'. cbn [clock_reads store] in Hrun, Hst. split; [|exact Hst].
        rewrite Hrun. rewrite <- app_assoc. reflexivity.
    + destruct (Z.gtb_spec (clock E (clock_reads w)) (expiresAt entry)); [|lia].
      run. rewrite H.
      edestruct (IH entries
                   (mkWorld (delete k (store w)) (S (clock_reads w)) (S (S (idb_calls w)))
                            (fetch_calls w) (timers w)))
        as (w' & Hrun & Hst); [exact Hnd | |].
      * intros k' Hk'. cbn [store]. rewrite lookup_delete_ne.
        -- apply Hagree. right. exact Hk'.
        -- intros ->. contradiction.
      * exists w'. cbn [clock_reads store] in Hrun, Hst. split; [exact Hrun|].
        rewrite Hst. cbn [fmap list_fmap fst foldr]. apply foldr_delete_commute.
Qed.

Lemma foldr_delete_Permutation (m : gmap string CacheEntry) ks ks' :
  ks ≡ₚ ks' -> foldr delete m ks = foldr delete m ks'.
Proof.
  induction 1 as [|k ks ks' _ IH|k k' ks|ks ks' ks'' _ IH1 _ IH2]; simpl.
  - reflexivity.
  - rewrite IH. reflexivity.
  - apply delete_delete.
  - congruence.
Qed.

Lemma elem_of_listedCacheKeys E w k :
  k ∈ listedCacheKeys E w <-> isCacheKey k = true /\ is_Some (store w !! k).
Proof. rewrite (listedCacheKeys_Permutation E w). apply elem_of_cacheKeysOf. Qed.

Lemma listedCacheKeys_NoDup E w : NoDup (listedCacheKeys E w).
Proof. rewrite (listedCacheKeys_Permutation E w). apply cacheKeysOf_NoDup. Qed.

Lemma examined_keys E w : (examined E w).*1 = listedCacheKeys E w.
Proof. unfold examined. apply fst_zip. rewrite length_map, length_seq. lia. Qed.


Lemma elem_of_examined E w k t :
  (k, t) ∈ examined E w -> isCacheKey k = true /\ is_Some (store w !! k).
Proof.
  intros Hin. apply (elem_of_listedCacheKeys E w). rewrite <- (examined_keys E w).
  apply list_elem_of_fmap. exists (k, t). split; [reflexivity | exact Hin].
Qed.






(** The database [evictLRUIfNeeded] leaves. *)
Lemma evictLRUIfNeeded_run E maxEntries w :
  healthy E ->
  exists w',
    evictLRUIfNeeded E maxEntries w = (Ok tt, w') /\
    store w' =
      if num_leb (ofZ (Z.of_nat (length (cacheKeysOf (store w))))) maxEntries then store w
      else foldr delete (foldr delete (store w) (expiredSeen E w))
                 (evictedSeen E w maxEntries).
Proof.
  intros H. unfold evictLRUIfNeeded, try_catch, bind.
  rewrite idbKeys_healthy by assumption.
  fold (listedCacheKeys E w). rewrite listedCacheKeys_length.
  destruct (num_leb (ofZ (Z.of_nat (length (cacheKeysOf (store w))))) maxEntries).
  { eexists. split; reflexivity. }
  edestruct (collectEntries_run E (store w) H (listedCacheKeys E w) []
               (mkWorld (store w) (clock_reads w) (S (idb_calls w)) (fetch_calls w) (timers w)))
    as (w1 & Hrun & Hst1).
  { apply listedCacheKeys_NoDup. }
  { intros k Hk. split; [reflexivity|]. apply elem_of_listedCacheKeys in Hk as [_ Hk].
    exact Hk. }
  rewrite Hrun. cbn [app store clock_reads] in *.
  fold (examined E w) in Hst1 |- *. fold (expiredSeen E w) in Hst1. fold (liveSeen E w).
  unfold evictedSeen, oldestKeys, evictCount, slice0. cbv zeta.
  rewrite (Permutation_length (sortByLastAccess_Permutation (liveSeen E w))).
  destruct (num_gtb _ _).
  - destruct (forOf_idbDel_healthy E
                (map key (take (sliceEnd (length (liveSeen E w))
                                         (num_sub (ofZ (Z.of_nat (length (liveSeen E w))))
                                                  maxEntries))
                               (sortByLastAccess (liveSeen E w)))) H w1)
      as (w2 & Hrun2 & Hst2).
    rewrite Hrun2. exists w2. split; [reflexivity|].
    rewrite Hst2, Hst1. reflexivity.
  - exists w1. split; [reflexivity|]. rewrite Hst1. reflexivity.
Qed.

(** *** A pass during which the clock stands still *)

Lemma zip_frozen E now (ks : list string) :
  forall n,
    (forall i, (i < length ks)%nat -> clock E (n + i) = now) ->
    zip ks (map (clock E) (seq n (length ks))) = map (fun k => (k, now)) ks.
Proof.
  induction ks as [|k ks IH]; intros n Hclock; [reflexivity|].
  cbn [length seq map zip zip_with]. f_equal.
  - f_equal. rewrite <- (Hclock 0%nat) by (simpl; lia). f_equal. lia.
  - apply IH. intros i Hi. rewrite <- (Hclock (S i)) by (simpl; lia). f_equal. lia.
Qed.

Lemma expiredWhen_frozen st now (ks : list string) :
  (List.filter (expiredWhen st) (map (fun k => (k, now)) ks)).*1
  = List.filter (expiredIn st now) ks.
Proof.
  induction ks as [|k ks IH]; [reflexivity|].
  cbn [map List.filter]. unfold expiredWhen at 1. cbn [fst snd].
  destruct (expiredIn st now k); [|exact IH].
  cbn [fmap list_fmap fst]. f_equal. exact IH.
Qed.

Lemma candidateWhen_frozen st now (ks : list string) :
  omap (candidateWhen st) (map (fun k => (k, now)) ks) = candidatesOf st now ks.
Proof.
  induction ks as [|k ks IH]; [reflexivity|].
  cbn [map candidatesOf omap list_omap]. unfold candidateWhen at 1. cbn [fst snd].
  destruct (st !! k) as [entry|]; [|exact IH].
  destruct (now <=? expiresAt entry); [f_equal|]; exact IH.
Qed.

Lemma seen_frozen E w now maxEntries :
  (forall i, (i < length (cacheKeysOf (store w)))%nat ->
             clock E (clock_reads w + i) = now) ->
  expiredSeen E w = List.filter (expiredIn (store w) now) (listedCacheKeys E w) /\
  liveSeen E w = candidatesOf (store w) now (listedCacheKeys E w) /\
  evictedSeen E w maxEntries = evictedKeys (store w) now maxEntries (listedCacheKeys E w).
Proof.
  intros Hclock. rewrite <- (listedCacheKeys_length E w) in Hclock.
  assert (liveSeen E w = candidatesOf (store w) now (listedCacheKeys E w)) as Hlive.
  { unfold liveSeen, examined.
    rewrite (zip_frozen E now _ _ Hclock). apply candidateWhen_frozen. }
  split; [|split; [exact Hlive|]].
  - unfold expiredSeen, examined.
    rewrite (zip_frozen E now _ _ Hclock). apply expiredWhen_frozen.
  - unfold evictedSeen, evictedKeys. rewrite Hlive. reflexivity.
Qed.

(** The database [evictLRUIfNeeded] leaves when it runs at time [now]. *)
Lemma evictLRUIfNeeded_healthy E maxEntries w now :
  healthy E ->
  (forall i, (i < length (cacheKeysOf (store w)))%nat ->
             clock E (clock_reads w + i) = now) ->
  exists w',
    evictLRUIfNeeded E maxEntries w = (Ok tt, w') /\
    store w' =
      if num_leb (ofZ (Z.of_nat (length (cacheKeysOf (store w))))) maxEntries then store w
      else foldr delete (foldr delete (store w) (expiredKeys (store w) now))
                 (evictedKeys (store w) now maxEntries (listedCacheKeys E w)).
Proof.
  intros H Hclock.
  destruct (evictLRUIfNeeded_run E maxEntries w H) as (w' & Hrun & Hst).
  destruct (seen_frozen E w now maxEntries Hclock) as (He & _ & Hv).
  exists w'. split; [exact Hrun|]. rewrite Hst, He, Hv.
  rewrite (foldr_delete_Permutation (store w) _ (expiredKeys (store w) now));
    [reflexivity|].
  apply filter_Permutation, listedCacheKeys_Permutation.
Qed.

Section Evicted.

Variables (st : gmap string CacheEntry) (now : Z) (maxEntries : number) (ks : list string).
Hypothesis Hks : ks ≡ₚ cacheKeysOf st.

Lemma live_listed : List.filter (liveIn st now) ks ≡ₚ liveKeys st now.
Proof. apply filter_Permutation, Hks. Qed.

Lemma evictedKeys_sublist : evictedKeys st now maxEntries ks ⊆ liveKeys st now.
Proof.
  unfold evictedKeys. cbv zeta. rewrite <- live_listed, <- candidatesOf_keys.
  apply oldestKeys_subseteq.
Qed.

Lemma evictedKeys_NoDup : NoDup (evictedKeys st now maxEntries ks).
Proof.
  unfold evictedKeys. cbv zeta. apply oldestKeys_NoDup.
  rewrite candidatesOf_keys.
  apply NoDup_ListNoDup, List.NoDup_filter, NoDup_ListNoDup.
  rewrite Hks. apply cacheKeysOf_NoDup.
Qed.

Lemma evictedKeys_length :
  length (evictedKeys st now maxEntries ks)
  = evictCount (length (liveKeys st now)) maxEntries.
Proof.
  unfold evictedKeys. cbv zeta.
  rewrite <- (Permutation_length live_listed), <- candidatesOf_keys, length_map.
  apply oldestKeys_length, evictCount_le.
Qed.

Lemma evictedKeys_oldest k k' entry entry' :
  k ∈ evictedKeys st now maxEntries ks ->
  k' ∈ liveKeys st now ->
  k' ∉ evictedKeys st now maxEntries ks ->
  st !! k = Some entry ->
  st !! k' = Some entry' ->
  lastAccess entry <= lastAccess entry'.
Proof.
  unfold evictedKeys. cbv zeta.
  intros Hk Hk' Hnot He He'.
  rewrite <- live_listed, <- candidatesOf_keys in Hk'.
  apply list_elem_of_fmap in Hk' as (c' & -> & Hc').
  destruct (oldestKeys_oldest _ _ k c' Hk Hc' Hnot) as (c & Hc & <- & Hle).
  apply candidatesOf_lastAccess in Hc as (e1 & He1 & Hl1).
  apply candidatesOf_lastAccess in Hc' as (e2 & He2 & Hl2).
  congruence.
Qed.

End Evicted.




(** The clock passes the expiry of [key4] during the pass: live when the
    pass starts at 1498, the entry has expired when it is examined at 1501.
    It is deleted as expired and, of the three live entries, the oldest,
    [key1], is evicted. *)
Example evictLRUIfNeeded_expires_during_pass :
  examined tickingEnv agingWorld
  = [(getCacheKey "key1", 1498); (getCacheKey "key2", 1499);
     (getCacheKey "key3", 1500); (getCacheKey "key4", 1501)] /\
  store (snd (evictLRUIfNeeded tickingEnv (ofZ 2) agingWorld)) =
  list_to_map
    [(getCacheKey "key2", mkEntry (VStr "value2") 60000 1020);
     (getCacheKey "key3", mkEntry (VStr "value3") 60000 1030)].
Proof. split; vm_compute; reflexivity. Qed.

(** The order in which the store lists its keys decides at which reading
    an entry is examined. Listed last, [key4] has expired when its turn
    comes and the three others stay; listed first, it is still live, four
    live entries exceed the limit of three and the oldest, [key1], is
    evicted. *)
Example evictLRUIfNeeded_listing_order :
  store (snd (evictLRUIfNeeded tickingEnv (ofZ 3) racingWorld)) =
  list_to_map
    [(getCacheKey "key1", mkEntry (VStr "value1") 60000 1010);
     (getCacheKey "key2", mkEntry (VStr "value2") 60000 1020);
     (getCacheKey "key3", mkEntry (VStr "value3") 60000 1030)] /\
  examined key4FirstEnv racingWorld
  = [(getCacheKey "key4", 1498); (getCacheKey "key1", 1499);
     (getCacheKey "key2", 1500); (getCacheKey "key3", 1501)] /\
  store (snd (evictLRUIfNeeded key4FirstEnv (ofZ 3) racingWorld)) =
  list_to_map
    [(getCacheKey "key2", mkEntry (VStr "value2") 60000 1020);
     (getCacheKey "key3", mkEntry (VStr "value3") 60000 1030);
     (getCacheKey "key4", mkEntry (VStr "value4") 1500 1040)].
Proof. repeat split; vm_compute; reflexivity. Qed.

(** Of five namespaced entries, one expired, with a limit of two: the
    expired one and the two oldest live ones go; the foreign key stays. *)
Example evictLRUIfNeeded_lruWorld :
  store (snd (evictLRUIfNeeded frozenEnv (ofZ 2) lruWorld)) =
  list_to_map
    [(getCacheKey "key2", mkEntry (VStr "value2") 60000 1020);
     (getCacheKey "key3", mkEntry (VStr "value3") 60000 1030);
     ("other-data", mkEntry (VNum 7) 0 0)].
Proof. vm_compute. reflexivity. Qed.

(** A limit of 2.5 with four live entries: [4 - 2.5] is rounded down, one
    entry is evicted and three stay, more than the limit. *)
Example evictLRUIfNeeded_fractional_limit :
  store (snd (evictLRUIfNeeded frozenEnv twoAndAHalf lruWorld)) =
  list_to_map
    [(getCacheKey "key1", mkEntry (VStr "value1") 60000 1010);
     (getCacheKey "key2", mkEntry (VStr "value2") 60000 1020);
     (getCacheKey "key3", mkEntry (VStr "value3") 60000 1030);
     ("other-data", mkEntry (VNum 7) 0 0)].
Proof. vm_compute. reflexivity. Qed.

(** With [NaN] as the limit no comparison holds: the guard does not
    return, expired entries are deleted and no live entry is evicted. *)
Example evictLRUIfNeeded_NaN_limit :
  store (snd (evictLRUIfNeeded frozenEnv NaN lruWorld)) =
  list_to_map
    [(getCacheKey "key1", mkEntry (VStr "value1") 60000 1010);
     (getCacheKey "key2", mkEntry (VStr "value2") 60000 1020);
     (getCacheKey "key3", mkEntry (VStr "value3") 60000 1030);
     (getCacheKey "key4", mkEntry (VStr "value4") 60000 1005);
     ("other-data", mkEntry (VNum 7) 0 0)].
Proof. vm_compute. reflexivity. Qed.

(* ===================================================================== *)
(** ** What the cache and the fetch helper touch *)
(* ===================================================================== *)

Section Frame.

Variable E : env.

Lemma touches_ret k {A} (a : A) : touches_only k (ret a).
Proof. intros w k' _. reflexivity. Qed.

Lemma touches_throw k {A} e : touches_only k (@throw world A e).
Proof. intros w k' _. reflexivity. Qed.

Lemma touches_dateNow k : touches_only k (dateNow E).
Proof. intros w k' _. reflexivity. Qed.

Lemma touches_fetch k req : touches_only k (fetch E req).
Proof. intros w k' _. reflexivity. Qed.

Lemma touches_sleep k delay : touches_only k (sleep (S := world) delay).
Proof. intros w k' _. reflexivity. Qed.

Lemma touches_idbGet k key : touches_only k (idbGet E key).
Proof. intros w k' _. run. destruct (idb_fault E (idb_calls w)); reflexivity. Qed.

Lemma touches_idbSet k entry : touches_only k (idbSet E k entry).
Proof.
  intros w k' Hne. run. destruct (idb_fault E (idb_calls w)); [reflexivity|].
  cbn [snd store]. apply lookup_insert_ne. congruence.
Qed.

Lemma touches_idbDel k : touches_only k (idbDel E k).
Proof.
  intros w k' Hne. run. destruct (idb_fault E (idb_calls w)); [reflexivity|].
  cbn [snd store]. apply lookup_delete_ne. congruence.
Qed.

Lemma touches_bind k {A B} (m : M world A) (f : A -> M world B) :
  touches_only k m -> (forall a, touches_only k (f a)) -> touches_only k (bind m f).
Proof.
  intros Hm Hf w k' Hne. unfold bind. specialize (Hm w k' Hne).
  destruct (m w) as [[a|e] w1]; cbn [snd] in *; [|exact Hm].
  rewrite (Hf a w1 k' Hne). exact Hm.
Qed.

Lemma touches_try_catch k {A} (m : M world A) (h : exn -> M world A) :
  touches_only k m -> (forall e, touches_only k (h e)) -> touches_only k (try_catch m h).
Proof.
  intros Hm Hh w k' Hne. unfold try_catch. specialize (Hm w k' Hne).
  destruct (m w) as [[a|e] w1]; cbn [snd] in *; [exact Hm|].
  rewrite (Hh e w1 k' Hne). exact Hm.
Qed.

Lemma touches_get k : touches_only (getCacheKey k) (get E k).
Proof.
  apply touches_try_catch; [|intros e; apply touches_ret].
  apply touches_bind; [apply touches_idbGet|].
  intros [entry|]; [|apply touches_ret].
  apply touches_bind; [apply touches_dateNow|]. intros now.
  destruct (now >? expiresAt entry).
  - apply touches_bind; [apply touches_idbDel | intros _; apply touches_ret].
  - apply touches_bind; [apply touches_idbSet | intros _; apply touches_ret].
Qed.

Lemma touches_set k v ttl : touches_only (getCacheKey k) (set E k v ttl).
Proof.
  apply touches_try_catch; [|intros e; apply touches_throw].
  apply touches_bind; [apply touches_dateNow | intros now; apply touches_idbSet].
Qed.

Lemma touches_backoffLoop k {A} (operation : M world A) maxRetries baseDelayMs maxDelayMs fuel :
  touches_only k operation ->
  forall attempt lastError,
    touches_only k (backoffLoop operation maxRetries baseDelayMs maxDelayMs
                                fuel attempt lastError).
Proof.
  intros Hop. induction fuel as [|fuel IH]; intros attempt lastError; cbn [backoffLoop].
  - apply touches_throw.
  - destruct (num_leb (ofZ attempt) maxRetries); [|apply touches_throw].
    apply touches_try_catch; [exact Hop|]. intros e.
    destruct (num_eqb (ofZ attempt) maxRetries); [apply touches_throw|].
    apply touches_bind; [apply touches_sleep | intros _; apply IH].
Qed.

Lemma touches_fetchWithETag url :
  touches_only (getCacheKey (CACHE_KEYS_etag url)) (fetchWithETag E url).
Proof.
  unfold fetchWithETag.
  apply touches_bind; [apply touches_get|]. intros cachedETag.
  apply touches_backoffLoop.
  apply touches_bind; [apply touches_fetch|]. intros response.
  apply touches_bind; [|intros _; apply touches_ret].
  destruct (etagHeader response) as [etag|]; [|apply touches_ret].
  destruct (truthy (VStr etag)); [apply touches_set | apply touches_ret].
Qed.

Lemma get_fetch_calls k w : fetch_calls (snd (get E k w)) = fetch_calls w.
Proof.
  run. destruct (idb_fault E (idb_calls w)); [reflexivity|].
  destruct (store w !! getCacheKey k) as [entry|]; [|reflexivity]. run.
  destruct (clock E (clock_reads w) >? expiresAt entry); run;
    destruct (idb_fault E (S (idb_calls w))); reflexivity.
Qed.

End Frame.

(* ===================================================================== *)
(** ** The fetch helper when the first attempt succeeds *)
(* ===================================================================== *)

(** With the default options the loop runs with [maxRetries = 2], delays
    from 100 ms up to 2000 ms, and four tests of its condition at most. *)
Lemma withBackoff_noOptions {S A} `{Timer S} (operation : M S A) Hbounded :
  withBackoff operation noOptions Hbounded
  = backoffLoop operation (ofZ 2) 100 2000 4 0 (Thrown VUndef).
Proof. reflexivity. Qed.

Lemma fetchWithETag_healthy E url w response :
  healthy E ->
  (forall headers, network E (fetch_calls w) (mkRequest url headers) = Ok response) ->
  exists w', fetchWithETag E url w = (Ok response, w').
Proof.
  intros H Hnet. unfold fetchWithETag, bind at 1.
  destruct (get_total E (CACHE_KEYS_etag url) w) as (cachedETag & w1 & Hget).
  pose proof (get_fetch_calls E (CACHE_KEYS_etag url) w) as Hcalls.
  rewrite Hget in *. cbn [snd] in Hcalls.
  rewrite withBackoff_noOptions. cbn [backoffLoop].
  change (num_leb (ofZ 0) (ofZ 2)) with true. cbv iota.
  unfold try_catch, bind at 1, fetch. rewrite Hcalls, Hnet.
  destruct (etagHeader response) as [etag|].
  - destruct (truthy (VStr etag)).
    + unfold bind. rewrite set_healthy by assumption. eexists. reflexivity.
    + eexists. reflexivity.
  - eexists. reflexivity.
Qed.

(* ===================================================================== *)
(** ** Blank identifiers *)
(* ===================================================================== *)

Lemma trimStart_blank s : allWhiteSpace s = true -> trimStart s = EmptyString.
Proof.
  induction s as [|c s IH]; simpl; [reflexivity|].
  intros Hs. apply andb_prop in Hs as [Hc Hs]. rewrite Hc. exact (IH Hs).
Qed.

Lemma trimEnd_empty s : trimEnd s = EmptyString -> allWhiteSpace s = true.
Proof.
  induction s as [|c s IH]; simpl; [reflexivity|].
  destruct (trimEnd s); [|discriminate].
  destruct (isWhiteSpace c); [|discriminate].
  intros _. exact (IH eq_refl).
Qed.

Lemma trimStart_allWhiteSpace s : allWhiteSpace (trimStart s) = true -> allWhiteSpace s = true.
Proof.
  induction s as [|c s IH]; simpl; [reflexivity|].
  destruct (isWhiteSpace c) eqn:Hc; simpl; [exact IH|].
  rewrite Hc. discriminate.
Qed.

(** [trim] gives the empty string exactly on the blank strings. *)
Lemma trim_empty_iff s : trim s = EmptyString <-> allWhiteSpace s = true.
Proof.
  unfold trim. split.
  - intros Ht. apply trimStart_allWhiteSpace, trimEnd_empty, Ht.
  - intros Hs. rewrite (trimStart_blank s Hs). reflexivity.
Qed.

Lemma truthy_trim s : truthy (VStr (trim s)) = negb (allWhiteSpace s).
Proof.
  simpl. destruct (allWhiteSpace s) eqn:Hs.
  - apply trim_empty_iff in Hs. rewrite Hs. reflexivity.
  - destruct (String.eqb_spec (trim s) EmptyString) as [Ht|]; [|reflexivity].
    apply trim_empty_iff in Ht. congruence.
Qed.

(** A value without a callable [trim] makes the guard itself throw. *)
Lemma getSpecies_not_a_string E isSpecies coreSpecies id w :
  match id with VUndef | VNull | VStr _ => False | _ => True end ->
  getSpecies E isSpecies coreSpecies id w
  = (Err (JsError "TypeError" "trim is not a function"), w).
Proof. destruct id; intros []; reflexivity. Qed.

(** The claim as stated fails for an identifier that is neither a string
    nor [null] nor [undefined]: [getSpecies(5)] does not return "not found",
    it fails with a TypeError. *)
Lemma getSpecies_number_throws :
  getSpecies offlineEnv (fun _ => false) [] (VNum 5) emptyWorld
  = (Err (JsError "TypeError" "trim is not a function"), emptyWorld).
Proof. reflexivity. Qed.

(** Claim C6, amended from "not a string" to [null] and [undefined]. For
    an identifier that is the empty string, a string of white space only,
    [null] or [undefined], [getSpecies] returns [undefined] and leaves the
    world as it was: no store call, no fetch, no clock reading, no timer. *)
Theorem getSpecies_rejects_blank E isSpecies coreSpecies id w :
  (id = VUndef \/ id = VNull \/ exists s, id = VStr s /\ allWhiteSpace s = true) ->
  getSpecies E isSpecies coreSpecies id w = (Ok VUndef, w).
Proof.
  intros [->|[->|(s & -> & Hs)]]; try reflexivity.
  unfold getSpecies, bind, optionalTrim, ret. rewrite truthy_trim, Hs. reflexivity.
Qed.

Lemma getSpecies_rejects_blank_witness :
  getSpecies offlineEnv (fun _ => true) [] (VStr "   ") emptyWorld = (Ok VUndef, emptyWorld).
Proof.
  apply getSpecies_rejects_blank. right. right. exists "   ". split; reflexivity.
Defined.

(* ===================================================================== *)
(** ** The three accessors *)
(* ===================================================================== *)

Lemma get_miss_healthy E k w :
  healthy E ->
  store w !! getCacheKey k = None ->
  get E k w = (Ok VUndef,
               mkWorld (store w) (clock_reads w) (S (idb_calls w)) (fetch_calls w) (timers w)).
Proof. intros H Hk. run. rewrite H, Hk. reflexivity. Qed.

Lemma species_key_not_etag id url :
  getCacheKey (CACHE_KEYS_species id) <> getCacheKey (CACHE_KEYS_etag url).
Proof. discriminate. Qed.

Lemma search_key_not_etag query url :
  getCacheKey (CACHE_KEYS_searchResults query) <> getCacheKey (CACHE_KEYS_etag url).
Proof. discriminate. Qed.

Lemma population_key_not_etag id url :
  getCacheKey (CACHE_KEYS_population id) <> getCacheKey (CACHE_KEYS_etag url).
Proof. discriminate. Qed.

Lemma mergeSearchResults_spec local remote :
  mergeSearchResults local remote
  = local ++ List.filter (fun species => negb (idPresent local species)) remote.
Proof.
  unfold mergeSearchResults, idPresent.
  generalize (map (fun s => prop s "id") local) as localIds. intros localIds.
  generalize local as merged.
  induction remote as [|species remote IH]; intros merged; simpl.
  - rewrite app_nil_r. reflexivity.
  - rewrite IH. destruct (existsb _ localIds); simpl; [reflexivity|].
    rewrite <- app_assoc. reflexivity.
Qed.

(** Every local record is in the merged list, and a remote record is in it
    exactly when no local record has its identifier. *)
Lemma elem_of_mergeSearchResults local remote species :
  species ∈ mergeSearchResults local remote <->
  species ∈ local \/ (species ∈ remote /\ idPresent local species = false).
Proof.
  rewrite mergeSearchResults_spec, elem_of_app, elem_of_filter, negb_true_iff.
  reflexivity.
Qed.

(** The world after the remote attempt of an accessor that missed the cache:
    the fetch helper returns the response and the accessor's key is still
    absent. *)
Lemma fetchWithETag_keeps_miss E url k w response :
  healthy E ->
  getCacheKey k <> getCacheKey (CACHE_KEYS_etag url) ->
  store w !! getCacheKey k = None ->
  (forall headers, network E (fetch_calls w) (mkRequest url headers) = Ok response) ->
  exists w', fetchWithETag E url w = (Ok response, w') /\
             store w' !! getCacheKey k = None.
Proof.
  intros H Hne Hk Hnet.
  destruct (fetchWithETag_healthy E url w response H Hnet) as (w' & Hrun).
  exists w'. split; [exact Hrun|].
  pose proof (touches_fetchWithETag E url w (getCacheKey k) Hne) as Hframe.
  rewrite Hrun in Hframe. cbn [snd] in Hframe. congruence.
Qed.

Section SearchMerge.

Variable E : env.
Variable isSpecies : val -> bool.
Variable coreSpecies : list val.

Lemma search_merges_remote query w response remote :
  healthy E ->
  trim query <> EmptyString ->
  store w !! getCacheKey (CACHE_KEYS_searchResults query) = None ->
  (forall headers,
      network E (fetch_calls w)
              (mkRequest ("/api/search?q=" +:+ encodeURIComponent query) headers)
      = Ok response) ->
  ok response = true ->
  json response = Ok (VArr remote) ->
  forallb isSpecies remote = true ->
  fst (search E isSpecies coreSpecies (VStr query) w)
  = Ok (VArr (mergeSearchResults (fuzzySearchPreload coreSpecies query) remote)).
Proof.
  intros H Hq Hmiss Hnet Hok Hjson Hvalid.
  unfold search. unfold bind at 1. cbn [optionalTrim ret].
  rewrite truthy_trim.
  destruct (allWhiteSpace query) eqn:Hblank.
  { apply trim_empty_iff in Hblank. contradiction. }
  cbn [negb ToString]. unfold try_catch at 1, bind at 1.
  rewrite get_miss_healthy by assumption. cbn [truthy andb].
  unfold bind at 1, try_catch at 1, bind at 1.
  edestruct (fetchWithETag_keeps_miss E
               ("/api/search?q=" +:+ encodeURIComponent query)
               (CACHE_KEYS_searchResults query)
               (mkWorld (store w) (clock_reads w) (S (idb_calls w)) (fetch_calls w) (timers w))
               response H)
    as (w2 & Hfetch & Hmiss2);
    [apply search_key_not_etag | exact Hmiss | exact Hnet |].
  rewrite Hfetch. unfold bind at 1.
  destruct (status response =? 304).
  - unfold bind at 1. rewrite get_miss_healthy by assumption.
    cbn [truthy andb ret]. rewrite Hok. unfold bind at 1, readJson. rewrite Hjson, Hvalid.
    unfold bind at 1. rewrite set_healthy by assumption. reflexivity.
  - cbn [ret]. rewrite Hok. unfold bind at 1, readJson. rewrite Hjson, Hvalid.
    unfold bind at 1. rewrite set_healthy by assumption. reflexivity.
Qed.

End SearchMerge.

(** Claim C8. [mergeSearchResults] gives the local results, in order,
    followed by the remote results whose identifier no local result has.
    And that is what [search] returns when the store works, the cache holds
    nothing for the query and the fetch answers OK with an array of
    species. *)
Theorem search_merges_local_first E isSpecies coreSpecies :
  (forall local remote,
      mergeSearchResults local remote
      = local ++ List.filter (fun species => negb (idPresent local species)) remote) /\
  (forall query w response remote,
      healthy E ->
      trim query <> EmptyString ->
      store w !! getCacheKey (CACHE_KEYS_searchResults query) = None ->
      (forall headers,
          network E (fetch_calls w)
                  (mkRequest ("/api/search?q=" +:+ encodeURIComponent query) headers)
          = Ok response) ->
      ok response = true ->
      json response = Ok (VArr remote) ->
      forallb isSpecies remote = true ->
      let local := fuzzySearchPreload coreSpecies query in
      fst (search E isSpecies coreSpecies (VStr query) w)
      = Ok (VArr (local ++ List.filter (fun species => negb (idPresent local species))
                                       remote))).
Proof.
  split; [apply mergeSearchResults_spec|].
  intros query w response remote H Hq Hmiss Hnet Hok Hjson Hvalid local. subst local.
  rewrite <- mergeSearchResults_spec.
  eapply search_merges_remote; eassumption.
Qed.

Lemma search_merges_local_first_witness :
  fst (search (answering (VArr [remoteOtter; remoteSpecies])) hasStringId [seaOtter]
              (VStr "Otter") emptyWorld)
  = Ok (VArr [seaOtter; remoteSpecies]).
Proof.
  destruct (search_merges_local_first (answering (VArr [remoteOtter; remoteSpecies]))
              hasStringId [seaOtter]) as [_ Hsearch].
  apply (Hsearch "Otter" emptyWorld
                 (mkResponse 200 true None (Ok (VArr [remoteOtter; remoteSpecies])))
                 [remoteOtter; remoteSpecies]).
  - intros n. reflexivity.
  - discriminate.
  - reflexivity.
  - intros headers. reflexivity.
  - reflexivity.
  - reflexivity.
  - reflexivity.
Defined.




Section Population.

Variable E : env.

Lemma get_miss_run k w :
  store w !! getCacheKey k = None ->
  get E k w = (Ok VUndef, snd (get E k w)).
Proof.
  intros Hk. destruct (get_miss E k w Hk) as (Hr & _).
  destruct (get E k w) as [r w1]. cbn [fst snd] in *. congruence.
Qed.

(** After a cache miss, [getPopulation] returns the empty list, unless the
    fetch helper returned an OK response whose body is an array and the
    array could be written to the cache: then it returns that array. *)
Lemma getPopulation_miss id w :
  store w !! getCacheKey (CACHE_KEYS_population id) = None ->
  exists result w',
    getPopulation E (VStr id) w = (Ok result, w') /\
    (result = VArr [] \/
     exists response w2,
       fetchWithETag E ("/api/population/" +:+ encodeURIComponent id)
                     (snd (get E (CACHE_KEYS_population id) w)) = (Ok response, w2) /\
       ok response = true /\
       json response = Ok result /\
       isArray result = true /\
       fst (set E (CACHE_KEYS_population id) result CACHE_TTL_population
                (if status response =? 304
                 then snd (get E (CACHE_KEYS_population id) w2) else w2)) = Ok tt).
Proof.
  intros Hmiss.
  pose (Q := fun p : result val * world =>
               exists result w',
                 p = (Ok result, w') /\
                 (result = VArr [] \/
                  exists response w2,
                    fetchWithETag E ("/api/population/" +:+ encodeURIComponent id)
                                  (snd (get E (CACHE_KEYS_population id) w))
                    = (Ok response, w2) /\
                    ok response = true /\
                    json response = Ok result /\
                    isArray result = true /\
                    fst (set E (CACHE_KEYS_population id) result CACHE_TTL_population
                             (if status response =? 304
                              then snd (get E (CACHE_KEYS_population id) w2) else w2))
                    = Ok tt)).
  change (Q (getPopulation E (VStr id) w)).
  assert (forall w', Q (Ok (VArr []), w')) as Hempty.
  { intros w'. exists (VArr []), w'. split; [reflexivity | left; reflexivity]. }
  unfold getPopulation. unfold bind at 1. cbn [optionalTrim ret].
  destruct (negb (truthy (VStr (trim id)))); [apply Hempty|].
  cbn [ToString]. unfold try_catch at 1, bind at 1.
  rewrite (get_miss_run _ w Hmiss). cbn [truthy andb].
  destruct (get_miss E _ w Hmiss) as (_ & Hstore & _).
  unfold bind at 1, try_catch at 1, bind at 1.
  destruct (fetchWithETag E ("/api/population/" +:+ encodeURIComponent id)
                          (snd (get E (CACHE_KEYS_population id) w)))
    as [[response|e] w2] eqn:Hfetch; [|apply Hempty].
  assert (store w2 !! getCacheKey (CACHE_KEYS_population id) = None) as Hmiss2.
  { pose proof (touches_fetchWithETag E ("/api/population/" +:+ encodeURIComponent id)
                  (snd (get E (CACHE_KEYS_population id) w))
                  (getCacheKey (CACHE_KEYS_population id))
                  (population_key_not_etag _ _)) as Hframe.
    rewrite Hfetch in Hframe. cbn [snd] in Hframe. congruence. }
  assert ((if status response =? 304 then
             let* cachedData := get E (CACHE_KEYS_population id) in
             if truthy cachedData && isArray cachedData
             then ret (Some cachedData) else ret None
           else ret None) w2
          = (Ok None,
             if status response =? 304
             then snd (get E (CACHE_KEYS_population id) w2) else w2)) as Hnm.
  { destruct (status response =? 304); [|reflexivity].
    unfold bind. rewrite (get_miss_run _ w2 Hmiss2). reflexivity. }
  unfold bind at 1. rewrite Hnm.
  destruct (ok response) eqn:Hok; [|apply Hempty].
  unfold bind at 1, readJson.
  destruct (json response) as [data|e] eqn:Hjson; [|apply Hempty].
  destruct (isArray data) eqn:Harray; [|apply Hempty].
  unfold bind at 1.
  destruct (set E (CACHE_KEYS_population id) data CACHE_TTL_population _)
    as [[[]|e] w4] eqn:Hset; [|apply Hempty].
  exists data, w4. split; [reflexivity|]. right.
  exists response, w2. rewrite Hset. repeat split; assumption.
Qed.

End Population.

(** Claim C9. With no entry under [population:{id}] in the cache,
    [getPopulation] always returns normally, and it returns the empty list
    when the fetch helper fails (the network failed on every attempt), when
    the response is not OK, when its body is no array or cannot be parsed,
    and when the array cannot be written to the cache. The bundled dataset
    is no argument of [getPopulation]: no result is derived from it. *)
Theorem getPopulation_empty_on_failure E id w :
  store w !! getCacheKey (CACHE_KEYS_population id) = None ->
  let remote := fetchWithETag E ("/api/population/" +:+ encodeURIComponent id)
                              (snd (get E (CACHE_KEYS_population id) w)) in
  (exists result w', getPopulation E (VStr id) w = (Ok result, w')) /\
  (forall e, fst remote = Err e ->
             fst (getPopulation E (VStr id) w) = Ok (VArr [])) /\
  (forall response, fst remote = Ok response -> ok response = false ->
                    fst (getPopulation E (VStr id) w) = Ok (VArr [])) /\
  (forall response, fst remote = Ok response ->
                    (forall data, json response = Ok data -> isArray data = false) ->
                    fst (getPopulation E (VStr id) w) = Ok (VArr [])) /\
  (forall response data e,
      fst remote = Ok response -> json response = Ok data ->
      fst (set E (CACHE_KEYS_population id) data CACHE_TTL_population
               (if status response =? 304
                then snd (get E (CACHE_KEYS_population id) (snd remote))
                else snd remote)) = Err e ->
      fst (getPopulation E (VStr id) w) = Ok (VArr [])).
Proof.
  intros Hmiss remote. subst remote.
  destruct (getPopulation_miss E id w Hmiss) as (result & w' & Hrun & Hresult).
  rewrite Hrun. cbn [fst].
  split; [eauto|].
  destruct Hresult as [->|(response & w2 & Hfetch & Hok & Hjson & Harray & Hset)].
  { repeat split; reflexivity. }
  rewrite Hfetch. cbn [fst snd].
  split; [intros e He; discriminate|].
  split; [intros r Hr Hnok; congruence|].
  split.
  - intros r Hr Hbody. injection Hr as <-. rewrite (Hbody result Hjson) in Harray.
    discriminate.
  - intros r data e Hr Hdata Hfail. injection Hr as <-.
    rewrite Hjson in Hdata. injection Hdata as <-. congruence.
Qed.

Lemma getPopulation_empty_on_failure_witness :
  fst (getPopulation offlineEnv (VStr "sea-otter") emptyWorld) = Ok (VArr []).
Proof.
  destruct (getPopulation_empty_on_failure offlineEnv "sea-otter" emptyWorld)
    as (_ & Hnetwork & _).
  - reflexivity.
  - apply (Hnetwork fetchError). reflexivity.
Defined.

(** The network is unreachable: three attempts, waits of 100 and 200 ms,
    and the empty list. *)
Example getPopulation_offline :
  getPopulation offlineEnv (VStr "sea-otter") emptyWorld
  = (Ok (VArr []), mkWorld ∅ 0 2 3 [100; 200]).
Proof. reflexivity. Qed.


(* ===================================================================== *)
(** ** More of the cache engine: keys, reads and writes *)
(* ===================================================================== *)

Lemma append_cons c p s : String c p +:+ s = String c (p +:+ s).
Proof. reflexivity. Qed.

Lemma prefix_split p s :
  String.prefix p s = true -> s = p +:+ dropChars (String.length p) s.
Proof.
  revert s. induction p as [|c p IH]; intros s; [reflexivity|].
  destruct s as [|d s]; [discriminate|]. cbn [String.prefix String.length dropChars].
  destruct (ascii_dec c d) as [->|]; [|discriminate].
  intros Hp. rewrite append_cons. f_equal. exact (IH s Hp).
Qed.

Lemma dropChars_append p s : dropChars (String.length p) (p +:+ s) = s.
Proof. induction p as [|c p IH]; [reflexivity | exact IH]. Qed.

Lemma replaceFirst_prefix p r s :
  String.prefix p s = true ->
  replaceFirst p r s = r +:+ dropChars (String.length p) s.
Proof. intros Hp. destruct s; cbn [replaceFirst]; rewrite Hp; reflexivity. Qed.

Lemma append_inj p a b : p +:+ a = p +:+ b -> a = b.
Proof.
  induction p as [|c p IH]; intros H; [exact H|].
  rewrite !append_cons in H. injection H as H. exact (IH H).
Qed.

Lemma getCacheKey_inj k k' : getCacheKey k = getCacheKey k' -> k = k'.
Proof. apply append_inj. Qed.

(** [getOriginalKey] undoes [getCacheKey], and on a namespaced key
    [getCacheKey] undoes [getOriginalKey]: logical keys and namespaced
    store keys correspond one to one. *)
Theorem cache_key_round_trip k :
  getOriginalKey (getCacheKey k) = k /\
  isCacheKey (getCacheKey k) = true /\
  (forall k', getCacheKey k = getCacheKey k' -> k = k') /\
  (isCacheKey k = true -> getCacheKey (getOriginalKey k) = k).
Proof.
  split; [|split; [|split]].
  - unfold getOriginalKey, getCacheKey.
    rewrite replaceFirst_prefix by apply prefix_append.
    apply dropChars_append.
  - apply isCacheKey_getCacheKey.
  - apply getCacheKey_inj.
  - unfold isCacheKey, getOriginalKey, getCacheKey. intros Hp.
    rewrite replaceFirst_prefix by exact Hp.
    symmetry. apply (prefix_split CACHE_PREFIX k Hp).
Qed.

Lemma cache_key_round_trip_witness :
  getCacheKey (getOriginalKey "sea-here-cache:species:sea-otter")
  = "sea-here-cache:species:sea-otter".
Proof.
  destruct (cache_key_round_trip "sea-here-cache:species:sea-otter") as (_ & _ & _ & H).
  apply H. reflexivity.
Defined.

(** A key that holds the prefix further inside loses it there: only
    namespaced keys come back unchanged. *)
Example getOriginalKey_inner_prefix :
  getOriginalKey "x-sea-here-cache:y" = "x-y".
Proof. reflexivity. Qed.

(** A read of a live entry returns its value and writes the entry back with
    [lastAccess] set to the time read; value and expiry stay. Reads do not
    extend the life of an entry: the next read after the expiry finds
    nothing and deletes it. An entry read exactly at its expiry time is
    still live. *)
Theorem get_refreshes_access_not_expiry E k w entry :
  healthy E ->
  store w !! getCacheKey k = Some entry ->
  clock E (clock_reads w) <= expiresAt entry ->
  let w1 := snd (get E k w) in
  fst (get E k w) = Ok (value entry) /\
  store w1 = <[getCacheKey k := mkEntry (value entry) (expiresAt entry)
                                        (clock E (clock_reads w))]> (store w) /\
  (expiresAt entry < clock E (S (clock_reads w)) ->
   fst (get E k w1) = Ok VUndef /\
   store (snd (get E k w1)) = delete (getCacheKey k) (store w)).
Proof.
  intros H Hk Hlive w1. subst w1.
  rewrite (get_live E k w entry H Hk Hlive). cbn [fst snd store].
  split; [reflexivity|]. split; [reflexivity|]. intros Hexp.
  rewrite (get_expired E k _
             (mkEntry (value entry) (expiresAt entry) (clock E (clock_reads w))));
    [| assumption | cbn [store]; apply lookup_insert_eq | cbn [clock_reads expiresAt]; exact Hexp].
  cbn [fst snd store]. split; [reflexivity|]. apply delete_insert_eq.
Qed.

Lemma get_refreshes_access_not_expiry_witness :
  fst (get offlineEnv "k" (mkWorld {[ getCacheKey "k" := mkEntry (VNum 1) 1000 900 ]} 0 0 0 []))
  = Ok (VNum 1) /\
  fst (get offlineEnv "k"
           (snd (get offlineEnv "k"
                     (mkWorld {[ getCacheKey "k" := mkEntry (VNum 1) 1000 900 ]} 0 0 0 []))))
  = Ok VUndef.
Proof.
  destruct (get_refreshes_access_not_expiry offlineEnv "k"
              (mkWorld {[ getCacheKey "k" := mkEntry (VNum 1) 1000 900 ]} 0 0 0 [])
              (mkEntry (VNum 1) 1000 900)) as (Hfirst & _ & Hsecond).
  - intros n. reflexivity.
  - reflexivity.
  - simpl. lia.
  - split; [exact Hfirst|]. apply Hsecond. simpl. lia.
Defined.

(** Whatever the store does, a read changes the database at its own
    namespaced key at most, and a read of an absent key returns
    [undefined] and changes nothing. *)
Theorem get_touches_own_key_only E k w :
  (forall k', k' <> getCacheKey k ->
              store (snd (get E k w)) !! k' = store w !! k') /\
  (store w !! getCacheKey k = None ->
   fst (get E k w) = Ok VUndef /\ store (snd (get E k w)) = store w).
Proof.
  split.
  - intros k' Hne. apply touches_get. exact Hne.
  - intros Hk. destruct (get_miss E k w Hk) as (Hr & Hs & _). split; assumption.
Qed.

Lemma get_touches_own_key_only_witness :
  fst (get brokenStoreEnv "missing" emptyWorld) = Ok VUndef /\
  store (snd (get brokenStoreEnv "missing" emptyWorld)) = store emptyWorld.
Proof.
  destruct (get_touches_own_key_only brokenStoreEnv "missing" emptyWorld) as [_ H].
  apply H. reflexivity.
Defined.

(** The last write to a key wins, with its own expiry, whatever was written
    there before; and a write to another key does not disturb it. *)
Theorem set_last_write_wins E k k' v1 v2 v' ttl1 ttl2 ttl' w :
  healthy E ->
  (clock E (S (S (clock_reads w))) <= clock E (S (clock_reads w)) + ttl2 ->
   fst (get E k (snd (set E k v2 ttl2 (snd (set E k v1 ttl1 w))))) = Ok v2) /\
  (k <> k' ->
   clock E (S (S (clock_reads w))) <= clock E (clock_reads w) + ttl1 ->
   fst (get E k (snd (set E k' v' ttl' (snd (set E k v1 ttl1 w))))) = Ok v1).
Proof.
  intros H. split.
  - intros Hnow. rewrite !set_healthy by assumption. cbn [snd store clock_reads].
    rewrite (get_live E k _ (mkEntry v2 (clock E (S (clock_reads w)) + ttl2)
                                     (clock E (S (clock_reads w)))));
      [reflexivity | assumption | cbn [store]; apply lookup_insert_eq
       | cbn [clock_reads expiresAt]; exact Hnow].
  - intros Hne Hnow. rewrite !set_healthy by assumption. cbn [snd store clock_reads].
    rewrite (get_live E k _ (mkEntry v1 (clock E (clock_reads w) + ttl1)
                                     (clock E (clock_reads w))));
      [reflexivity | assumption | | cbn [clock_reads expiresAt]; exact Hnow].
    cbn [store]. rewrite lookup_insert_ne.
    + apply lookup_insert_eq.
    + intros Heq. apply getCacheKey_inj in Heq. congruence.
Qed.

Lemma set_last_write_wins_witness :
  fst (get offlineEnv "a"
           (snd (set offlineEnv "a" (VNum 2) 500
                     (snd (set offlineEnv "a" (VNum 1) 0 emptyWorld))))) = Ok (VNum 2) /\
  fst (get offlineEnv "a"
           (snd (set offlineEnv "b" (VNum 9) 500
                     (snd (set offlineEnv "a" (VNum 1) 500 emptyWorld))))) = Ok (VNum 1).
Proof.
  split.
  - destruct (set_last_write_wins offlineEnv "a" "b" (VNum 1) (VNum 2) (VNum 9) 0 500 500
                emptyWorld) as [Hsame _]; [intros n; reflexivity|].
    apply Hsame. simpl. lia.
  - destruct (set_last_write_wins offlineEnv "a" "b" (VNum 1) (VNum 2) (VNum 9) 500 500 500
                emptyWorld) as [_ Hother]; [intros n; reflexivity|].
    apply Hother; [discriminate | simpl; lia].
Defined.

(* ===================================================================== *)
(** ** More of the cache engine: [clear], [getStats] and eviction *)
(* ===================================================================== *)

Lemma clear_healthy E w :
  healthy E ->
  exists w', clear E w = (Ok tt, w') /\
             store w' = foldr delete (store w) (cacheKeysOf (store w)).
Proof.
  intros H. unfold clear, try_catch, bind. rewrite idbKeys_healthy by assumption.
  fold (listedCacheKeys E w).
  destruct (forOf_idbDel_healthy E (listedCacheKeys E w) H
              (mkWorld (store w) (clock_reads w) (S (idb_calls w)) (fetch_calls w) (timers w)))
    as (w' & Hrun & Hst).
  rewrite Hrun. exists w'. split; [reflexivity|]. rewrite Hst.
  apply foldr_delete_Permutation, listedCacheKeys_Permutation.
Qed.

Lemma cacheKeysOf_nil st :
  (forall k, isCacheKey k = true -> st !! k = None) -> cacheKeysOf st = [].
Proof.
  intros Hnone. destruct (cacheKeysOf st) as [|k ks] eqn:Hks; [reflexivity|].
  assert (k ∈ cacheKeysOf st) as Hk by (rewrite Hks; left).
  apply elem_of_cacheKeysOf in Hk as [Hc [entry Hentry]].
  rewrite (Hnone k Hc) in Hentry. discriminate.
Qed.

(** On a store that works, [clear] deletes every namespaced key and leaves
    every other key of the shared database as it is; [getStats] then
    reports an empty cache. *)
Theorem clear_empties_namespace_only E w :
  healthy E ->
  let w' := snd (clear E w) in
  fst (clear E w) = Ok tt /\
  (forall k, isCacheKey k = true -> store w' !! k = None) /\
  (forall k, isCacheKey k = false -> store w' !! k = store w !! k) /\
  fst (getStats E w') = Ok (mkStats 0 0 0).
Proof.
  intros H w'. subst w'.
  destruct (clear_healthy E w H) as (w' & Hrun & Hst). rewrite Hrun. cbn [fst snd].
  assert (forall k, isCacheKey k = true -> store w' !! k = None) as Hnone.
  { intros k Hc. rewrite Hst, lookup_foldr_delete.
    destruct (decide (k ∈ cacheKeysOf (store w))) as [|Hnot]; [reflexivity|].
    destruct (store w !! k) as [entry|] eqn:Hk; [|reflexivity].
    exfalso. apply Hnot, elem_of_cacheKeysOf. eauto. }
  split; [reflexivity|]. split; [exact Hnone|]. split.
  - intros k Hc. rewrite Hst, lookup_foldr_delete.
    destruct (decide (k ∈ cacheKeysOf (store w))) as [Hin|]; [|reflexivity].
    apply elem_of_cacheKeysOf in Hin as [Hc' _]. congruence.
  - rewrite getStats_healthy by assumption. unfold statsOf.
    rewrite (cacheKeysOf_nil (store w') Hnone). reflexivity.
Qed.

Lemma clear_empties_namespace_only_witness :
  store (snd (clear frozenEnv lruWorld)) !! getCacheKey "key1" = None /\
  store (snd (clear frozenEnv lruWorld)) !! "other-data" = Some (mkEntry (VNum 7) 0 0).
Proof.
  destruct (clear_empties_namespace_only frozenEnv lruWorld) as (_ & Hgone & Hkept & _).
  - intros n. reflexivity.
  - split; [apply Hgone; reflexivity|]. rewrite Hkept; reflexivity.
Defined.

Section Prunes.

Variable E : env.

Lemma prunes_ret {A} (P : A -> Prop) a : P a -> prunes P (ret a).
Proof.
  intros Ha w. cbn [ret fst snd]. split; [auto|]. split; [auto|].
  intros a' Heq. injection Heq as <-. exact Ha.
Qed.

Lemma prunes_weaken {A} (P Q : A -> Prop) m :
  (forall a, P a -> Q a) -> prunes P m -> prunes Q m.
Proof.
  intros HPQ Hm w. destruct (Hm w) as (H1 & H2 & H3). repeat split; auto.
Qed.

Lemma prunes_dateNow : prunes (fun _ => True) (dateNow E).
Proof. intros w. cbn [dateNow fst snd store]. auto. Qed.

Lemma prunes_idbGet k : prunes (fun _ => True) (idbGet E k).
Proof.
  intros w. run. destruct (idb_fault E (idb_calls w)); cbn [fst snd store]; auto.
Qed.

Lemma prunes_idbKeys :
  prunes (fun _ => True) (idbKeys E).
Proof.
  intros w. run. destruct (idb_fault E (idb_calls w)); cbn [fst snd store]; auto.
Qed.

Lemma prunes_idbDel k : isCacheKey k = true -> prunes (fun _ => True) (idbDel E k).
Proof.
  intros Hc w. run. destruct (idb_fault E (idb_calls w)); cbn [fst snd store]; [auto|].
  split; [|split; [|auto]].
  - intros k' Hk'. apply lookup_delete_ne. congruence.
  - intros k' entry Hk'. apply lookup_delete_Some in Hk' as [_ Hk']. exact Hk'.
Qed.

Lemma prunes_bind {A B} (P : A -> Prop) (Q : B -> Prop) (m : M world A) (f : A -> M world B) :
  prunes P m -> (forall a, P a -> prunes Q (f a)) -> prunes Q (bind m f).
Proof.
  intros Hm Hf w. unfold bind. destruct (Hm w) as (Hm1 & Hm2 & Hm3).
  destruct (m w) as [[a|e] w1]; cbn [fst snd] in *.
  - destruct (Hf a (Hm3 a eq_refl) w1) as (Hf1 & Hf2 & Hf3).
    split; [|split; [|exact Hf3]].
    + intros k Hk. rewrite (Hf1 k Hk). auto.
    + intros k entry Hk. auto.
  - split; [exact Hm1|]. split; [exact Hm2|]. intros b Hb. discriminate.
Qed.

Lemma prunes_rethrow {A} (P : A -> Prop) (m : M world A) :
  prunes P m -> prunes P (try_catch m (fun error => throw error)).
Proof.
  intros Hm w. unfold try_catch, throw. specialize (Hm w).
  destruct (m w) as [[a|e] w1]; exact Hm.
Qed.

Lemma prunes_forOf {A} (xs : list A) (body : A -> M world unit) :
  Forall (fun x => prunes (fun _ => True) (body x)) xs ->
  prunes (fun _ => True) (forOf xs body).
Proof.
  induction 1 as [|x xs Hx _ IH]; simpl.
  - apply prunes_ret. exact I.
  - eapply prunes_bind; [exact Hx | intros _ _; exact IH].
Qed.

Lemma prunes_collectEntries cacheKeys :
  Forall (fun k => isCacheKey k = true) cacheKeys ->
  forall entries,
    Forall namespaced entries ->
    prunes (Forall namespaced) (collectEntries E cacheKeys entries).
Proof.
  induction 1 as [|k ks Hk _ IH]; intros entries Hentries; simpl.
  - apply prunes_ret. exact Hentries.
  - eapply prunes_bind; [apply prunes_idbGet|]. intros [entry|] _; [|apply IH, Hentries].
    eapply prunes_bind; [apply prunes_dateNow|]. intros now _.
    destruct (now <=? expiresAt entry).
    + apply IH. apply Forall_app. split; [exact Hentries|]. repeat constructor. exact Hk.
    + eapply prunes_bind; [apply prunes_idbDel, Hk | intros _ _; apply IH, Hentries].
Qed.

Lemma Forall_isCacheKey_filter ks :
  Forall (fun k => isCacheKey k = true) (List.filter isCacheKey ks).
Proof.
  apply Forall_forall. intros k Hk. apply elem_of_filter in Hk as [_ Hk]. exact Hk.
Qed.

Lemma prunes_evictLRUIfNeeded maxEntries :
  prunes (fun _ => True) (evictLRUIfNeeded E maxEntries).
Proof.
  apply prunes_rethrow. eapply prunes_bind; [apply prunes_idbKeys|]. intros allKeys _.
  cbv zeta. destruct (num_leb _ maxEntries); [apply prunes_ret; exact I|].
  eapply prunes_bind.
  { apply prunes_collectEntries; [apply Forall_isCacheKey_filter | constructor]. }
  intros entries Hentries.
  destruct (num_gtb _ _); [|apply prunes_ret; exact I].
  apply prunes_forOf. apply Forall_fmap, Forall_take.
  rewrite sortByLastAccess_Permutation.
  eapply Forall_impl; [exact Hentries|]. intros c Hc. apply prunes_idbDel. exact Hc.
Qed.

Lemma prunes_clear : prunes (fun _ => True) (clear E).
Proof.
  apply prunes_rethrow. eapply prunes_bind; [apply prunes_idbKeys|]. intros allKeys _.
  apply prunes_forOf.
  eapply Forall_impl; [apply Forall_isCacheKey_filter|].
  intros k Hk. apply prunes_idbDel. exact Hk.
Qed.

End Prunes.

(** Whatever the store does and wherever a failure stops them,
    [evictLRUIfNeeded] and [clear] only delete, and only namespaced keys:
    a key outside the namespace keeps its entry, and every entry left in
    the database was there before, unchanged. *)
Theorem maintenance_only_deletes_namespaced E maxEntries w k :
  (isCacheKey k = false ->
   store (snd (evictLRUIfNeeded E maxEntries w)) !! k = store w !! k /\
   store (snd (clear E w)) !! k = store w !! k) /\
  (forall entry,
      store (snd (evictLRUIfNeeded E maxEntries w)) !! k = Some entry ->
      store w !! k = Some entry) /\
  (forall entry,
      store (snd (clear E w)) !! k = Some entry -> store w !! k = Some entry).
Proof.
  destruct (prunes_evictLRUIfNeeded E maxEntries w) as (He1 & He2 & _).
  destruct (prunes_clear E w) as (Hc1 & Hc2 & _).
  split; [|split].
  - intros Hk. split; [apply He1 | apply Hc1]; exact Hk.
  - apply He2.
  - apply Hc2.
Qed.

Lemma maintenance_only_deletes_namespaced_witness :
  store (snd (evictLRUIfNeeded frozenEnv (ofZ 0) lruWorld)) !! "other-data"
  = Some (mkEntry (VNum 7) 0 0).
Proof.
  destruct (maintenance_only_deletes_namespaced frozenEnv (ofZ 0) lruWorld "other-data")
    as (Hforeign & _ & _).
  destruct Hforeign as [Hevict _]; [reflexivity|]. rewrite Hevict. reflexivity.
Defined.

Section ReadsOnly.

Variable E : env.

Lemma reads_ret {A} (a : A) : reads_only (ret a).
Proof. intros w. reflexivity. Qed.

Lemma reads_dateNow : reads_only (dateNow E).
Proof. intros w. reflexivity. Qed.

Lemma reads_idbGet k : reads_only (idbGet E k).
Proof. intros w. run. destruct (idb_fault E (idb_calls w)); reflexivity. Qed.

Lemma reads_idbKeys : reads_only (idbKeys E).
Proof. intros w. run. destruct (idb_fault E (idb_calls w)); reflexivity. Qed.

Lemma reads_bind {A B} (m : M world A) (f : A -> M world B) :
  reads_only m -> (forall a, reads_only (f a)) -> reads_only (bind m f).
Proof.
  intros Hm Hf w. unfold bind. specialize (Hm w).
  destruct (m w) as [[a|e] w1]; cbn [snd] in *; [|exact Hm].
  rewrite (Hf a w1). exact Hm.
Qed.

Lemma reads_try_catch {A} (m : M world A) (h : exn -> M world A) :
  reads_only m -> (forall e, reads_only (h e)) -> reads_only (try_catch m h).
Proof.
  intros Hm Hh w. unfold try_catch. specialize (Hm w).
  destruct (m w) as [[a|e] w1]; cbn [snd] in *; [exact Hm|].
  rewrite (Hh e w1). exact Hm.
Qed.

Lemma reads_countEntries now ks :
  forall expired valid, reads_only (countEntries E now ks expired valid).
Proof.
  induction ks as [|k ks IH]; intros expired valid; simpl; [apply reads_ret|].
  apply reads_bind; [apply reads_idbGet|]. intros [entry|]; [|apply IH].
  destruct (now >? expiresAt entry); apply IH.
Qed.

Lemma reads_getStats : reads_only (getStats E).
Proof.
  apply reads_try_catch; [|intros e; apply reads_ret].
  apply reads_bind; [apply reads_idbKeys|]. intros allKeys.
  apply reads_bind; [apply reads_dateNow|]. intros now.
  apply reads_bind; [apply reads_countEntries | intros counts; apply reads_ret].
Qed.

Lemma surfaces_countEntries now ks :
  forall expired valid, surfaces E (countEntries E now ks expired valid).
Proof.
  induction ks as [|k ks IH]; intros expired valid; simpl; [apply surfaces_ret|].
  apply surfaces_bind; [apply surfaces_idb|]. intros [entry|]; [|apply IH].
  destruct (now >? expiresAt entry); apply IH.
Qed.

End ReadsOnly.

(** Whatever the store does, [getStats] returns normally and leaves the
    database as it is (expired entries are counted, not deleted); when one
    of its store calls fails it reports zero entries. *)
Theorem getStats_reads_only_and_never_fails E w :
  (exists stats w', getStats E w = (Ok stats, w') /\ store w' = store w) /\
  (forall n e, made_call w (snd (getStats E w)) n -> idb_fault E n = Some e ->
               fst (getStats E w) = Ok (mkStats 0 0 0)).
Proof.
  split.
  - pose proof (reads_getStats E w) as Hst.
    unfold getStats, try_catch in *.
    destruct (bind (idbKeys E) _ w) as [[stats|e] w1]; cbn [ret snd] in *; eauto.
  - intros n e Hn Hfault. unfold getStats, try_catch in *.
    match goal with
    | |- context [bind (idbKeys E) ?f w] =>
        assert (surfaces E (bind (idbKeys E) f)) as Hs
    end.
    { apply surfaces_bind; [apply surfaces_idbKeys|]. intros allKeys.
      apply surfaces_bind; [apply surfaces_dateNow|]. intros now.
      apply surfaces_bind; [apply surfaces_countEntries | intros c; apply surfaces_ret]. }
    destruct (Hs w) as [_ Hprop].
    destruct (bind (idbKeys E) _ w) as [[stats|e'] w1]; cbn [ret fst snd] in *.
    + specialize (Hprop n e Hn Hfault). discriminate.
    + reflexivity.
Qed.

Lemma getStats_reads_only_and_never_fails_witness :
  fst (getStats brokenStoreEnv lruWorld) = Ok (mkStats 0 0 0).
Proof.
  destruct (getStats_reads_only_and_never_fails brokenStoreEnv lruWorld) as [_ H].
  apply (H 0%nat storeError); [unfold made_call; simpl; lia | reflexivity].
Defined.

Lemma expired_live_partition st now ks :
  (forall k, k ∈ ks -> is_Some (st !! k)) ->
  (length (List.filter (expiredIn st now) ks)
   + length (List.filter (liveIn st now) ks))%nat = length ks.
Proof.
  induction ks as [|k ks IH]; intros Hks; [reflexivity|].
  cbn [List.filter]. unfold expiredIn at 1, liveIn at 1.
  destruct (Hks k ltac:(left)) as [entry ->].
  assert (forall k', k' ∈ ks -> is_Some (st !! k')) as Hks' by (intros; apply Hks; right; auto).
  specialize (IH Hks').
  destruct (now >? expiresAt entry); cbn [negb length]; lia.
Qed.

(** On a store that works, [getStats] counts every namespaced key once:
    the total is the number of namespaced keys, and each of them is
    counted either as expired (its expiry is before the time read) or as
    valid, so the two counts add up to the total. *)
Theorem getStats_counts_partition E w :
  healthy E ->
  exists stats,
    fst (getStats E w) = Ok stats /\
    totalEntries stats = length (cacheKeysOf (store w)) /\
    expiredEntries stats = length (expiredKeys (store w) (clock E (clock_reads w))) /\
    validEntries stats = length (liveKeys (store w) (clock E (clock_reads w))) /\
    (expiredEntries stats + validEntries stats)%nat = totalEntries stats.
Proof.
  intros H. exists (statsOf (store w) (clock E (clock_reads w))).
  split; [apply getStats_healthy, H|]. unfold statsOf. cbn [totalEntries expiredEntries validEntries].
  repeat split. apply expired_live_partition.
  intros k Hk. apply elem_of_cacheKeysOf in Hk as [_ Hk]. exact Hk.
Qed.

Lemma getStats_counts_partition_witness :
  exists stats,
    fst (getStats frozenEnv lruWorld) = Ok stats /\
    totalEntries stats = 5%nat /\ expiredEntries stats = 1%nat /\ validEntries stats = 4%nat.
Proof.
  destruct (getStats_counts_partition frozenEnv lruWorld) as (stats & Hrun & Ht & He & Hv & _).
  - intros n. reflexivity.
  - exists stats. split; [exact Hrun|]. rewrite Ht, He, Hv. vm_compute. auto.
Defined.

Lemma cacheKeysOf_foldr_delete st ks :
  NoDup ks ->
  (forall k, k ∈ ks -> k ∈ cacheKeysOf st) ->
  (length (cacheKeysOf (foldr delete st ks)) + length ks)%nat = length (cacheKeysOf st).
Proof.
  induction 1 as [|k ks Hk Hnd IH]; intros Hsub; simpl; [lia|].
  assert (forall k', k' ∈ ks -> k' ∈ cacheKeysOf st) as Hsub'
    by (intros; apply Hsub; right; auto).
  specialize (IH Hsub').
  destruct (proj1 (elem_of_cacheKeysOf st k) (Hsub k ltac:(left))) as [Hc [entry Hentry]].
  assert (foldr delete st ks !! k = Some entry) as Hstill.
  { rewrite lookup_foldr_delete. rewrite decide_False by exact Hk. exact Hentry. }
  pose proof (cacheKeysOf_delete _ k entry Hstill Hc) as Hp.
  apply Permutation_length in Hp. simpl in Hp. lia.
Qed.

Lemma expired_not_live st now k : k ∈ expiredKeys st now -> k ∈ liveKeys st now -> False.
Proof.
  rewrite elem_of_expiredKeys, elem_of_liveKeys.
  intros (_ & e & He & Hexp) (_ & e' & He' & Hlive). rewrite He in He'.
  injection He' as <-. lia.
Qed.

Lemma evicted_expired_NoDup st now maxEntries ks :
  ks ≡ₚ cacheKeysOf st ->
  NoDup (evictedKeys st now maxEntries ks ++ expiredKeys st now).
Proof.
  intros Hks. apply NoDup_app. split; [apply evictedKeys_NoDup, Hks|]. split.
  - intros k Hev Hexp. apply (evictedKeys_sublist _ _ _ _ Hks) in Hev.
    exact (expired_not_live st now k Hexp Hev).
  - unfold expiredKeys. apply NoDup_ListNoDup, List.NoDup_filter, NoDup_ListNoDup.
    apply cacheKeysOf_NoDup.
Qed.

(** What a pass leaves of the namespaced keys: the live ones that were not
    evicted. *)
Lemma remaining_count st now maxEntries ks :
  ks ≡ₚ cacheKeysOf st ->
  (length (cacheKeysOf (foldr delete (foldr delete st (expiredKeys st now))
                              (evictedKeys st now maxEntries ks)))
   + evictCount (length (liveKeys st now)) maxEntries)%nat
  = length (liveKeys st now).
Proof.
  intros Hks. rewrite <- foldr_app.
  pose proof (cacheKeysOf_foldr_delete st
                (evictedKeys st now maxEntries ks ++ expiredKeys st now)
                (evicted_expired_NoDup st now maxEntries ks Hks)) as Hlen.
  rewrite length_app in Hlen.
  pose proof (evictedKeys_length st now maxEntries ks Hks) as Hev.
  pose proof (expired_live_partition st now (cacheKeysOf st)) as Hpart.
  fold (expiredKeys st now) (liveKeys st now) in Hpart.
  rewrite <- Hpart in Hlen.
  - assert ((length (cacheKeysOf (foldr delete st
               (evictedKeys st now maxEntries ks ++ expiredKeys st now)))
             + (length (evictedKeys st now maxEntries ks)
                + length (expiredKeys st now)))%nat
            = (length (expiredKeys st now) + length (liveKeys st now))%nat) as Heq.
    { apply Hlen. intros k Hk. apply elem_of_app in Hk as [Hk|Hk].
      - apply (evictedKeys_sublist _ _ _ _ Hks) in Hk. unfold liveKeys in Hk.
        apply elem_of_filter in Hk as [Hk _]. exact Hk.
      - unfold expiredKeys in Hk. apply elem_of_filter in Hk as [Hk _]. exact Hk. }
    lia.
  - intros k Hk. apply elem_of_cacheKeysOf in Hk as [_ Hk]. exact Hk.
Qed.

(** On a store that works, with the clock at [now] throughout the pass and
    a finite limit that is not negative: after [evictLRUIfNeeded] no more
    namespaced keys are left than the limit rounded up to an integer.
    When the limit is an integer, that is the limit itself, and a second
    pass changes nothing. *)
Theorem evictLRUIfNeeded_bounds_size E q w now :
  healthy E ->
  (forall i, (i < length (cacheKeysOf (store w)))%nat ->
             clock E (clock_reads w + i) = now) ->
  Qle_bool (inject_Z 0) q = true ->
  let w' := snd (evictLRUIfNeeded E (Finite q) w) in
  Z.of_nat (length (cacheKeysOf (store w'))) <= Qceiling q /\
  (forall limit,
      isInteger (Finite q) limit ->
      Z.of_nat (length (cacheKeysOf (store w'))) <= limit /\
      fst (evictLRUIfNeeded E (Finite q) w') = Ok tt /\
      store (snd (evictLRUIfNeeded E (Finite q) w')) = store w').
Proof.
  intros H Hclock Hq w'. subst w'.
  destruct (evictLRUIfNeeded_healthy E (Finite q) w now H Hclock) as (w' & Hrun & Hst).
  rewrite Hrun. cbn [snd].
  assert (Z.of_nat (length (cacheKeysOf (store w'))) <= Qceiling q) as Hbound.
  { rewrite Hst.
    destruct (num_leb (ofZ (Z.of_nat (length (cacheKeysOf (store w))))) (Finite q)) eqn:Hguard.
    - unfold num_leb, ofZ in Hguard. apply Qle_bool_imp_le, Qceiling_resp_le in Hguard.
      rewrite Qceiling_Z in Hguard. exact Hguard.
    - pose proof (remaining_count (store w) now (Finite q) (listedCacheKeys E w)
                    (listedCacheKeys_Permutation E w)) as Hleft.
      destruct (num_leb (ofZ (Z.of_nat (length (liveKeys (store w) now)))) (Finite q))
        eqn:Hlive.
      + rewrite (evictCount_within _ _ Hlive) in Hleft.
        unfold num_leb, ofZ in Hlive. apply Qle_bool_imp_le, Qceiling_resp_le in Hlive.
        rewrite Qceiling_Z in Hlive. lia.
      + pose proof (evictCount_ceiling _ _ Hq Hlive). lia. }
  split; [exact Hbound|].
  intros limit Hint.
  destruct (isInteger_Finite _ _ Hint) as (q' & Heq & Hlimit). injection Heq as <-.
  rewrite (Qceiling_comp _ _ Hlimit), Qceiling_Z in Hbound.
  split; [exact Hbound|].
  unfold evictLRUIfNeeded, try_catch, bind. rewrite idbKeys_healthy by assumption.
  fold (listedCacheKeys E w'). rewrite listedCacheKeys_length.
  rewrite (isInteger_leb _ _ _ Hint).
  destruct (Z.leb_spec (Z.of_nat (length (cacheKeysOf (store w')))) limit); [|lia].
  split; reflexivity.
Qed.

Lemma evictLRUIfNeeded_bounds_size_witness :
  Z.of_nat (length (cacheKeysOf (store (snd (evictLRUIfNeeded frozenEnv (Finite (5 # 2))
                                                              lruWorld)))))
  <= 3.
Proof.
  destruct (evictLRUIfNeeded_bounds_size frozenEnv (5 # 2) lruWorld 2000) as (Hbound & _).
  - intros n. reflexivity.
  - intros i _. reflexivity.
  - reflexivity.
  - exact Hbound.
Defined.

Lemma exists_not_evicted (live evicted : list string) :
  NoDup live ->
  (length evicted < length live)%nat ->
  exists k, k ∈ live /\ k ∉ evicted.
Proof.
  intros Hnd Hlen.
  destruct (decide (Forall (fun k => k ∈ evicted) live)) as [Hall|Hnot].
  - exfalso. assert (live ⊆+ evicted) as Hsub.
    { apply NoDup_submseteq; [exact Hnd|]. intros k Hk.
      exact (proj1 (Forall_forall _ _) Hall k Hk). }
    apply submseteq_length in Hsub. lia.
  - apply not_Forall_Exists in Hnot; [|intros k; apply _].
    apply Exists_exists in Hnot as (k & Hk & Hnotin). eauto.
Qed.

(** On a store that works, with the clock at [now] throughout the pass and
    a limit of at least one: the live entry that was accessed later than
    every other live entry is never evicted. *)
Theorem evictLRUIfNeeded_keeps_most_recent E maxEntries w now k entry :
  healthy E ->
  (forall i, (i < length (cacheKeysOf (store w)))%nat ->
             clock E (clock_reads w + i) = now) ->
  num_leb (ofZ 1) maxEntries = true ->
  isCacheKey k = true ->
  store w !! k = Some entry ->
  now <= expiresAt entry ->
  (forall k' entry', k' <> k -> k' ∈ liveKeys (store w) now ->
                     store w !! k' = Some entry' ->
                     lastAccess entry' < lastAccess entry) ->
  store (snd (evictLRUIfNeeded E maxEntries w)) !! k = Some entry.
Proof.
  intros H Hclock Hmax Hc Hk Hlive Hnewest.
  destruct (evictLRUIfNeeded_healthy E maxEntries w now H Hclock) as (w' & Hrun & Hst).
  rewrite Hrun. cbn [snd]. rewrite Hst.
  destruct (num_leb (ofZ (Z.of_nat (length (cacheKeysOf (store w))))) maxEntries);
    [exact Hk|].
  rewrite !lookup_foldr_delete.
  assert (k ∈ liveKeys (store w) now) as Hklive by (apply elem_of_liveKeys; eauto).
  rewrite decide_False; [rewrite decide_False; [exact Hk|]|].
  - intros Hexp. exact (expired_not_live _ _ _ Hexp Hklive).
  - intros Hev.
    pose proof (listedCacheKeys_Permutation E w) as Hks.
    destruct (exists_not_evicted (liveKeys (store w) now)
                (evictedKeys (store w) now maxEntries (listedCacheKeys E w)))
      as (k' & Hk' & Hnot).
    + unfold liveKeys. apply NoDup_ListNoDup, List.NoDup_filter, NoDup_ListNoDup.
      apply cacheKeysOf_NoDup.
    + rewrite (evictedKeys_length _ _ _ _ Hks). apply evictCount_lt; [exact Hmax|].
      destruct (liveKeys (store w) now); [inversion Hklive | simpl; lia].
    + destruct (proj1 (elem_of_liveKeys _ _ _) Hk') as (_ & entry' & Hentry' & _).
      assert (k' <> k) as Hne by (intros ->; contradiction).
      pose proof (Hnewest k' entry' Hne Hk' Hentry') as Hlt.
      pose proof (evictedKeys_oldest (store w) now maxEntries _ Hks k k' entry entry'
                    Hev Hk' Hnot Hk Hentry') as Hle.
      lia.
Qed.

Lemma evictLRUIfNeeded_keeps_most_recent_witness :
  store (snd (evictLRUIfNeeded frozenEnv (ofZ 1) lruWorld)) !! getCacheKey "key3"
  = Some (mkEntry (VStr "value3") 60000 1030).
Proof.
  apply (evictLRUIfNeeded_keeps_most_recent frozenEnv (ofZ 1) lruWorld 2000).
  - intros n. reflexivity.
  - intros i _. reflexivity.
  - reflexivity.
  - reflexivity.
  - reflexivity.
  - simpl. lia.
  - intros k' entry' Hne Hlive Hentry.
    replace (liveKeys (store lruWorld) 2000)
      with [getCacheKey "key3"; getCacheKey "key1"; getCacheKey "key2"; getCacheKey "key4"]
      in Hlive by (vm_compute; reflexivity).
    repeat match goal with
           | H : _ ∈ _ :: _ |- _ => apply elem_of_cons in H as [->|H]
           | H : _ ∈ [] |- _ => inversion H
           end;
      try (exfalso; apply Hne; reflexivity);
      vm_compute in Hentry; injection Hentry as <-; simpl; lia.
Defined.

(* ===================================================================== *)
(** ** More of the backoff utility and of the fetch helper *)
(* ===================================================================== *)

Lemma retryLog_totalWait {A} base maxDelay attempt failures (final : result A) :
  0 <= maxDelay ->
  totalWait (retryLog base maxDelay attempt failures final)
  <= Z.of_nat (length failures) * maxDelay /\
  invocations (retryLog base maxDelay attempt failures final) = S (length failures).
Proof.
  intros Hmax. revert attempt.
  induction failures as [|e failures IH]; intros attempt; cbn [retryLog totalWait invocations length].
  - split; [lia | reflexivity].
  - destruct (IH (attempt + 1)) as [Hw Hi]. split; [|rewrite Hi; reflexivity].
    pose proof (Z.le_min_r (base * 2 ^ attempt) maxDelay). lia.
Qed.

(** With a [maxRetries] that is an integer and not negative, and a
    [maxDelayMs] that is not negative, a run of [withBackoff] invokes the
    operation at least once and at most [maxRetries + 1] times, and all its
    waits together take at most [maxRetries * maxDelayMs]. *)
Theorem withBackoff_bounded {S A} `{Timer S} (operation : M S A)
    (options : BackoffOptions) (Hbounded : bounded options) (retries : Z) (s : S) :
  let maxDelayMs := default 2000 (maxDelayMs options) in
  let log := snd (snd (withBackoff (logged operation) options Hbounded (s, []))) in
  isInteger (default (ofZ 2) (maxRetries options)) retries ->
  0 <= retries ->
  0 <= maxDelayMs ->
  (1 <= invocations log)%nat /\
  Z.of_nat (invocations log) <= retries + 1 /\
  totalWait log <= retries * maxDelayMs.
Proof.
  intros maxDelayMs log Hint Hretries Hdelay. subst log. unfold withBackoff.
  fold maxDelayMs. rewrite (isInteger_loopTests _ _ Hint). cbn [default from_option id].
  destruct (backoffLoop_log operation (default (ofZ 2) (maxRetries options))
              (default 100 (baseDelayMs options)) maxDelayMs retries
              (Datatypes.S (Z.to_nat (retries + 1))) Hint 0 (Thrown VUndef) s [])
    as (failures & final & Hlog & Hlen & _); [lia | lia |].
  rewrite Hlog. cbn [app].
  destruct (retryLog_totalWait (default 100 (baseDelayMs options)) maxDelayMs 0 failures final
              Hdelay) as [Hwait Hinv].
  rewrite Hinv. split; [lia|]. split; [lia|]. nia.
Qed.

Lemma withBackoff_bounded_witness :
  totalWait (snd (snd (withBackoff (logged failsTwice)
                                   (mkOptions (Some (ofZ 2)) (Some 1000) (Some 500))
                                   (ex_intro _ 4%nat eq_refl)
                                   ((0%nat, emptyWorld), []))))
  <= 2 * 500.
Proof.
  destruct (withBackoff_bounded failsTwice (mkOptions (Some (ofZ 2)) (Some 1000) (Some 500))
              (ex_intro _ 4%nat eq_refl) 2 (0%nat, emptyWorld))
    as (_ & _ & Hwait); [reflexivity | lia | simpl; lia |].
  exact Hwait.
Defined.

Lemma get_timers E k w : timers (snd (get E k w)) = timers w.
Proof.
  run. destruct (idb_fault E (idb_calls w)); [reflexivity|].
  destruct (store w !! getCacheKey k) as [entry|]; [|reflexivity]. run.
  destruct (clock E (clock_reads w) >? expiresAt entry); run;
    destruct (idb_fault E (S (idb_calls w))); reflexivity.
Qed.

Lemma set_fetch_calls_timers E k v ttl w :
  fetch_calls (snd (set E k v ttl w)) = fetch_calls w /\
  timers (snd (set E k v ttl w)) = timers w.
Proof. run. destruct (idb_fault E (idb_calls w)); split; reflexivity. Qed.

(** What three default attempts of an operation do, when each invocation
    makes exactly one fetch and sets no timer of its own. *)
Lemma withBackoff_default_requests {A} (operation : M world A) w :
  (forall w0, fetch_calls (snd (operation w0)) = S (fetch_calls w0) /\
              timers (snd (operation w0)) = timers w0) ->
  let w' := snd (withBackoff operation noOptions bounded_noOptions w) in
  ((fetch_calls w' = S (fetch_calls w) /\ timers w' = timers w) \/
   (fetch_calls w' = S (S (fetch_calls w)) /\ timers w' = timers w ++ [100]) \/
   (fetch_calls w' = S (S (S (fetch_calls w))) /\ timers w' = timers w ++ [100; 200])) /\
  (forall e, fst (withBackoff operation noOptions bounded_noOptions w) = Err e ->
             fetch_calls w' = S (S (S (fetch_calls w)))).
Proof.
  intros Hop w'. subst w'. rewrite withBackoff_noOptions.
  cbn [backoffLoop].
  change (0 + 1 + 1) with 2. change (0 + 1) with 1.
  change (num_leb (ofZ 0) (ofZ 2)) with true. change (num_leb (ofZ 1) (ofZ 2)) with true.
  change (num_leb (ofZ 2) (ofZ 2)) with true.
  change (num_eqb (ofZ 0) (ofZ 2)) with false. change (num_eqb (ofZ 1) (ofZ 2)) with false.
  change (num_eqb (ofZ 2) (ofZ 2)) with true.
  change (Z.min (100 * 2 ^ 0) 2000) with 100. change (Z.min (100 * 2 ^ 1) 2000) with 200.
  cbv beta iota. unfold try_catch, bind, sleep, throw.
  destruct (Hop w) as [Hf1 Ht1].
  destruct (operation w) as [[a|e1] w1]; cbn [fst snd] in *.
  { split; [left; split; assumption | intros e He; discriminate]. }
  set (s1 := setTimeout 100 w1).
  destruct (Hop s1) as [Hf2 Ht2].
  destruct (operation s1) as [[a|e2] w2]; cbn [fst snd] in *.
  { split; [|intros e He; discriminate]. right. left. subst s1.
    cbn [setTimeout world_Timer fetch_calls timers] in *. split; congruence. }
  set (s2 := setTimeout 200 w2).
  destruct (Hop s2) as [Hf3 Ht3].
  assert (fetch_calls s2 = S (S (fetch_calls w)) /\ timers s2 = timers w ++ [100; 200])
    as [Hfs Hts].
  { subst s1 s2. cbn [setTimeout world_Timer fetch_calls timers] in *.
    split; [congruence|]. rewrite Ht2, Ht1, <- app_assoc. reflexivity. }
  destruct (operation s2) as [[a|e3] w3]; cbn [fst snd] in *.
  - split; [|intros e He; discriminate]. right. right. split; congruence.
  - split; [right; right; split; congruence | intros e _; congruence].
Qed.

(** Whatever the store and the network do, one [fetchWithETag] makes one,
    two or three requests, waiting 100 ms before the second and 200 ms
    before the third; it fails only after three requests. *)
Theorem fetchWithETag_at_most_three_requests E url w :
  let w' := snd (fetchWithETag E url w) in
  ((fetch_calls w' = S (fetch_calls w) /\ timers w' = timers w) \/
   (fetch_calls w' = S (S (fetch_calls w)) /\ timers w' = timers w ++ [100]) \/
   (fetch_calls w' = S (S (S (fetch_calls w))) /\ timers w' = timers w ++ [100; 200])) /\
  (forall e, fst (fetchWithETag E url w) = Err e ->
             fetch_calls w' = S (S (S (fetch_calls w)))).
Proof.
  intros w'. subst w'.
  pose (Q := fun p : result Response * world =>
               ((fetch_calls (snd p) = S (fetch_calls w) /\ timers (snd p) = timers w) \/
                (fetch_calls (snd p) = S (S (fetch_calls w))
                 /\ timers (snd p) = timers w ++ [100]) \/
                (fetch_calls (snd p) = S (S (S (fetch_calls w)))
                 /\ timers (snd p) = timers w ++ [100; 200])) /\
               (forall e, fst p = Err e -> fetch_calls (snd p) = S (S (S (fetch_calls w))))).
  change (Q (fetchWithETag E url w)).
  unfold fetchWithETag, bind at 1.
  pose proof (get_fetch_calls E (CACHE_KEYS_etag url) w) as Hf.
  pose proof (get_timers E (CACHE_KEYS_etag url) w) as Ht.
  destruct (get_total E (CACHE_KEYS_etag url) w) as (cachedETag & w1 & Hget).
  rewrite Hget in *. cbn [snd] in Hf, Ht. unfold Q. rewrite <- Hf, <- Ht.
  apply withBackoff_default_requests. intros w0.
  unfold bind, fetch.
  destruct (network E (fetch_calls w0) _) as [response|e]; [|split; reflexivity].
  destruct (etagHeader response) as [etag|]; [|split; reflexivity].
  destruct (truthy (VStr etag)); [|split; reflexivity].
  pose proof (set_fetch_calls_timers E (CACHE_KEYS_etag url) (VStr etag) CACHE_TTL_etag
                (mkWorld (store w0) (clock_reads w0) (idb_calls w0) (S (fetch_calls w0))
                         (timers w0))) as [Hsf Hst].
  destruct (set E (CACHE_KEYS_etag url) (VStr etag) CACHE_TTL_etag _) as [[[]|e] w2];
    cbn [fst snd fetch_calls timers] in *; split; assumption.
Qed.

Lemma fetchWithETag_at_most_three_requests_witness :
  fetch_calls (snd (fetchWithETag offlineEnv "/api/species/a" emptyWorld)) = 3%nat.
Proof.
  destruct (fetchWithETag_at_most_three_requests offlineEnv "/api/species/a" emptyWorld)
    as [_ Hfail].
  apply (Hfail fetchError). reflexivity.
Defined.




(* ===================================================================== *)
(** ** The bundled-dataset lookup *)
(* ===================================================================== *)

Lemma assign_own_other o key v k :
  k <> key -> own (assign o key v) !! k = own o !! k.
Proof.
  intros Hne. unfold assign. destruct (_ && _).
  - destruct v; reflexivity.
  - cbn [own]. apply lookup_insert_ne. congruence.
Qed.

Lemma assign_named o key v :
  key <> "__proto__" -> assign o key v = mkObject (<[key := v]> (own o)) (prototype o).
Proof.
  intros Hne. unfold assign.
  destruct (String.eqb_spec key "__proto__"); [contradiction | reflexivity].
Qed.

(** A value filed under [__proto__] has that string as its [id]: it is an
    object with fields. *)
Lemma assign_proto_record species :
  idKey species = "__proto__" -> exists fields, species = VObj fields.
Proof.
  unfold idKey. destruct species as [| |b|n|s|items|fields|f arity]; try discriminate.
  eauto.
Qed.

Section Lookup.

Variable coreSpecies : list val.

Lemma fold_own_other items o k :
  k ∉ map idKey items -> own (foldl fileRecord o items) !! k = own o !! k.
Proof.
  revert o. induction items as [|x items IH]; intros o Hk; [reflexivity|].
  cbn [foldl]. rewrite IH.
  - apply assign_own_other. intros ->. apply Hk. left.
  - intros Hin. apply Hk. right. exact Hin.
Qed.

Lemma fold_prototype items o :
  "__proto__" ∉ map idKey items -> prototype (foldl fileRecord o items) = prototype o.
Proof.
  revert o. induction items as [|x items IH]; intros o Hk; [reflexivity|].
  cbn [foldl]. rewrite IH.
  - unfold fileRecord. rewrite assign_named; [reflexivity|].
    intros Heq. apply Hk. rewrite <- Heq. left.
  - intros Hin. apply Hk. right. exact Hin.
Qed.

(** An own property of the lookup object is a record filed under its
    identifier. *)
Lemma fold_own_record items o k v :
  own (foldl fileRecord o items) !! k = Some v ->
  own o !! k = Some v \/ (v ∈ items /\ idKey v = k).
Proof.
  revert o. induction items as [|x items IH]; intros o Hv; [left; exact Hv|].
  cbn [foldl] in Hv. destruct (IH _ Hv) as [Hstep|[Hin Hid]].
  - destruct (decide (k = idKey x)) as [->|Hne].
    + unfold fileRecord, assign in Hstep. destruct (_ && _).
      * left. destruct x; exact Hstep.
      * cbn [own] in Hstep. rewrite lookup_insert_eq in Hstep. injection Hstep as <-.
        right. split; [left | reflexivity].
    + left. unfold fileRecord in Hstep. rewrite assign_own_other in Hstep by exact Hne.
      exact Hstep.
  - right. split; [right; exact Hin | exact Hid].
Qed.

Lemma fold_found items o species :
  NoDup (map idKey items) ->
  species ∈ items ->
  idKey species <> "__proto__" ->
  own (foldl fileRecord o items) !! idKey species = Some species.
Proof.
  revert o. induction items as [|x items IH]; intros o Hnd Hin Hne; [inversion Hin|].
  cbn [map] in Hnd. apply NoDup_cons in Hnd as [Hx Hnd]. cbn [foldl].
  apply elem_of_cons in Hin as [->|Hin].
  - rewrite fold_own_other by exact Hx. unfold fileRecord. rewrite assign_named by exact Hne.
    cbn [own]. apply lookup_insert_eq.
  - apply IH; assumption.
Qed.

Lemma fold_proto_found items o species fields :
  NoDup (map idKey items) ->
  species ∈ items ->
  idKey species = "__proto__" ->
  species = VObj fields ->
  own o !! "__proto__" = None ->
  prototype o = None ->
  own (foldl fileRecord o items) !! "__proto__" = None /\
  prototype (foldl fileRecord o items) = Some fields.
Proof.
  revert o. induction items as [|x items IH]; intros o Hnd Hin Hid Hfields Hown Hproto;
    [inversion Hin|].
  cbn [map] in Hnd. apply NoDup_cons in Hnd as [Hx Hnd]. cbn [foldl].
  apply elem_of_cons in Hin as [->|Hin].
  - rewrite Hid in Hx. rewrite fold_own_other, fold_prototype by exact Hx.
    unfold fileRecord, assign, reachesProtoAccessor. rewrite Hid, Hown, Hproto, Hfields.
    cbn [String.eqb Ascii.eqb Bool.eqb andb own prototype]. auto.
  - assert (idKey x <> "__proto__") as Hne.
    { intros Heq. apply Hx. rewrite Heq, <- Hid. apply list_elem_of_fmap. eauto. }
    apply IH; try assumption.
    + unfold fileRecord. rewrite assign_own_other by (intros Heq; apply Hne; auto). exact Hown.
    + unfold fileRecord. rewrite assign_named by exact Hne. exact Hproto.
Qed.

Lemma lookup_field_absent name fields :
  name ∉ map fst fields -> lookup_field name fields = VUndef.
Proof.
  induction fields as [|[k v] fields IH]; intros Hname; [reflexivity|].
  cbn [lookup_field]. destruct (String.eqb_spec k name) as [->|Hne].
  - exfalso. apply Hname. left.
  - apply IH. intros Hin. apply Hname. right. exact Hin.
Qed.

Lemma getCoreSpeciesById_unfold id :
  getCoreSpeciesById coreSpecies (VStr id)
  = readProperty (foldl fileRecord emptyObject coreSpecies) id.
Proof. reflexivity. Qed.

(** Under a name the lookup object inherits nothing for, the lookup gives
    a record filed under that name, or [undefined]. *)
Lemma getCoreSpeciesById_own id :
  namesNoInherited coreSpecies id ->
  getCoreSpeciesById coreSpecies (VStr id) = VUndef \/
  recordOf coreSpecies id (getCoreSpeciesById coreSpecies (VStr id)).
Proof.
  intros [Hname Hproto]. rewrite getCoreSpeciesById_unfold. unfold readProperty.
  destruct (own (foldl fileRecord emptyObject coreSpecies) !! id) as [v|] eqn:Hown.
  - right. apply fold_own_record in Hown as [Hempty|Hrecord]; [|exact Hrecord].
    cbn [own emptyObject] in Hempty. rewrite lookup_empty in Hempty. discriminate.
  - left. rewrite fold_prototype by exact Hproto. cbn [prototype emptyObject].
    destruct (String.eqb_spec id "__proto__") as [->|_].
    + exfalso. apply Hname. left.
    + apply lookup_field_absent. intros Hin. apply Hname. right. exact Hin.
Qed.

Lemma getCoreSpeciesById_absent id :
  id ∉ map idKey coreSpecies ->
  namesNoInherited coreSpecies id ->
  getCoreSpeciesById coreSpecies (VStr id) = VUndef.
Proof.
  intros Hid Hnames.
  destruct (getCoreSpeciesById_own id Hnames) as [Hundef|[Hin Hkey]]; [exact Hundef|].
  exfalso. apply Hid. rewrite <- Hkey. apply list_elem_of_fmap. eauto.
Qed.

Lemma getCoreSpeciesById_record species id :
  NoDup (map idKey coreSpecies) ->
  species ∈ coreSpecies ->
  prop species "id" = VStr id ->
  (id = "__proto__" -> noOwnProto species) ->
  getCoreSpeciesById coreSpecies (VStr id) = species.
Proof.
  intros Hnd Hin Hid Hshadow.
  assert (idKey species = id) as Hkey by (unfold idKey; rewrite Hid; reflexivity).
  rewrite getCoreSpeciesById_unfold. unfold readProperty.
  destruct (String.eqb_spec id "__proto__") as [Hproto|Hne].
  - rewrite Hproto in Hkey |- *.
    destruct (assign_proto_record species Hkey) as [fields Hfields].
    destruct (fold_proto_found coreSpecies emptyObject species fields Hnd Hin Hkey Hfields)
      as [Hown Hprototype]; [apply lookup_empty | reflexivity |].
    rewrite Hown, Hprototype, (Hshadow Hproto fields Hfields).
    cbn [String.eqb Ascii.eqb Bool.eqb]. symmetry. exact Hfields.
  - rewrite <- Hkey in Hne |- *.
    rewrite fold_found; [reflexivity | assumption | assumption | exact Hne].
Qed.

End Lookup.

(* ===================================================================== *)
(** ** More of the repository: what the accessors return *)
(* ===================================================================== *)

Section Returns.

Context {S : Type}.

Lemma returns_ret {A} (P : A -> Prop) a : P a -> returns (S := S) P (ret a).
Proof. intros Ha s a' s' Heq. injection Heq as <- _. exact Ha. Qed.

Lemma returns_bind {A B} (P : A -> Prop) (Q : B -> Prop) (m : M S A) (f : A -> M S B) :
  returns P m -> (forall a, P a -> returns Q (f a)) -> returns Q (bind m f).
Proof.
  intros Hm Hf s b s'. unfold bind. destruct (m s) as [[a|e] s1] eqn:Hms; [|discriminate].
  apply (Hf a (Hm s a s1 Hms)).
Qed.

Lemma returns_try_catch {A} (P : A -> Prop) (m : M S A) (h : exn -> M S A) :
  returns P m -> (forall e, returns P (h e)) -> returns P (try_catch m h).
Proof.
  intros Hm Hh s a s'. unfold try_catch. destruct (m s) as [[a'|e] s1] eqn:Hms.
  - intros Heq. injection Heq as <- <-. exact (Hm s a' s1 Hms).
  - apply Hh.
Qed.

Lemma returns_any {A} (m : M S A) : returns (fun _ => True) m.
Proof. intros s a s' _. exact I. Qed.

(** A [try] whose handler returns a value never fails. *)
Lemma try_catch_returns_normally {A} (P : A -> Prop) (m : M S A) (fallback : A) s :
  returns P m -> P fallback ->
  exists a s', try_catch m (fun _ => ret fallback) s = (Ok a, s') /\ P a.
Proof.
  intros Hm Hfallback. unfold try_catch. destruct (m s) as [[a|e] s1] eqn:Hms.
  - exists a, s1. split; [reflexivity | exact (Hm s a s1 Hms)].
  - exists fallback, s1. split; [reflexivity | exact Hfallback].
Qed.

End Returns.

Section AccessorResults.

Variable E : env.
Variable isSpecies : val -> bool.
Variable coreSpecies : list val.

(** The inner [try] block of [getSpecies] returns from the function only
    with a value that passed [isSpecies]. *)
Lemma getSpecies_remote_validated id :
  returns (fun returned => forall v, returned = Some v -> isSpecies v = true)
    (try_catch
       (let* response :=
          fetchWithETag E ("/api/species/" +:+ encodeURIComponent id) in
        let* notModified :=
          if status response =? 304 then
            let* cachedData := get E (CACHE_KEYS_species id) in
            if truthy cachedData && isSpecies cachedData
            then ret (Some cachedData) else ret None
          else ret None in
        match notModified with
        | Some cachedData => ret (Some cachedData)
        | None =>
            if ok response then
              let* data := readJson response in
              if isSpecies data then
                let* _ := set E (CACHE_KEYS_species id) data CACHE_TTL_species in
                ret (Some data)
              else ret None
            else ret None
        end)
       (fun error => ret None)).
Proof.
  apply returns_try_catch; [|intros e; apply returns_ret; discriminate].
  eapply returns_bind; [apply returns_any|]. intros response _.
  eapply (returns_bind (fun o => forall v, o = Some v -> isSpecies v = true)).
  - destruct (status response =? 304); [|apply returns_ret; discriminate].
    eapply returns_bind; [apply returns_any|]. intros cachedData _.
    destruct (truthy cachedData && isSpecies cachedData) eqn:Hc;
      [|apply returns_ret; discriminate].
    apply returns_ret. intros v Hv. injection Hv as <-.
    apply andb_prop in Hc as [_ Hc]. exact Hc.
  - intros [cachedData|] Hvalid; [apply returns_ret; exact Hvalid|].
    destruct (ok response); [|apply returns_ret; discriminate].
    eapply returns_bind; [apply returns_any|]. intros data _.
    destruct (isSpecies data) eqn:Hdata; [|apply returns_ret; discriminate].
    eapply returns_bind; [apply returns_any|]. intros _ _.
    apply returns_ret. intros v Hv. injection Hv as <-. exact Hdata.
Qed.

(** Whatever the store and the network do, [getSpecies] of a string returns
    normally, and what it returns is [undefined], a value that passed the
    shape check, or what the lookup [coreSpeciesById[id]] gives: no
    unchecked cached or remote value gets through. When [id] names nothing
    the lookup object inherits, what the lookup gives is [undefined] or a
    record of the dataset with that identifier. *)
Theorem getSpecies_returns_validated id w :
  exists v w',
    getSpecies E isSpecies coreSpecies (VStr id) w = (Ok v, w') /\
    validatedSpecies isSpecies coreSpecies id v /\
    (namesNoInherited coreSpecies id ->
     v = VUndef \/ recordOf coreSpecies id v \/ isSpecies v = true).
Proof.
  assert (exists v w',
             getSpecies E isSpecies coreSpecies (VStr id) w = (Ok v, w') /\
             validatedSpecies isSpecies coreSpecies id v) as (v & w' & Hrun & Hvalid).
  { unfold getSpecies, bind at 1. cbn [optionalTrim ret].
    destruct (negb (truthy (VStr (trim id)))).
    { exists VUndef, w. split; [reflexivity | left; reflexivity]. }
    cbn [ToString].
    apply (try_catch_returns_normally (validatedSpecies isSpecies coreSpecies id));
      [|right; left; reflexivity].
    eapply returns_bind; [apply returns_any|]. intros cached _.
    destruct (truthy cached && isSpecies cached) eqn:Hc.
    { apply returns_ret. right. right. apply andb_prop in Hc as [_ Hc]. exact Hc. }
    eapply returns_bind; [apply getSpecies_remote_validated|].
    intros [species|] Hvalid.
    - apply returns_ret. right. right. apply Hvalid. reflexivity.
    - destruct (truthy (getCoreSpeciesById coreSpecies (VStr id))).
      + eapply returns_bind; [apply returns_any|]. intros _ _.
        apply returns_ret. right. left. reflexivity.
      + apply returns_ret. left. reflexivity. }
  exists v, w'. split; [exact Hrun|]. split; [exact Hvalid|].
  intros Hnames. destruct Hvalid as [->|[->|Hshape]]; [left; reflexivity | | auto].
  destruct (getCoreSpeciesById_own coreSpecies id Hnames) as [->|Hrecord]; auto.
Qed.

Lemma isArray_isList v : isArray v = true -> isList v.
Proof. destruct v; try discriminate. intros _. eexists. reflexivity. Qed.

(** Whatever the store and the network do, [search] and [getPopulation] of
    a string return normally, and what they return is an array. *)
Theorem search_and_getPopulation_return_lists s w :
  (exists items w', search E isSpecies coreSpecies (VStr s) w = (Ok (VArr items), w')) /\
  (exists items w', getPopulation E (VStr s) w = (Ok (VArr items), w')).
Proof.
  assert (forall (m : M world val) w0,
             (exists v w', m w0 = (Ok v, w') /\ isList v) ->
             exists items w', m w0 = (Ok (VArr items), w')) as Hlist.
  { intros m w0 (v & w' & Hrun & [items ->]). eauto. }
  split.
  - apply Hlist.
    unfold search, bind at 1. cbn [optionalTrim ret].
    destruct (negb (truthy (VStr (trim s)))).
    { exists (VArr []), w. split; [reflexivity | eexists; reflexivity]. }
    cbn [ToString].
    apply (try_catch_returns_normally isList); [|eexists; reflexivity].
    eapply returns_bind; [apply returns_any|]. intros cached _.
    destruct (truthy cached && isArray cached) eqn:Hc.
    { apply returns_ret. apply andb_prop in Hc as [_ Hc]. apply isArray_isList, Hc. }
    eapply (returns_bind (fun o => forall v, o = Some v -> isList v)).
    + apply returns_try_catch; [|intros e; apply returns_ret; discriminate].
      eapply returns_bind; [apply returns_any|]. intros response _.
      eapply (returns_bind (fun o => forall v, o = Some v -> isList v)).
      * destruct (status response =? 304); [|apply returns_ret; discriminate].
        eapply returns_bind; [apply returns_any|]. intros cachedResults _.
        destruct (truthy cachedResults && isArray cachedResults) eqn:Hr;
          [|apply returns_ret; discriminate].
        apply returns_ret. intros v Hv. injection Hv as <-.
        apply andb_prop in Hr as [_ Hr]. apply isArray_isList, Hr.
      * intros [cachedResults|] Hvalid; [apply returns_ret; exact Hvalid|].
        destruct (ok response); [|apply returns_ret; discriminate].
        eapply returns_bind; [apply returns_any|]. intros remoteData _.
        destruct remoteData; try (apply returns_ret; discriminate).
        destruct (forallb isSpecies items); [|apply returns_ret; discriminate].
        eapply returns_bind; [apply returns_any|]. intros _ _.
        apply returns_ret. intros v Hv. injection Hv as <-. eexists. reflexivity.
    + intros [results|] Hvalid; [apply returns_ret, Hvalid; reflexivity|].
      eapply returns_bind; [apply returns_any|]. intros _ _.
      apply returns_ret. eexists. reflexivity.
  - apply Hlist.
    unfold getPopulation, bind at 1. cbn [optionalTrim ret].
    destruct (negb (truthy (VStr (trim s)))).
    { exists (VArr []), w. split; [reflexivity | eexists; reflexivity]. }
    cbn [ToString].
    apply (try_catch_returns_normally isList); [|eexists; reflexivity].
    eapply returns_bind; [apply returns_any|]. intros cached _.
    destruct (truthy cached && isArray cached) eqn:Hc.
    { apply returns_ret. apply andb_prop in Hc as [_ Hc]. apply isArray_isList, Hc. }
    eapply (returns_bind (fun o => forall v, o = Some v -> isList v)).
    + apply returns_try_catch; [|intros e; apply returns_ret; discriminate].
      eapply returns_bind; [apply returns_any|]. intros response _.
      eapply (returns_bind (fun o => forall v, o = Some v -> isList v)).
      * destruct (status response =? 304); [|apply returns_ret; discriminate].
        eapply returns_bind; [apply returns_any|]. intros cachedData _.
        destruct (truthy cachedData && isArray cachedData) eqn:Hr;
          [|apply returns_ret; discriminate].
        apply returns_ret. intros v Hv. injection Hv as <-.
        apply andb_prop in Hr as [_ Hr]. apply isArray_isList, Hr.
      * intros [cachedData|] Hvalid; [apply returns_ret; exact Hvalid|].
        destruct (ok response); [|apply returns_ret; discriminate].
        eapply returns_bind; [apply returns_any|]. intros data _.
        destruct (isArray data) eqn:Hdata; [|apply returns_ret; discriminate].
        eapply returns_bind; [apply returns_any|]. intros _ _.
        apply returns_ret. intros v Hv. injection Hv as <-. apply isArray_isList, Hdata.
    + intros [points|] Hvalid; [apply returns_ret, Hvalid; reflexivity|].
      apply returns_ret. eexists. reflexivity.
Qed.

End AccessorResults.

Lemma getSpecies_returns_validated_witness :
  exists v w',
    getSpecies offlineEnv hasStringId [seaOtter] (VStr "sea-otter") emptyWorld = (Ok v, w') /\
    (v = VUndef \/ recordOf [seaOtter] "sea-otter" v \/ hasStringId v = true).
Proof.
  destruct (getSpecies_returns_validated offlineEnv hasStringId [seaOtter] "sea-otter"
              emptyWorld) as (v & w' & Hrun & _ & Hv).
  exists v, w'. split; [exact Hrun|]. apply Hv. split.
  - unfold objectPrototypeNames, objectPrototypeMembers. cbn [map fst].
    repeat (apply not_elem_of_cons; split; [discriminate|]). apply not_elem_of_nil.
  - apply not_elem_of_cons. split; [discriminate | apply not_elem_of_nil].
Defined.

(* ===================================================================== *)
(** ** More of the repository: cache hits, write-back and fallbacks *)
(* ===================================================================== *)

Section AccessorPaths.

Variable E : env.
Variable isSpecies : val -> bool.
Variable coreSpecies : list val.

Lemma not_blank_guard s : trim s <> EmptyString -> negb (truthy (VStr (trim s))) = false.
Proof.
  intros Hs. rewrite truthy_trim. destruct (allWhiteSpace s) eqn:Hb; [|reflexivity].
  apply trim_empty_iff in Hb. contradiction.
Qed.

Lemma get_run k w : get E k w = (fst (get E k w), snd (get E k w)).
Proof. apply surjective_pairing. Qed.

(** Whatever the store and the network do: when the cache lookup of an
    accessor yields a value that passes its check, the accessor returns
    that value and does nothing but that one lookup; in particular it
    makes no request and sets no timer. *)
Theorem cache_hit_short_circuits s w v :
  trim s <> EmptyString ->
  truthy v = true ->
  (fst (get E (CACHE_KEYS_species s) w) = Ok v -> isSpecies v = true ->
   getSpecies E isSpecies coreSpecies (VStr s) w
   = (Ok v, snd (get E (CACHE_KEYS_species s) w))) /\
  (fst (get E (CACHE_KEYS_searchResults s) w) = Ok v -> isArray v = true ->
   search E isSpecies coreSpecies (VStr s) w
   = (Ok v, snd (get E (CACHE_KEYS_searchResults s) w))) /\
  (fst (get E (CACHE_KEYS_population s) w) = Ok v -> isArray v = true ->
   getPopulation E (VStr s) w
   = (Ok v, snd (get E (CACHE_KEYS_population s) w))) /\
  (forall k, fetch_calls (snd (get E k w)) = fetch_calls w /\
             timers (snd (get E k w)) = timers w).
Proof.
  intros Hs Hv. pose proof (not_blank_guard s Hs) as Hguard.
  split; [|split; [|split]].
  - intros Hget Hcheck. unfold getSpecies, bind at 1. cbn [optionalTrim ret].
    rewrite Hguard. cbn [ToString]. unfold try_catch at 1, bind at 1.
    rewrite get_run, Hget, Hv, Hcheck. reflexivity.
  - intros Hget Hcheck. unfold search, bind at 1. cbn [optionalTrim ret].
    rewrite Hguard. cbn [ToString]. unfold try_catch at 1, bind at 1.
    rewrite get_run, Hget, Hv, Hcheck. reflexivity.
  - intros Hget Hcheck. unfold getPopulation, bind at 1. cbn [optionalTrim ret].
    rewrite Hguard. cbn [ToString]. unfold try_catch at 1, bind at 1.
    rewrite get_run, Hget, Hv, Hcheck. reflexivity.
  - intros k. split; [apply get_fetch_calls | apply get_timers].
Qed.




(** After a write, the entry is there with its expiry and a [get] before
    the expiry returns the value. *)
Lemma written_then_read k v ttl w2 :
  healthy E ->
  let w' := snd (set E k v ttl w2) in
  let t := clock E (clock_reads w' - 1) in
  store w' !! getCacheKey k = Some (mkEntry v (t + ttl) t) /\
  (clock E (clock_reads w') <= t + ttl -> fst (get E k w') = Ok v).
Proof.
  intros H w' t. subst t w'. rewrite set_healthy by assumption.
  cbn [snd store clock_reads]. rewrite Nat.sub_1_r. cbn [Nat.pred].
  split; [apply lookup_insert_eq|]. intros Hnow.
  rewrite (get_live E k _ (mkEntry v (clock E (clock_reads w2) + ttl)
                                   (clock E (clock_reads w2))));
    [reflexivity | assumption | cbn [store]; apply lookup_insert_eq
     | cbn [clock_reads expiresAt]; exact Hnow].
Qed.


End AccessorPaths.

Lemma cache_hit_short_circuits_witness :
  getSpecies offlineEnv hasStringId [] (VStr "sea-otter") otterCachedWorld
  = (Ok seaOtter, snd (get offlineEnv (CACHE_KEYS_species "sea-otter") otterCachedWorld)).
Proof.
  destruct (cache_hit_short_circuits offlineEnv hasStringId [] "sea-otter" otterCachedWorld
              seaOtter) as (Hspecies & _); [discriminate | reflexivity |].
  apply Hspecies; reflexivity.
Defined.


Section Offline.

Variable E : env.
Variable isSpecies : val -> bool.
Variable coreSpecies : list val.

Lemma backoffLoop_always_fails {A} (operation : M world A) maxRetries baseDelayMs maxDelayMs :
  (forall w, exists e w', operation w = (Err e, w')) ->
  forall fuel attempt lastError w,
    exists e w',
      backoffLoop operation maxRetries baseDelayMs maxDelayMs fuel attempt lastError w
      = (Err e, w').
Proof.
  intros Hop. induction fuel as [|fuel IH]; intros attempt lastError w; cbn [backoffLoop].
  - unfold throw. eauto.
  - destruct (num_leb (ofZ attempt) maxRetries); [|unfold throw; eauto].
    unfold try_catch. destruct (Hop w) as (e & w1 & ->).
    destruct (num_eqb (ofZ attempt) maxRetries); [unfold throw; eauto|].
    unfold bind, sleep. apply IH.
Qed.

Lemma fetchWithETag_networkDown url w :
  networkDown E ->
  exists e w', fetchWithETag E url w = (Err e, w').
Proof.
  intros Hdown. unfold fetchWithETag, bind at 1.
  destruct (get_total E (CACHE_KEYS_etag url) w) as (cachedETag & w1 & ->).
  apply backoffLoop_always_fails. intros w0. unfold bind, fetch.
  destruct (Hdown (fetch_calls w0)
              (mkRequest url (if truthy cachedETag then Some cachedETag else None)))
    as (e & ->).
  eauto.
Qed.

(** The inner [try] block of an accessor when the network is down: it
    falls through, and the accessor's key is as absent as before. *)
Lemma remote_attempt_networkDown {A} url k (rest : Response -> M world (option A)) w :
  networkDown E ->
  store w !! getCacheKey k = None ->
  getCacheKey k <> getCacheKey (CACHE_KEYS_etag url) ->
  exists w',
    try_catch (let* response := fetchWithETag E url in rest response)
              (fun error => ret None) w = (Ok None, w') /\
    store w' !! getCacheKey k = None.
Proof.
  intros Hdown Hmiss Hne. unfold try_catch, bind.
  pose proof (touches_fetchWithETag E url w (getCacheKey k) Hne) as Hframe.
  destruct (fetchWithETag_networkDown url w Hdown) as (e & w' & Hrun).
  rewrite Hrun in *. cbn [snd] in Hframe. exists w'. split; [reflexivity|]. congruence.
Qed.

(** The network is unreachable, the cache holds nothing under
    [species:{id}], no record of the dataset has the identifier [id], and
    [id] names nothing the lookup object inherits (no property of
    [Object.prototype] such as [constructor] or [__proto__]): then the
    lookup [coreSpeciesById[id]] gives [undefined], [getSpecies] returns
    [undefined], whatever the store does, and nothing is cached under
    [species:{id}]. *)
Theorem getSpecies_not_found_anywhere id w :
  networkDown E ->
  store w !! getCacheKey (CACHE_KEYS_species id) = None ->
  id ∉ map idKey coreSpecies ->
  namesNoInherited coreSpecies id ->
  getCoreSpeciesById coreSpecies (VStr id) = VUndef /\
  fst (getSpecies E isSpecies coreSpecies (VStr id) w) = Ok VUndef /\
  store (snd (getSpecies E isSpecies coreSpecies (VStr id) w))
    !! getCacheKey (CACHE_KEYS_species id) = None.
Proof.
  intros Hdown Hmiss Hrecord Hnames.
  pose proof (getCoreSpeciesById_absent coreSpecies id Hrecord Hnames) as Hbundled.
  split; [exact Hbundled|].
  pose (Q := fun p : result val * world =>
               fst p = Ok VUndef /\
               store (snd p) !! getCacheKey (CACHE_KEYS_species id) = None).
  change (Q (getSpecies E isSpecies coreSpecies (VStr id) w)).
  unfold getSpecies, bind at 1. cbn [optionalTrim ret].
  destruct (negb (truthy (VStr (trim id)))); [split; [reflexivity | exact Hmiss]|].
  cbn [ToString]. unfold try_catch at 1, bind at 1.
  rewrite (get_miss_run E _ w Hmiss). cbn [truthy andb].
  destruct (get_miss E _ w Hmiss) as (_ & Hstore & _).
  unfold bind at 1.
  edestruct (remote_attempt_networkDown (A := val)
               ("/api/species/" +:+ encodeURIComponent id) (CACHE_KEYS_species id))
    as (w2 & Hrun & Hmiss2);
    [exact Hdown | rewrite Hstore; exact Hmiss | apply species_key_not_etag |].
  rewrite Hrun. rewrite Hbundled. cbn [truthy ret]. split; [reflexivity | exact Hmiss2].
Qed.

Lemma search_hit_run q w v :
  trim q <> EmptyString ->
  fst (get E (CACHE_KEYS_searchResults q) w) = Ok v ->
  truthy v = true ->
  isArray v = true ->
  search E isSpecies coreSpecies (VStr q) w
  = (Ok v, snd (get E (CACHE_KEYS_searchResults q) w)).
Proof.
  intros Hq Hget Hv Harray. unfold search, bind at 1. cbn [optionalTrim ret].
  rewrite (not_blank_guard q Hq). cbn [ToString]. unfold try_catch at 1, bind at 1.
  rewrite (surjective_pairing (get E (CACHE_KEYS_searchResults q) w)), Hget, Hv, Harray.
  reflexivity.
Qed.

Lemma search_networkDown_run q w :
  healthy E ->
  networkDown E ->
  trim q <> EmptyString ->
  store w !! getCacheKey (CACHE_KEYS_searchResults q) = None ->
  exists w2,
    search E isSpecies coreSpecies (VStr q) w
    = (Ok (VArr (fuzzySearchPreload coreSpecies q)),
       snd (set E (CACHE_KEYS_searchResults q) (VArr (fuzzySearchPreload coreSpecies q))
                CACHE_TTL_search w2)).
Proof.
  intros H Hdown Hq Hmiss. unfold search, bind at 1. cbn [optionalTrim ret].
  rewrite (not_blank_guard q Hq). cbn [ToString]. unfold try_catch at 1, bind at 1.
  rewrite get_miss_healthy by assumption. cbn [truthy andb]. unfold bind at 1.
  match goal with
  | |- context [try_catch (bind (fetchWithETag E ?u) ?rest) _ ?w0] =>
      destruct (remote_attempt_networkDown u (CACHE_KEYS_searchResults q) rest w0)
        as (w2 & Hrun & _);
      [exact Hdown | exact Hmiss | apply search_key_not_etag |]
  end.
  rewrite Hrun. unfold bind, ret. rewrite set_healthy by assumption.
  exists w2. rewrite set_healthy by assumption. reflexivity.
Qed.

(** On a store that works, with the network down and nothing cached for
    the query: [search] returns the local matches and caches them for 30
    minutes; repeated before that expiry it returns the same list from the
    cache and makes no request. *)
Theorem search_offline_then_cached q w :
  healthy E ->
  networkDown E ->
  trim q <> EmptyString ->
  store w !! getCacheKey (CACHE_KEYS_searchResults q) = None ->
  let local := VArr (fuzzySearchPreload coreSpecies q) in
  let w1 := snd (search E isSpecies coreSpecies (VStr q) w) in
  fst (search E isSpecies coreSpecies (VStr q) w) = Ok local /\
  (clock E (clock_reads w1) <= clock E (clock_reads w1 - 1) + 30 * 60 * 1000 ->
   fst (search E isSpecies coreSpecies (VStr q) w1) = Ok local /\
   fetch_calls (snd (search E isSpecies coreSpecies (VStr q) w1)) = fetch_calls w1).
Proof.
  intros H Hdown Hq Hmiss local w1. subst local w1.
  destruct (search_networkDown_run q w H Hdown Hq Hmiss) as (w2 & Hrun).
  rewrite Hrun. cbn [fst snd]. split; [reflexivity|]. intros Hnow.
  destruct (written_then_read E (CACHE_KEYS_searchResults q)
              (VArr (fuzzySearchPreload coreSpecies q)) CACHE_TTL_search w2 H)
    as [_ Hread].
  rewrite (search_hit_run q _ (VArr (fuzzySearchPreload coreSpecies q)) Hq (Hread Hnow));
    [|reflexivity|reflexivity].
  cbn [fst snd]. split; [reflexivity | apply get_fetch_calls].
Qed.

(** The blank guard of [search] and of [getPopulation]: for the empty
    string, a string of white space only, [null] or [undefined] they
    return the empty list and leave the world as it was. *)
Theorem search_and_getPopulation_reject_blank input w :
  (input = VUndef \/ input = VNull \/ exists s, input = VStr s /\ allWhiteSpace s = true) ->
  search E isSpecies coreSpecies input w = (Ok (VArr []), w) /\
  getPopulation E input w = (Ok (VArr []), w).
Proof.
  intros [->|[->|(s & -> & Hs)]]; try (split; reflexivity).
  unfold search, getPopulation, bind, optionalTrim, ret. rewrite truthy_trim, Hs.
  split; reflexivity.
Qed.

End Offline.

Lemma getSpecies_not_found_anywhere_witness :
  fst (getSpecies (unreachable (fun n => if Nat.even n then Some storeError else None))
                  hasStringId [seaOtter] (VStr "dodo") emptyWorld) = Ok VUndef.
Proof.
  destruct (getSpecies_not_found_anywhere
              (unreachable (fun n => if Nat.even n then Some storeError else None))
              hasStringId [seaOtter] "dodo" emptyWorld) as (_ & Hr & _).
  - intros n req. eexists. reflexivity.
  - reflexivity.
  - apply not_elem_of_cons. split; [discriminate | apply not_elem_of_nil].
  - split.
    + unfold objectPrototypeNames, objectPrototypeMembers. cbn [map fst].
      repeat (apply not_elem_of_cons; split; [discriminate|]). apply not_elem_of_nil.
    + apply not_elem_of_cons. split; [discriminate | apply not_elem_of_nil].
  - exact Hr.
Defined.

(** An identifier that names a property of [Object.prototype] is found,
    although no record has it: the lookup gives the inherited member, which
    is truthy, and [getSpecies] returns it. *)
Example getSpecies_inherited_member :
  fst (getSpecies offlineEnv (fun _ => false) [seaOtter] (VStr "constructor") emptyWorld)
  = Ok (VFun "Object" 1) /\
  fst (getSpecies offlineEnv (fun _ => false) [seaOtter] (VStr "__proto__") emptyWorld)
  = Ok objectPrototype.
Proof. split; reflexivity. Qed.

Lemma search_offline_then_cached_witness :
  fst (search offlineEnv hasStringId [seaOtter] (VStr "otter") emptyWorld)
  = Ok (VArr [seaOtter]) /\
  fst (search offlineEnv hasStringId [seaOtter] (VStr "otter")
              (snd (search offlineEnv hasStringId [seaOtter] (VStr "otter") emptyWorld)))
  = Ok (VArr [seaOtter]).
Proof.
  destruct (search_offline_then_cached offlineEnv hasStringId [seaOtter] "otter" emptyWorld)
    as (Hfirst & Hsecond).
  - intros n. reflexivity.
  - intros n req. eexists. reflexivity.
  - discriminate.
  - reflexivity.
  - split; [exact Hfirst|]. apply Hsecond. vm_compute. discriminate.
Defined.

Lemma search_and_getPopulation_reject_blank_witness :
  search offlineEnv hasStringId [seaOtter] (VStr "   ") emptyWorld = (Ok (VArr []), emptyWorld).
Proof.
  destruct (search_and_getPopulation_reject_blank offlineEnv hasStringId [seaOtter]
              (VStr "   ") emptyWorld) as [Hsearch _].
  - right. right. exists "   ". split; reflexivity.
  - exact Hsearch.
Defined.

(* ===================================================================== *)
(** ** The local search and the bundled dataset *)
(* ===================================================================== *)

Lemma lowerChar_isWhiteSpace c : isWhiteSpace (lowerChar c) = isWhiteSpace c.
Proof. destruct c as [[] [] [] [] [] [] [] []]; reflexivity. Qed.

Lemma lowerChar_idempotent c : lowerChar (lowerChar c) = lowerChar c.
Proof. destruct c as [[] [] [] [] [] [] [] []]; reflexivity. Qed.

Lemma allWhiteSpace_toLowerCase s : allWhiteSpace (toLowerCase s) = allWhiteSpace s.
Proof.
  induction s as [|c s IH]; simpl; [reflexivity|].
  rewrite lowerChar_isWhiteSpace, IH. reflexivity.
Qed.

Lemma toLowerCase_idempotent s : toLowerCase (toLowerCase s) = toLowerCase s.
Proof.
  induction s as [|c s IH]; simpl; [reflexivity|].
  rewrite lowerChar_idempotent, IH. reflexivity.
Qed.

Lemma toLowerCase_append a b : toLowerCase (a +:+ b) = toLowerCase a +:+ toLowerCase b.
Proof.
  induction a as [|c a IH]; [reflexivity|].
  rewrite append_cons. cbn [toLowerCase]. rewrite append_cons, IH. reflexivity.
Qed.

Lemma fuzzySearchPreload_unfold coreSpecies q :
  fuzzySearchPreload coreSpecies q =
  if allWhiteSpace q then []
  else List.filter
         (fun species => includes (toLowerCase (searchableText species))
                                  (trim (toLowerCase q)))
         coreSpecies.
Proof.
  unfold fuzzySearchPreload. rewrite truthy_trim, negb_involutive. reflexivity.
Qed.

(** The local search ignores letter case in the query: two queries with
    the same lower-case form give the same results. *)
Theorem fuzzySearchPreload_ignores_case coreSpecies q1 q2 :
  toLowerCase q1 = toLowerCase q2 ->
  fuzzySearchPreload coreSpecies q1 = fuzzySearchPreload coreSpecies q2.
Proof.
  intros Hq. rewrite !fuzzySearchPreload_unfold.
  rewrite <- (allWhiteSpace_toLowerCase q1), <- (allWhiteSpace_toLowerCase q2), Hq.
  reflexivity.
Qed.

Lemma fuzzySearchPreload_ignores_case_witness :
  fuzzySearchPreload [seaOtter; remoteSpecies] "OTTER"
  = fuzzySearchPreload [seaOtter; remoteSpecies] "otter".
Proof. apply fuzzySearchPreload_ignores_case. reflexivity. Defined.

Lemma prefix_append_l t a b : String.prefix t a = true -> String.prefix t (a +:+ b) = true.
Proof.
  revert a. induction t as [|c t IH]; intros a; [destruct (a +:+ b); reflexivity|].
  destruct a as [|d a]; [discriminate|]. rewrite append_cons. cbn [String.prefix].
  destruct (ascii_dec c d); [apply IH | discriminate].
Qed.

Lemma includes_append_l a b t : includes a t = true -> includes (a +:+ b) t = true.
Proof.
  induction a as [|c a IH].
  - cbn [includes]. rewrite orb_false_r. intros Ht. destruct t; [|discriminate].
    destruct b; reflexivity.
  - rewrite append_cons. cbn [includes]. intros Ht.
    apply orb_true_iff in Ht as [Ht|Ht].
    + apply orb_true_iff. left.
      change (String c (a +:+ b)) with (String c a +:+ b). apply prefix_append_l, Ht.
    + apply orb_true_iff. right. apply IH, Ht.
Qed.

Lemma includes_append_r a b t : includes b t = true -> includes (a +:+ b) t = true.
Proof.
  induction a as [|c a IH]; intros Ht; [exact Ht|].
  rewrite append_cons. cbn [includes]. apply orb_true_iff. right. apply IH, Ht.
Qed.

(** A bundled record is among the local results of a query that is not
    blank as soon as one of its four text fields contains the query,
    trimmed, letter case aside. *)
Theorem fuzzySearchPreload_finds_field coreSpecies q species text :
  allWhiteSpace q = false ->
  species ∈ coreSpecies ->
  (prop species "name" = VStr text \/
   prop (prop species "bullets") "habitat" = VStr text \/
   prop (prop species "bullets") "diet" = VStr text \/
   prop (prop species "bullets") "personality" = VStr text) ->
  includes (toLowerCase text) (trim (toLowerCase q)) = true ->
  species ∈ fuzzySearchPreload coreSpecies q.
Proof.
  intros Hq Hin Hfield Hmatch. rewrite fuzzySearchPreload_unfold, Hq.
  apply elem_of_filter. split; [exact Hin|].
  unfold searchableText. cbn [join].
  rewrite !toLowerCase_append.
  destruct Hfield as [Hf|[Hf|[Hf|Hf]]]; rewrite Hf; cbn [ToString].
  - apply includes_append_l, Hmatch.
  - apply includes_append_r, includes_append_r, includes_append_l, Hmatch.
  - do 4 apply includes_append_r. apply includes_append_l, Hmatch.
  - do 6 apply includes_append_r. exact Hmatch.
Qed.

Lemma fuzzySearchPreload_finds_field_witness :
  seaOtter ∈ fuzzySearchPreload [remoteSpecies; seaOtter] "  KELP ".
Proof.
  apply (fuzzySearchPreload_finds_field _ _ _ "Kelp forests and coastal waters").
  - reflexivity.
  - right. left.
  - right. left. reflexivity.
  - reflexivity.
Defined.

(** The fields are joined with single spaces before matching, so a query
    can also match across the end of one field and the start of the next. *)
Example fuzzySearchPreload_across_fields :
  fuzzySearchPreload [seaOtter] "otter kelp" = [seaOtter].
Proof. reflexivity. Qed.

(** In a dataset whose identifiers are distinct, every record is found
    under its own identifier; for a record whose identifier is [__proto__]
    that needs the record to have no own property of that name. *)
Theorem getCoreSpeciesById_finds_record coreSpecies species id :
  NoDup (map idKey coreSpecies) ->
  species ∈ coreSpecies ->
  prop species "id" = VStr id ->
  (id = "__proto__" -> noOwnProto species) ->
  getCoreSpeciesById coreSpecies (VStr id) = species.
Proof. apply getCoreSpeciesById_record. Qed.

Lemma getCoreSpeciesById_finds_record_witness :
  getCoreSpeciesById [seaOtter; remoteSpecies] (VStr "remote-species") = remoteSpecies.
Proof.
  apply getCoreSpeciesById_finds_record.
  - vm_compute. repeat constructor; intros Hin; inversion Hin as [|? ? ? Hin']; inversion Hin'.
  - right. left.
  - reflexivity.
  - discriminate.
Defined.

(** A record filed under [__proto__] becomes the prototype of the lookup
    object and is found through the accessor; but when it has an own
    property [__proto__], the lookup reads that property instead. *)
Example getCoreSpeciesById_proto_record :
  getCoreSpeciesById [seaOtter; VObj [("id", VStr "__proto__")]] (VStr "__proto__")
  = VObj [("id", VStr "__proto__")] /\
  getCoreSpeciesById [seaOtter; VObj [("id", VStr "__proto__")]] (VStr "id")
  = VStr "__proto__" /\
  getCoreSpeciesById [seaOtter; protoRecord] (VStr "__proto__") = VStr "shadow".
Proof. repeat split; reflexivity. Qed.

(** With a repeated identifier the later record replaces the earlier one. *)
Example getCoreSpeciesById_last_wins :
  getCoreSpeciesById [seaOtter; remoteOtter] (VStr "sea-otter") = remoteOtter.
Proof. reflexivity. Qed.

Lemma checkCoreSpecies_passes species index :
  checkCoreSpecies species index = None -> hasRequiredFields species.
Proof.
  unfold checkCoreSpecies, member, hasRequiredFields.
  destruct species; try discriminate.
  all: repeat match goal with
         | |- context [truthy ?v] =>
             lazymatch goal with
             | H : truthy v = _ |- _ => fail
             | _ => destruct (truthy v) eqn:?
             end
         end; cbn [negb orb]; try discriminate.
  all: destruct (strictEqualsNumber _ 0) eqn:Hlen; try discriminate.
  all: intros _; repeat split; try reflexivity.
  all: intros Hzero; rewrite Hzero in Hlen; discriminate.
Qed.

Lemma checkAll_passes items :
  forall index, checkAll items index = None -> Forall hasRequiredFields items.
Proof.
  induction items as [|species items IH]; intros index; [constructor|].
  cbn [checkAll]. destruct (checkCoreSpecies species index) eqn:Hcheck; [discriminate|].
  intros Hrest. constructor; [exact (checkCoreSpecies_passes species index Hcheck)|].
  exact (IH (S index) Hrest).
Qed.

(** What [validateCoreSpecies] guarantees when it returns: the data is the
    array returned, unchanged; it passed [isSpeciesArray]; it has exactly 7
    records; and each record has a truthy id, name, endangerment, bullets
    and photoURLs, three truthy bullet texts and a photo list that is not
    empty. *)
Theorem validateCoreSpecies_accepts isSpeciesArray data items :
  validateCoreSpecies isSpeciesArray data = Ok items ->
  data = VArr items /\
  isSpeciesArray data = true /\
  length items = 7%nat /\
  Forall hasRequiredFields items.
Proof.
  unfold validateCoreSpecies.
  destruct (isSpeciesArray data) eqn:Hshape; cbn [negb]; [|discriminate].
  destruct (member data "length") as [l|e]; [|discriminate].
  destruct (strictEqualsNumber (lengthOf data) 7) eqn:Hlen; cbn [negb]; [|discriminate].
  destruct data as [| | | | |elements| |]; try discriminate.
  destruct (checkAll elements 0) eqn:Hcheck; [discriminate|].
  intros Heq. injection Heq as <-.
  split; [reflexivity|]. split; [reflexivity|]. split.
  - cbn [lengthOf strictEqualsNumber] in Hlen. apply Z.eqb_eq in Hlen. lia.
  - exact (checkAll_passes elements 0 Hcheck).
Qed.

Lemma validateCoreSpecies_accepts_witness :
  length (replicate 7 seaOtter) = 7%nat /\ Forall hasRequiredFields (replicate 7 seaOtter).
Proof.
  destruct (validateCoreSpecies_accepts arrayOfIds (VArr (replicate 7 seaOtter))
              (replicate 7 seaOtter)) as (_ & _ & Hlen & Hall); [reflexivity|].
  split; assumption.
Defined.

(** Seven records with the same identifier pass: the validation does not
    ask for distinct identifiers. Six records do not pass. *)
Example validateCoreSpecies_wrong_count :
  validateCoreSpecies arrayOfIds (VArr (replicate 6 seaOtter))
  = Err (JsError "Error" "Expected exactly 7 core species, got 6").
Proof. reflexivity. Qed.

Example validateCoreSpecies_missing_photo :
  validateCoreSpecies arrayOfIds
    (VArr (replicate 6 seaOtter ++
           [VObj [("id", VStr "x"); ("name", VStr "X"); ("endangerment", VStr "LC");
                  ("bullets", VObj [("habitat", VStr "h"); ("diet", VStr "d");
                                    ("personality", VStr "p")]);
                  ("photoURLs", VArr [])]]))
  = Err (JsError "Error" ("Species " +:+ quoted "X" +:+ " has no photo URLs")).
Proof. reflexivity. Qed.

(* ===================================================================== *)
(** ** The UI preference store *)
(* ===================================================================== *)

Lemma dispatch_stateWith tts tutorial action :
  dispatch (stateWith tts tutorial) action
  = stateWith (match action with
               | toggleTTS => negb tts
               | reset => false
               | setTutorialComplete _ => tts
               end)
              (match action with
               | toggleTTS => tutorial
               | reset => VBool false
               | setTutorialComplete complete => complete
               end).
Proof. destruct action; reflexivity. Qed.

Lemma dispatch_invariant actions :
  forall tts tutorial toggles,
    tts = Nat.odd toggles ->
    foldl dispatch (stateWith tts tutorial) actions
    = stateWith
        (Nat.odd (foldl (fun n action =>
                           match action with
                           | toggleTTS => S n
                           | reset => 0%nat
                           | setTutorialComplete _ => n
                           end) toggles actions))
        (foldl (fun flag action =>
                  match action with
                  | toggleTTS => flag
                  | reset => VBool false
                  | setTutorialComplete complete => complete
                  end) tutorial actions).
Proof.
  induction actions as [|action actions IH]; intros tts tutorial toggles Htts.
  - cbn [foldl]. rewrite Htts. reflexivity.
  - cbn [foldl]. rewrite dispatch_stateWith. apply IH.
    destruct action; [|exact Htts|reflexivity].
    rewrite Htts, Nat.odd_succ, <- Nat.negb_odd. reflexivity.
Qed.

(** After any sequence of actions from the state the store is created
    with, text-to-speech is on exactly when [toggleTTS] was dispatched an
    odd number of times since the last [reset], and [tutorialComplete] is
    the argument of the last [setTutorialComplete] since the last [reset]
    ([false] if there was none). The state keeps its three action
    functions; what is persisted is the two flags only, without them. *)
Theorem ui_state_after actions :
  let state := foldl dispatch createdState actions in
  let tts := VBool (Nat.odd (togglesSinceReset actions)) in
  let tutorial := lastTutorialFlag actions in
  lookup_field "ttsEnabled" state = tts /\
  lookup_field "tutorialComplete" state = tutorial /\
  partialize state = [("ttsEnabled", tts); ("tutorialComplete", tutorial)] /\
  map fst state = ["ttsEnabled"; "tutorialComplete"; "toggleTTS"; "setTutorialComplete"; "reset"] /\
  (forall action,
      action ∈ ["toggleTTS"; "setTutorialComplete"; "reset"] ->
      lookup_field action state = lookup_field action createdState /\
      own_field action (partialize state) = None).
Proof.
  intros state tts tutorial. subst state tts tutorial.
  change createdState with (stateWith false (VBool false)).
  rewrite (dispatch_invariant actions false (VBool false) 0%nat eq_refl).
  fold (togglesSinceReset actions) (lastTutorialFlag actions).
  split; [reflexivity|]. split; [reflexivity|]. split; [reflexivity|]. split; [reflexivity|].
  intros action Hin.
  repeat (apply elem_of_cons in Hin as [->|Hin]; [split; reflexivity|]).
  inversion Hin.
Qed.

(** Two toggles, a completed tutorial, and what is persisted then. *)
Example ui_toggle_twice :
  partialize (foldl dispatch createdState
                    [toggleTTS; setTutorialComplete (VBool true); toggleTTS])
  = [("ttsEnabled", VBool false); ("tutorialComplete", VBool true)] /\
  foldl dispatch createdState [toggleTTS; setTutorialComplete (VBool true); toggleTTS]
  = stateWith false (VBool true).
Proof. split; reflexivity. Qed.
